(** * PYPOWER-Dynamics: the 4th order synchronous machine model

    A shallow embedding of the class [sym_order4] of [pydyn/sym_order4.py]
    (Python 3) and the properties of its current-injection calculator, its
    residual check and its step integrator.

    Objects and methods.  The object is a record of its attributes.  A method
    is a function from the object to a run: the value returned or the
    exception raised, the object after the call, and the lines printed.  An
    exception keeps the assignments made before it was raised.

    Dictionaries ([signals], [states], [states0], [dsteps], [params]) are
    finite maps keyed by strings; reading a missing key raises [KeyError],
    a list index out of range raises [IndexError].

    Numbers.  A Python [float] and a numpy [float64] are both IEEE 754
    binary64 values; they are modelled by Rocq's primitive floats, whose
    operations are the processor's.  An [int] literal in a float expression
    is the float of the same value, and [1/6] is the float quotient.
    Addition, subtraction and multiplication never raise.  Division depends
    on the operand types:
    - the parameters come from [float(...)] in [parser], so a quotient of
      parameters and literals only ([1/(2*H)], the denominator of [Yg]) is a
      quotient of Python scalars and raises [ZeroDivisionError] on a zero
      divisor;
    - the signals and the states are produced by numpy arithmetic
      ([np.abs(..) * np.sin(..)] and what is computed from them), so a
      quotient whose numerator involves them is a numpy quotient: IEEE 754
      division, which yields an infinity or a NaN and does not raise.
    A square [x ** 2] is not the product [x * x]: CPython and numpy both
    compute it with [pow] of the C library, whose value is the platform's
    and may differ from the rounded product in the last bit.  The methods
    are parametrised by that function; on a Python float a range error of
    [pow] becomes [OverflowError], on a numpy scalar nothing is raised.

    Contents: the model (scalars, complex numbers, the object, the methods);
    the quantities the statements speak about; example machines; lemmas to
    run a method symbolically and to compare two runs; the claims; further
    properties of the class, of its earlier copy [sym_order4.py] and of the
    reading of the machine file. *)

From Stdlib Require Import Floats ZArith Reals Lra.
From stdpp Require Import gmap strings list.

(** * The model *)

(** ** Exceptions and outcomes *)

Inductive exn : Type :=
  | KeyError (key : string)
  | IndexError
  | ZeroDivisionError
  | OverflowError.

Inductive outcome (A : Type) : Type :=
  | Ok (a : A)
  | Raise (e : exn).
Arguments Ok {A} a.
Arguments Raise {A} e.

(** ** The mathematical library of the platform

    [pow(x, y)] of the C library: the value it returns, and whether it
    reports a range error (it leaves [errno] at [ERANGE]).  The C standard
    does not fix the rounding of [pow].  A Python float calls it with a
    positive finite [x] and [y = 2] only, where a range error is the only
    error the standard allows; numpy calls it with any [x] and does not
    look at [errno]. *)
Class Libm : Type := {
  libm_pow : float → float → float * bool
}.

(** ** Scalars *)

Module PyFloat.
Section Scalars.
Context `{Libm}.
Local Open Scope float_scope.

(** [x / y] on Python scalars. *)
Definition truediv (x y : float) : outcome float :=
  if y =? 0 then Raise ZeroDivisionError else Ok (x / y).

(** [float_pow] of CPython's [floatobject.c] at the exponent [2]: the value
    of [v ** 2] and whether [errno] is [ERANGE] in the end.  A NaN, an
    infinity, a zero and [1] are answered without the library; a negative
    base is replaced by its opposite (the exponent is even, so the result is
    not negated); then [pow] is called, and [_Py_ADJUST_ERANGE1] reports an
    infinite result as a range error and forgives a range error on a zero
    result. *)
Definition float_pow2 (v : float) : float * bool :=
  if is_nan v then (v, false)
  else if is_infinity v then (abs v, false)
  else if v =? 0 then (0, false)
  else
    let iv := if v <? 0 then - v else v in
    if iv =? 1 then (1, false)
    else
      let '(ix, erange) := libm_pow iv 2 in
      (ix, if erange then negb (ix =? 0) else is_infinity ix).

(** [x ** 2] on a Python float: a range error raises [OverflowError]. *)
Definition pow2 (x : float) : outcome float :=
  let '(ix, erange) := float_pow2 x in
  if erange then Raise OverflowError else Ok ix.

(** The value of [x ** 2] on a Python float when it does not raise. *)
Definition square (x : float) : float := (float_pow2 x).1.

(** [x ** 2] on a numpy float64 scalar: [pow] of the library, with no
    special case and no exception. *)
Definition np_square (x : float) : float := (libm_pow x 2).1.
End Scalars.
End PyFloat.

(** ** Complex numbers: a pair of binary64 values, with the arithmetic of
    CPython's [complexobject.c] (numpy's complex128 uses the same formulas for
    sum, difference and product). *)

Record complex : Type := Complex { real : float; imag : float }.

Module PyComplex.
Local Open Scope float_scope.

(** A real operand of a mixed operation is promoted to [x + 0j]. *)
Definition of_float (x : float) : complex := Complex x 0.

(** The literal [1j]. *)
Definition j : complex := Complex 0 1.

Definition c_sum (a b : complex) : complex :=
  Complex (real a + real b) (imag a + imag b).

Definition c_diff (a b : complex) : complex :=
  Complex (real a - real b) (imag a - imag b).

Definition c_prod (a b : complex) : complex :=
  Complex (real a * real b - imag a * imag b)
          (real a * imag b + imag a * real b).

(** [np.conj] *)
Definition conj (a : complex) : complex := Complex (real a) (- imag a).

(** [_Py_c_quot]: Smith's algorithm; a zero divisor is the only error. *)
Definition c_quot (a b : complex) : outcome complex :=
  let abs_breal := if real b <? 0 then - real b else real b in
  let abs_bimag := if imag b <? 0 then - imag b else imag b in
  if abs_bimag <=? abs_breal then
    if abs_breal =? 0 then Raise ZeroDivisionError
    else
      let ratio := imag b / real b in
      let denom := real b + imag b * ratio in
      Ok (Complex ((real a + imag a * ratio) / denom)
                  ((imag a - real a * ratio) / denom))
  else if abs_breal <=? abs_bimag then
    let ratio := real b / imag b in
    let denom := real b * ratio + imag b in
    Ok (Complex ((real a * ratio + imag a) / denom)
                ((imag a * ratio - real a) / denom))
  else Ok (Complex nan nan).
End PyComplex.

(** ** The machine object

    The attributes [__init__] creates.  [id] and [gen_no] are metadata the
    parser may set; they take no part in the computations and are left out. *)

Record sym_order4 : Type := Machine {
  signals : gmap string float;
  states : gmap string float;
  states0 : gmap string float;
  dsteps : gmap string (list float);
  params : gmap string float;
  opt : string;
  omega_n : float;
  Yg : complex
}.

Definition with_signals (f : gmap string float → gmap string float)
    (self : sym_order4) : sym_order4 :=
  Machine (f (signals self)) (states self) (states0 self) (dsteps self)
          (params self) (opt self) (omega_n self) (Yg self).

Definition with_states (f : gmap string float → gmap string float)
    (self : sym_order4) : sym_order4 :=
  Machine (signals self) (f (states self)) (states0 self) (dsteps self)
          (params self) (opt self) (omega_n self) (Yg self).

Definition with_states0 (f : gmap string float → gmap string float)
    (self : sym_order4) : sym_order4 :=
  Machine (signals self) (states self) (f (states0 self)) (dsteps self)
          (params self) (opt self) (omega_n self) (Yg self).

Definition with_dsteps
    (f : gmap string (list float) → gmap string (list float))
    (self : sym_order4) : sym_order4 :=
  Machine (signals self) (states self) (states0 self) (f (dsteps self))
          (params self) (opt self) (omega_n self) (Yg self).

(** ** Methods: computations on [self] that may raise and may print *)

Record run (A : Type) : Type := Run {
  result : outcome A;
  final : sym_order4;
  printed : list string
}.
Arguments Run {A} result final printed.
Arguments result {A} r.
Arguments final {A} r.
Arguments printed {A} r.

Definition M (A : Type) : Type := sym_order4 → run A.

#[export] Instance M_ret : MRet M := λ A a self, Run (Ok a) self [].

#[export] Instance M_bind : MBind M := λ A B k c self,
  let r := c self in
  match result r with
  | Ok a =>
      let r' := k a (final r) in
      Run (result r') (final r') (printed r ++ printed r')
  | Raise e => Run (Raise e) (final r) (printed r)
  end.

Definition lift {A : Type} (o : outcome A) : M A :=
  λ self, Run o self [].

(** [d[key]] *)
Definition getitem {A : Type} (d : gmap string A) (key : string) : outcome A :=
  match d !! key with
  | Some v => Ok v
  | None => Raise (KeyError key)
  end.

(** [l[i]] for a non-negative literal index *)
Definition list_getitem {A : Type} (l : list A) (i : nat) : outcome A :=
  match l !! i with
  | Some v => Ok v
  | None => Raise IndexError
  end.

Definition get_signal (key : string) : M float :=
  λ self, Run (getitem (signals self) key) self [].
Definition get_state (key : string) : M float :=
  λ self, Run (getitem (states self) key) self [].
Definition get_state0 (key : string) : M float :=
  λ self, Run (getitem (states0 self) key) self [].
Definition get_param (key : string) : M float :=
  λ self, Run (getitem (params self) key) self [].
(** [self.dsteps[key][i]] *)
Definition get_dstep (key : string) (i : nat) : M float :=
  λ self,
    Run (match getitem (dsteps self) key with
         | Ok l => list_getitem l i
         | Raise e => Raise e
         end) self [].
Definition get_opt : M string := λ self, Run (Ok (opt self)) self [].
Definition get_omega_n : M float := λ self, Run (Ok (omega_n self)) self [].
Definition get_Yg : M complex := λ self, Run (Ok (Yg self)) self [].

Definition set_signal (key : string) (v : float) : M unit :=
  λ self, Run (Ok ()) (with_signals <[key := v]> self) [].
Definition set_state (key : string) (v : float) : M unit :=
  λ self, Run (Ok ()) (with_states <[key := v]> self) [].
Definition set_state0 (key : string) (v : float) : M unit :=
  λ self, Run (Ok ()) (with_states0 <[key := v]> self) [].
(** [self.dsteps[key] = l] *)
Definition set_dstep (key : string) (l : list float) : M unit :=
  λ self, Run (Ok ()) (with_dsteps <[key := l]> self) [].
(** [self.dsteps[key].append(v)] *)
Definition append_dstep (key : string) (v : float) : M unit :=
  λ self,
    match dsteps self !! key with
    | Some l => Run (Ok ()) (with_dsteps <[key := l ++ [v]]> self) []
    | None => Run (Raise (KeyError key)) self []
    end.

Definition print (line : string) : M unit :=
  λ self, Run (Ok ()) self [line].

(** ** [solve_step]: one sub-stage of the selected integration scheme *)

Section Integrator.
Local Open Scope float_scope.

Definition solve_step (h : float) (dstep : Z) : M unit :=
  (* Initial state variables *)
  omega_0 ← get_state "omega";
  delta_0 ← get_state "delta";
  Eqp_0 ← get_state "Eqp";
  Edp_0 ← get_state "Edp";
  (* Electrical differential equations *)
  Xd ← get_param "Xd";
  Xdp ← get_param "Xdp";
  Td0p ← get_param "Td0p";
  Vfd ← get_signal "Vfd";
  Id ← get_signal "Id";
  let f1 := (Vfd - (Xd - Xdp) * Id - Eqp_0) / Td0p in
  let k_Eqp := h * f1 in
  Xq ← get_param "Xq";
  Xqp ← get_param "Xqp";
  Tq0p ← get_param "Tq0p";
  Iq ← get_signal "Iq";
  let f2 := ((Xq - Xqp) * Iq - Edp_0) / Tq0p in
  let k_Edp := h * f2 in
  (* Swing equation *)
  H ← get_param "H";
  r ← lift (PyFloat.truediv 1 (2 * H));
  Pm ← get_signal "Pm";
  P ← get_signal "P";
  let f3 := r * (Pm - P) in
  let k_omega := h * f3 in
  w_n ← get_omega_n;
  let f4 := w_n * (omega_0 - 1) in
  let k_delta := h * f4 in
  scheme ← get_opt;
  if String.eqb scheme "mod_euler" then
    (* Modified Euler *)
    if (dstep =? 0)%Z then
      (* Predictor step *)
      set_state "Eqp" (Eqp_0 + k_Eqp);;
      set_dstep "Eqp" [k_Eqp];;
      set_state "Edp" (Edp_0 + k_Edp);;
      set_dstep "Edp" [k_Edp];;
      set_state "omega" (omega_0 + k_omega);;
      set_dstep "omega" [k_omega];;
      set_state "delta" (delta_0 + k_delta);;
      set_dstep "delta" [k_delta]
    else
      (* Corrector step *)
      d ← get_dstep "Eqp" 0;
      set_state "Eqp" (Eqp_0 + 0.5 * (k_Eqp - d));;
      d ← get_dstep "Edp" 0;
      set_state "Edp" (Edp_0 + 0.5 * (k_Edp - d));;
      d ← get_dstep "omega" 0;
      set_state "omega" (omega_0 + 0.5 * (k_omega - d));;
      d ← get_dstep "delta" 0;
      set_state "delta" (delta_0 + 0.5 * (k_delta - d))
  else if String.eqb scheme "runge_kutta" then
    (* 4th Order Runge-Kutta Method *)
    if (dstep =? 0)%Z then
      (* Save initial states *)
      set_state0 "omega" omega_0;;
      set_state0 "delta" delta_0;;
      set_state0 "Eqp" Eqp_0;;
      set_state0 "Edp" Edp_0;;
      set_state "Eqp" (Eqp_0 + 0.5 * k_Eqp);;
      set_dstep "Eqp" [k_Eqp];;
      set_state "Edp" (Edp_0 + 0.5 * k_Edp);;
      set_dstep "Edp" [k_Edp];;
      set_state "omega" (omega_0 + 0.5 * k_omega);;
      set_dstep "omega" [k_omega];;
      set_state "delta" (delta_0 + 0.5 * k_delta);;
      set_dstep "delta" [k_delta]
    else if (dstep =? 1)%Z then
      set_state "Eqp" (Eqp_0 + 0.5 * k_Eqp);;
      append_dstep "Eqp" k_Eqp;;
      set_state "Edp" (Edp_0 + 0.5 * k_Edp);;
      append_dstep "Edp" k_Edp;;
      set_state "omega" (omega_0 + 0.5 * k_omega);;
      append_dstep "omega" k_omega;;
      set_state "delta" (delta_0 + 0.5 * k_delta);;
      append_dstep "delta" k_delta
    else if (dstep =? 2)%Z then
      set_state "Eqp" (Eqp_0 + k_Eqp);;
      append_dstep "Eqp" k_Eqp;;
      set_state "Edp" (Edp_0 + k_Edp);;
      append_dstep "Edp" k_Edp;;
      set_state "omega" (omega_0 + k_omega);;
      append_dstep "omega" k_omega;;
      set_state "delta" (delta_0 + k_delta);;
      append_dstep "delta" k_delta
    else if (dstep =? 3)%Z then
      y0 ← get_state0 "Eqp";
      d0 ← get_dstep "Eqp" 0;
      d1 ← get_dstep "Eqp" 1;
      d2 ← get_dstep "Eqp" 2;
      set_state "Eqp" (y0 + 1 / 6 * (d0 + 2 * d1 + 2 * d2 + k_Eqp));;
      y0 ← get_state0 "Edp";
      d0 ← get_dstep "Edp" 0;
      d1 ← get_dstep "Edp" 1;
      d2 ← get_dstep "Edp" 2;
      set_state "Edp" (y0 + 1 / 6 * (d0 + 2 * d1 + 2 * d2 + k_Edp));;
      y0 ← get_state0 "omega";
      d0 ← get_dstep "omega" 0;
      d1 ← get_dstep "omega" 1;
      d2 ← get_dstep "omega" 2;
      set_state "omega" (y0 + 1 / 6 * (d0 + 2 * d1 + 2 * d2 + k_omega));;
      y0 ← get_state0 "delta";
      d0 ← get_dstep "delta" 0;
      d1 ← get_dstep "delta" 1;
      d2 ← get_dstep "delta" 2;
      set_state "delta" (y0 + 1 / 6 * (d0 + 2 * d1 + 2 * d2 + k_delta))
    else mret ()
  else mret ().

End Integrator.

(** ** The library functions the class calls

    [numpy]'s elementary functions and the Python builtins [round] and [str]
    are not part of the repository; the methods are parametrised by them. *)

Class Numpy : Type := {
  np_sin : float → float;
  np_cos : float → float;
  np_abs : complex → float;      (* magnitude of a complex number *)
  np_angle : complex → float;    (* its argument *)
  np_exp : complex → complex;
  np_true_divide : complex → complex → complex  (* complex128 quotient *)
}.

Class Builtins : Type := {
  py_round : float → Z → float;  (* round(x, ndigits) *)
  py_str : float → string       (* str(x) *)
}.

(** [np.pi] *)
Definition np_pi : float := 0x1.921fb54442d18p+1%float.

(** ** Reading the machine file

    A [str] is a Rocq string; its characters are the code points below 256
    (a file in ASCII or Latin-1).  [open(filename, 'r')] delivers the text
    of the file with every line end translated to a newline; iterating over
    the file yields its lines, each with its newline. *)

Module PyStr.

(** The character of a one-character literal. *)
Definition char (s : string) : Ascii.ascii :=
  match s with
  | String c _ => c
  | EmptyString => Ascii.zero
  end.

(** The newline. *)
Definition newline : Ascii.ascii := Ascii.ascii_of_nat 10.

(** [c.isspace()] on the code points below 256. *)
Definition isspace (c : Ascii.ascii) : bool :=
  existsb (Ascii.eqb c)
    (map Ascii.ascii_of_nat
         [9; 10; 11; 12; 13; 28; 29; 30; 31; 32; 133; 160]%nat).

Fixpoint lstrip_chars (l : list Ascii.ascii) : list Ascii.ascii :=
  match l with
  | c :: l' => if isspace c then lstrip_chars l' else l
  | [] => []
  end.

Definition rstrip_chars (l : list Ascii.ascii) : list Ascii.ascii :=
  rev (lstrip_chars (rev l)).

(** [s.strip()] *)
Definition strip (s : string) : string :=
  String.string_of_list_ascii
    (rstrip_chars (lstrip_chars (String.list_ascii_of_string s))).

Fixpoint split_chars (sep : Ascii.ascii) (l : list Ascii.ascii)
    : list (list Ascii.ascii) :=
  match l with
  | [] => [[]]
  | c :: l' =>
      if Ascii.eqb c sep then [] :: split_chars sep l'
      else match split_chars sep l' with
           | t :: ts => (c :: t) :: ts
           | [] => [[c]]
           end
  end.

(** [s.split(sep)] for a separator of one character. *)
Definition split (sep : string) (s : string) : list string :=
  map String.string_of_list_ascii
      (split_chars (char sep) (String.list_ascii_of_string s)).

Fixpoint lines_chars (l : list Ascii.ascii) : list (list Ascii.ascii) :=
  match l with
  | [] => []
  | c :: l' =>
      if Ascii.eqb c newline then [c] :: lines_chars l'
      else match lines_chars l' with
           | ln :: lns => (c :: ln) :: lns
           | [] => [[c]]
           end
  end.

(** The lines [for line in f] yields for a file with this text. *)
Definition readlines (text : string) : list string :=
  map String.string_of_list_ascii
      (lines_chars (String.list_ascii_of_string text)).
End PyStr.

(** The exceptions of [parser] and [__init__]: those of the methods, and
    the two that reading a file adds. *)
Inductive file_exn : Type :=
  | OSError                      (* the file cannot be opened *)
  | ValueError (text : string)   (* [float(text)] or [int(text)] rejects it *)
  | Base (e : exn).

(** [float(s)] and [int(s)] on a string: the number, or [ValueError]. *)
Class Conversions : Type := {
  py_float : string → option float;
  py_int : string → option Z
}.

(** The attributes [parser] assigns: the parameters, and the metadata [id]
    and [gen_no] when the file has them. *)
Record loaded : Type := Loaded {
  loaded_params : gmap string float;
  loaded_id : option string;
  loaded_gen_no : option Z
}.

#[export] Instance sum_ret {E : Type} : MRet (sum E) := λ A a, inr a.
#[export] Instance sum_bind {E : Type} : MBind (sum E) := λ A B k o,
  match o with
  | inr a => k a
  | inl e => inl e
  end.

(** [s[i]]: a string of one character. *)
Definition str_getitem (s : string) (i : nat) : file_exn + string :=
  match String.get i s with
  | Some c => inr (String c "")
  | None => inl (Base IndexError)
  end.

(** [tokens[i]] *)
Definition token (tokens : list string) (i : nat) : file_exn + string :=
  match tokens !! i with
  | Some t => inr t
  | None => inl (Base IndexError)
  end.

Definition convert {A : Type} (f : string → option A) (s : string)
    : file_exn + A :=
  match f s with
  | Some x => inr x
  | None => inl (ValueError s)
  end.

Section Parser.
Context `{Conversions}.
Import PyStr.

(** The body of the loop of [parser], for one line. *)
Definition parse_line (line : string) (self : loaded) : file_exn + loaded :=
  c ← str_getitem line 0;
  if negb (String.eqb c "#") && negb (String.eqb (strip line) "") then
    (* Ignore comments and blank lines *)
    let tokens := split "=" (strip line) in
    t0 ← token tokens 0;
    if String.eqb (strip t0) "ID" then
      t1 ← token tokens 1;
      mret (Loaded (loaded_params self) (Some (strip t1)) (loaded_gen_no self))
    else
      t0 ← token tokens 0;
      if String.eqb (strip t0) "GEN_NO" then
        t1 ← token tokens 1;
        n ← convert py_int (strip t1);
        mret (Loaded (loaded_params self) (loaded_id self) (Some n))
      else
        t1 ← token tokens 1;
        x ← convert py_float (strip t1);
        t0 ← token tokens 0;
        mret (Loaded (<[strip t0 := x]> (loaded_params self))
                     (loaded_id self) (loaded_gen_no self))
  else mret self.

(** The loop: an exception ends it and keeps what the earlier lines
    assigned. *)
Fixpoint parse_lines (lines : list string) (self : loaded)
    : option file_exn * loaded :=
  match lines with
  | [] => (None, self)
  | line :: rest =>
      match parse_line line self with
      | inr self' => parse_lines rest self'
      | inl e => (Some e, self)
      end
  end.

(** [parser(self, filename)], in a file system that maps the names of the
    readable files to their text. *)
Definition parser (fs : gmap string string) (filename : string)
    (self : loaded) : option file_exn * loaded :=
  match fs !! filename with
  | Some text => parse_lines (readlines text) self
  | None => (Some OSError, self)
  end.
End Parser.

(** ** Construction *)

#[export] Instance outcome_ret : MRet outcome := λ A a, Ok a.
#[export] Instance outcome_bind : MBind outcome := λ A B k o,
  match o with
  | Ok a => k a
  | Raise e => Raise e
  end.

Section Construction.
Context `{Libm}.
Local Open Scope float_scope.
Import PyComplex.

(** [__init__(self, filename, iopt)], given the mapping [parser] loads from
    the machine file. *)
Definition init (parsed : gmap string float) (iopt : string)
    : outcome sym_order4 :=
  let w_n := 2 * np_pi * 50 in
  (* Equivalent Norton impedance for Ybus modification *)
  Ra ← getitem parsed "Ra";
  Xdp ← getitem parsed "Xdp";
  Xqp ← getitem parsed "Xqp";
  let num :=
    c_diff (of_float Ra)
           (c_prod (c_prod j (of_float 0.5)) (of_float (Xdp + Xqp))) in
  Ra' ← getitem parsed "Ra";
  Ra2 ← PyFloat.pow2 Ra';
  Xdp' ← getitem parsed "Xdp";
  Xqp' ← getitem parsed "Xqp";
  Y ← c_quot num (of_float (Ra2 + Xdp' * Xqp'));
  mret (Machine ∅ ∅ ∅ ∅ parsed iopt w_n Y).
End Construction.

Section FromFile.
Context `{Libm} `{Conversions}.

(** [sym_order4(filename, iopt)]: the object [__init__] builds from the
    file, and the metadata it read. *)
Definition construct (fs : gmap string string) (filename iopt : string)
    : file_exn + sym_order4 * (option string * option Z) :=
  match parser fs filename (Loaded ∅ None None) with
  | (None, self) =>
      match init (loaded_params self) iopt with
      | Ok m => inr (m, (loaded_id self, loaded_gen_no self))
      | Raise e => inl (Base e)
      end
  | (Some e, _) => inl e
  end.
End FromFile.

(** ** [calc_currents], [check_diffs] and [initialise] *)

Section Algebraic.
Context `{Libm} `{Numpy} `{Builtins}.
Local Open Scope float_scope.
Import PyComplex.

Definition calc_currents (vt : complex) : M complex :=
  (* Calculate terminal voltage in dq reference frame *)
  delta ← get_state "delta";
  let Vd := np_abs vt * np_sin (delta - np_angle vt) in
  delta ← get_state "delta";
  let Vq := np_abs vt * np_cos (delta - np_angle vt) in
  (* Calculate Id and Iq (Norton equivalent current injection in dq frame) *)
  Ra ← get_param "Ra";
  '(Id, Iq) ←
    (if 0 <? Ra then
       Ra ← get_param "Ra";
       Eqp ← get_state "Eqp";
       Xdp ← get_param "Xdp";
       Edp ← get_state "Edp";
       Xdp' ← get_param "Xdp";
       Xqp ← get_param "Xqp";
       Ra' ← get_param "Ra";
       Ra2 ← lift (PyFloat.pow2 Ra');
       let Iq := (- Ra * (Vq - Eqp) + Xdp * (Vd - Edp))
                 / (Xdp' * Xqp + Ra2) in
       Edp ← get_state "Edp";
       Xqp ← get_param "Xqp";
       Ra ← get_param "Ra";
       let Id := - (Vd - Edp - Xqp * Iq) / Ra in
       mret (Id, Iq)
     else
       (* Ra = 0 (or if Ra is negative, Ra is ignored) *)
       Eqp ← get_state "Eqp";
       Xdp ← get_param "Xdp";
       let Id := (Eqp - Vq) / Xdp in
       Edp ← get_state "Edp";
       Xqp ← get_param "Xqp";
       let Iq := (Vd - Edp) / Xqp in
       mret (Id, Iq));
  (* Calculate power output *)
  Ra ← get_param "Ra";
  Ra' ← get_param "Ra";
  let p := (Vd + Ra * Id) * Id + (Vq + Ra' * Iq) * Iq in
  let q := Vq * Id - Vd * Iq in
  (* Calculate machine current injection (Norton equivalent current
     injection in network frame) *)
  delta ← get_state "delta";
  delta' ← get_state "delta";
  let In := c_prod (c_diff (of_float Iq) (c_prod j (of_float Id)))
                   (np_exp (c_prod j (of_float delta'))) in
  Y ← get_Yg;
  let Im := c_sum In (c_prod Y vt) in
  (* Update signals *)
  set_signal "Id" Id;;
  set_signal "Iq" Iq;;
  set_signal "Vd" Vd;;
  set_signal "Vq" Vq;;
  set_signal "P" p;;
  set_signal "Q" q;;
  set_signal "Vt"
    (PrimFloat.sqrt (PyFloat.np_square Vd + PyFloat.np_square Vq));;
  mret Im.

Definition check_diffs : M unit :=
  (* State variables *)
  Eqp_0 ← get_state "Eqp";
  Edp_0 ← get_state "Edp";
  Vfd ← get_signal "Vfd";
  Id ← get_signal "Id";
  Iq ← get_signal "Iq";
  Xd ← get_param "Xd";
  Xdp ← get_param "Xdp";
  Td0p ← get_param "Td0p";
  Xq ← get_param "Xq";
  Xqp ← get_param "Xqp";
  Tq0p ← get_param "Tq0p";
  let dEqp := (Vfd - (Xd - Xdp) * Id - Eqp_0) / Td0p in
  let dEdp := ((Xq - Xqp) * Iq - Edp_0) / Tq0p in
  if negb (py_round dEdp 6 =? 0) || negb (py_round dEqp 6 =? 0) then
    print "Warning: differential equations not zero on initialisation...";;
    print (String.append "dEdp = "
            (String.append (py_str dEdp)
              (String.append ", dEqp = " (py_str dEqp))))
  else mret ().

(** [initialise(self, vt0, S0)], for a voltage and a power that are numpy
    complex128 scalars (their quotient does not raise). *)
Definition initialise (vt0 S0 : complex) : M unit :=
  (* Calculate initial armature current *)
  let Ia0 := conj (np_true_divide S0 vt0) in
  let phi0 := np_angle Ia0 in
  (* Calculate steady state machine emf (i.e. voltage behind synchronous
     reactance) *)
  Ra ← get_param "Ra";
  Xq ← get_param "Xq";
  let Eq0 := c_sum vt0 (c_prod (Complex Ra Xq) Ia0) in
  let delta0 := np_angle Eq0 in
  (* Convert currents to rotor reference frame *)
  let Id0 := np_abs Ia0 * np_sin (delta0 - phi0) in
  let Iq0 := np_abs Ia0 * np_cos (delta0 - phi0) in
  let Vd0 := np_abs vt0 * np_sin (delta0 - np_angle vt0) in
  let Vq0 := np_abs vt0 * np_cos (delta0 - np_angle vt0) in
  (* Calculate machine state variables and Vfd *)
  Ra ← get_param "Ra";
  Xdp ← get_param "Xdp";
  let Eqp0 := Vq0 + Ra * Iq0 + Xdp * Id0 in
  Ra ← get_param "Ra";
  Xqp ← get_param "Xqp";
  let Edp0 := Vd0 + Ra * Id0 - Xqp * Iq0 in
  Xd ← get_param "Xd";
  Xdp ← get_param "Xdp";
  let Vfd0 := PrimFloat.abs Eqp0 + (Xd - Xdp) * Id0 in
  (* Calculate active and reactive power *)
  Ra ← get_param "Ra";
  Ra' ← get_param "Ra";
  let p0 := (Vd0 + Ra * Id0) * Id0 + (Vq0 + Ra' * Iq0) * Iq0 in
  let q0 := Vq0 * Id0 - Vd0 * Iq0 in
  (* Initialise signals, states and parameters *)
  set_signal "Vfd" Vfd0;;
  set_signal "Id" Id0;;
  set_signal "Iq" Iq0;;
  set_signal "Vd" Vd0;;
  set_signal "Vq" Vq0;;
  set_signal "Vt" (np_abs vt0);;
  set_signal "P" p0;;
  set_signal "Q" q0;;
  set_signal "Pm" p0;;
  set_state "omega" 1;;
  set_state "delta" delta0;;
  set_state "Eqp" Eqp0;;
  set_state "Edp" Edp0;;
  check_diffs.
End Algebraic.

(** ** The earlier copy of the class

    [sym_order4.py] at the top of the repository is an earlier version of the
    same class.  Its residual check compares the residuals with zero exactly
    and prints a single line; its integrator calls a module that is not part
    of the sources and is not modelled. *)

Module Legacy.
Local Open Scope float_scope.

Definition check_diffs : M unit :=
  (* State variables *)
  Eqp_0 ← get_state "Eqp";
  Edp_0 ← get_state "Edp";
  Vfd ← get_signal "Vfd";
  Id ← get_signal "Id";
  Iq ← get_signal "Iq";
  Xd ← get_param "Xd";
  Xdp ← get_param "Xdp";
  Td0p ← get_param "Td0p";
  Xq ← get_param "Xq";
  Xqp ← get_param "Xqp";
  Tq0p ← get_param "Tq0p";
  let dEqp := (Vfd - (Xd - Xdp) * Id - Eqp_0) / Td0p in
  let dEdp := ((Xq - Xqp) * Iq - Edp_0) / Tq0p in
  if negb (dEdp =? 0) || negb (dEqp =? 0) then
    print "Differential equations not zero on initialisation..."
  else mret ().

(** [parser] of the earlier copy: every name is a parameter. *)
Section Parser.
Context `{Conversions}.
Import PyStr.

Definition parse_line (line : string) (params : gmap string float)
    : file_exn + gmap string float :=
  c ← str_getitem line 0;
  if negb (String.eqb c "#") && negb (String.eqb (strip line) "") then
    (* Ignore comments and blank lines *)
    let tokens := split "=" (strip line) in
    t1 ← token tokens 1;
    x ← convert py_float (strip t1);
    t0 ← token tokens 0;
    mret (<[strip t0 := x]> params)
  else mret params.

Fixpoint parse_lines (lines : list string) (params : gmap string float)
    : option file_exn * gmap string float :=
  match lines with
  | [] => (None, params)
  | line :: rest =>
      match parse_line line params with
      | inr params' => parse_lines rest params'
      | inl e => (Some e, params)
      end
  end.

Definition parser (fs : gmap string string) (filename : string)
    (params : gmap string float) : option file_exn * gmap string float :=
  match fs !! filename with
  | Some text => parse_lines (readlines text) params
  | None => (Some OSError, params)
  end.
End Parser.

Section Algebraic.
Context `{Libm} `{Numpy}.
Import PyComplex.

(** [initialise(self, vt0, S0)] of the earlier copy, for numpy complex128
    arguments. *)
Definition initialise (vt0 S0 : complex) : M unit :=
  (* Calculate initial armature current *)
  let Ia0 := conj (np_true_divide S0 vt0) in
  let phi0 := np_angle Ia0 in
  (* Calculate steady state machine emf (i.e. voltage behind synchronous
     reactance) *)
  Ra ← get_param "Ra";
  Xq ← get_param "Xq";
  let Eq0 := c_sum vt0 (c_prod (Complex Ra Xq) Ia0) in
  let delta0 := np_angle Eq0 in
  (* Convert currents to rotor reference frame *)
  let Id0 := np_abs Ia0 * np_sin (delta0 - phi0) in
  let Iq0 := np_abs Ia0 * np_cos (delta0 - phi0) in
  (* Calculate machine state variables and Vfd *)
  Xd ← get_param "Xd";
  Xq ← get_param "Xq";
  let Vfd0 := np_abs Eq0 + (Xd - Xq) * Id0 in
  (* Initial transient EMF *)
  Xd ← get_param "Xd";
  Xdp ← get_param "Xdp";
  let Eqp0 := Vfd0 - (Xd - Xdp) * Id0 in
  Xq ← get_param "Xq";
  Xqp ← get_param "Xqp";
  let Edp0 := (Xq - Xqp) * Iq0 in
  (* Initial Vd, Vq *)
  Xqp ← get_param "Xqp";
  let Vd0 := Edp0 + Xqp * Iq0 in
  Xdp ← get_param "Xdp";
  let Vq0 := Eqp0 - Xdp * Id0 in
  (* Calculate active and reactive power *)
  let p0 := Vd0 * Id0 + Vq0 * Iq0 in
  let q0 := Vq0 * Id0 - Vd0 * Iq0 in
  (* Initialise signals, states and parameters *)
  set_signal "Vfd" Vfd0;;
  set_signal "Id" Id0;;
  set_signal "Iq" Iq0;;
  set_signal "Vd" Vd0;;
  set_signal "Vq" Vq0;;
  set_signal "Vt" (np_abs vt0);;
  set_signal "P" p0;;
  set_signal "Q" q0;;
  set_signal "Pm" p0;;
  set_state "omega" 1;;
  set_state "delta" delta0;;
  set_state "Eqp" Eqp0;;
  set_state "Edp" Edp0;;
  check_diffs.

(** [calc_currents(self, vt)] of the earlier copy: the resistance is
    ignored, and the injection is the transient EMF behind [j Xdp]. *)
Definition calc_currents (vt : complex) : M complex :=
  (* Calculate terminal voltage in dq reference frame *)
  delta ← get_state "delta";
  let Vd := np_abs vt * np_sin (delta - np_angle vt) in
  delta ← get_state "delta";
  let Vq := np_abs vt * np_cos (delta - np_angle vt) in
  (* Calculate Id and Iq *)
  Eqp ← get_state "Eqp";
  Xdp ← get_param "Xdp";
  let Id := (Eqp - Vq) / Xdp in
  Edp ← get_state "Edp";
  Xqp ← get_param "Xqp";
  let Iq := (Vd - Edp) / Xqp in
  (* Calculate power output *)
  let p := Vd * Id + Vq * Iq in
  let q := Vq * Id - Vd * Iq in
  let S := c_diff (of_float p) (c_prod j (of_float q)) in
  (* Calculate machine current injection (Norton equivalent current
     injection in network frame) *)
  Eqp ← get_state "Eqp";
  Edp ← get_state "Edp";
  delta ← get_state "delta";
  Xdp ← get_param "Xdp";
  let Im :=
    np_true_divide
      (c_prod (c_diff (of_float Eqp) (c_prod j (of_float Edp)))
              (np_exp (c_prod j (of_float delta))))
      (c_prod j (of_float Xdp)) in
  (* Update signals *)
  set_signal "Id" Id;;
  set_signal "Iq" Iq;;
  set_signal "Vd" Vd;;
  set_signal "Vq" Vq;;
  set_signal "P" p;;
  set_signal "Q" q;;
  set_signal "Vt"
    (PrimFloat.sqrt (PyFloat.np_square Vd + PyFloat.np_square Vq));;
  mret Im.
End Algebraic.
End Legacy.

(** * The quantities the statements speak about *)

#[export] Instance float_inhabited : Inhabited float := populate 0%float.

(** The four state variables and their dictionary keys. *)
Inductive var : Type := Eqp | Edp | omega | delta.

Definition key (v : var) : string :=
  match v with
  | Eqp => "Eqp"
  | Edp => "Edp"
  | omega => "omega"
  | delta => "delta"
  end.

Definition has_keys {A : Type} (keys : list string) (d : gmap string A)
    : Prop :=
  Forall (λ k, is_Some (d !! k)) keys.

Definition state_keys : list string := ["omega"; "delta"; "Eqp"; "Edp"].
Definition signal_keys : list string :=
  ["Vfd"; "Id"; "Iq"; "Vd"; "Vq"; "Vt"; "P"; "Q"; "Pm"].
Definition param_keys : list string :=
  ["Ra"; "Xd"; "Xq"; "Xdp"; "Xqp"; "Td0p"; "Tq0p"; "H"].

(** The dictionaries as [parser] and [initialise] leave them: every
    parameter, signal and state the methods read is present
    ([initialise] assigns exactly [signal_keys] and [state_keys]). *)
Definition initialised (m : sym_order4) : Prop :=
  has_keys state_keys (states m) ∧
  has_keys signal_keys (signals m) ∧
  has_keys param_keys (params m).

Section Derivatives.
Context `{Libm}.
Local Open Scope float_scope.

(** The right-hand side of each differential equation on an initialised
    machine, with the operations in the order [solve_step] performs them. *)
Definition rhs (v : var) (m : sym_order4) : float :=
  match v with
  | Eqp =>
      (signals m !!! "Vfd"
       - (params m !!! "Xd" - params m !!! "Xdp") * signals m !!! "Id"
       - states m !!! "Eqp") / params m !!! "Td0p"
  | Edp =>
      ((params m !!! "Xq" - params m !!! "Xqp") * signals m !!! "Iq"
       - states m !!! "Edp") / params m !!! "Tq0p"
  | omega =>
      1 / (2 * params m !!! "H") * (signals m !!! "Pm" - signals m !!! "P")
  | delta => omega_n m * (states m !!! "omega" - 1)
  end.

(** The increment [k = h * f] a stage computes for a variable. *)
Definition increment (v : var) (h : float) (m : sym_order4) : float :=
  h * rhs v m.

(** [2 * H] is not zero, so that [1/(2*H)] is defined. *)
Definition inertia_ok (m : sym_order4) : Prop :=
  (2 * params m !!! "H" =? 0) = false.

(** [x ** 2] on a Python float does not raise. *)
Definition square_ok (x : float) : Prop :=
  (PyFloat.float_pow2 x).2 = false.

(** The armature resistance, when it is used ([Ra > 0]), can be squared. *)
Definition resistance_ok (m : sym_order4) : Prop :=
  (0 <? params m !!! "Ra") = true → square_ok (params m !!! "Ra").

(** Two floats are the same number: identical, or equal under [==]
    (which identifies the two zeros). *)
Definition same_number (x y : float) : Prop :=
  x = y ∨ (x =? y) = true.
End Derivatives.

(** A machine on which [solve_step] can run under a given scheme. *)
Definition ready (scheme : string) (m : sym_order4) : Prop :=
  opt m = scheme ∧ initialised m ∧ inertia_ok m.

(** The same as a test, to evaluate on a concrete dictionary. *)
Definition has_keysb {A : Type} (keys : list string) (d : gmap string A)
    : bool :=
  forallb (λ k, bool_decide (is_Some (d !! k))) keys.

(** ** The stator equations

    The closed forms [calc_currents] uses, written once over any arithmetic:
    at binary64 they are what the method computes, over the reals they are
    the solution of the stator equations
      [Eqp = Vq + Ra Iq + Xdp Id] and [Edp = Vd + Ra Id - Xqp Iq]. *)

Class Arith (T : Type) : Type := {
  a_add : T → T → T;
  a_sub : T → T → T;
  a_mul : T → T → T;
  a_div : T → T → T;
  a_opp : T → T;
  a_sqr : T → T
}.

(** At binary64 the square is the value of [x ** 2] on a Python float. *)
#[export] Instance float_arith `{Libm} : Arith float := {|
  a_add := PrimFloat.add;
  a_sub := PrimFloat.sub;
  a_mul := PrimFloat.mul;
  a_div := PrimFloat.div;
  a_opp := PrimFloat.opp;
  a_sqr := PyFloat.square
|}.

#[export] Instance real_arith : Arith R := {|
  a_add := Rplus;
  a_sub := Rminus;
  a_mul := Rmult;
  a_div := Rdiv;
  a_opp := Ropp;
  a_sqr x := Rmult x x
|}.

Section Stator.
Context {T : Type} `{Arith T}.

(** Ra > 0: the coupled 2x2 system, denominator [Xdp Xqp + Ra^2]. *)
Definition coupled_Iq (Ra Xdp Xqp Eqp Edp Vd Vq : T) : T :=
  a_div (a_add (a_mul (a_opp Ra) (a_sub Vq Eqp)) (a_mul Xdp (a_sub Vd Edp)))
        (a_add (a_mul Xdp Xqp) (a_sqr Ra)).

Definition coupled_Id (Ra Xqp Edp Vd Iq : T) : T :=
  a_div (a_opp (a_sub (a_sub Vd Edp) (a_mul Xqp Iq))) Ra.

(** Ra <= 0: two independent scalar divisions. *)
Definition decoupled_Id (Xdp Eqp Vq : T) : T := a_div (a_sub Eqp Vq) Xdp.
Definition decoupled_Iq (Xqp Edp Vd : T) : T := a_div (a_sub Vd Edp) Xqp.
End Stator.

Section Injection.
Context `{Libm} `{Numpy}.
Local Open Scope float_scope.
Import PyComplex.

(** The dq projections of the terminal voltage by the rotor angle. *)
Definition Vd_of (vt : complex) (m : sym_order4) : float :=
  np_abs vt * np_sin (states m !!! "delta" - np_angle vt).
Definition Vq_of (vt : complex) (m : sym_order4) : float :=
  np_abs vt * np_cos (states m !!! "delta" - np_angle vt).

(** The dq currents [(Id, Iq)] under the policy selected by [Ra > 0]. *)
Definition dq_currents (vt : complex) (m : sym_order4) : float * float :=
  let Ra := params m !!! "Ra" in
  let Xdp := params m !!! "Xdp" in
  let Xqp := params m !!! "Xqp" in
  let E'q := states m !!! "Eqp" in
  let E'd := states m !!! "Edp" in
  if 0 <? Ra then
    let Iq := coupled_Iq Ra Xdp Xqp E'q E'd (Vd_of vt m) (Vq_of vt m) in
    (coupled_Id Ra Xqp E'd (Vd_of vt m) Iq, Iq)
  else
    (decoupled_Id Xdp E'q (Vq_of vt m), decoupled_Iq Xqp E'd (Vd_of vt m)).

(** The dq current [Iq - j Id] rotated by [exp(j delta)], plus [Yg vt]. *)
Definition injection (vt : complex) (m : sym_order4) (Id Iq : float)
    : complex :=
  c_sum (c_prod (c_diff (of_float Iq) (c_prod j (of_float Id)))
                (np_exp (c_prod j (of_float (states m !!! "delta")))))
        (c_prod (Yg m) vt).

(** The signals [calc_currents] assigns. *)
Definition dq_signals (vt : complex) (m : sym_order4) (Id Iq : float)
    (s : gmap string float) : gmap string float :=
  let Vd := Vd_of vt m in
  let Vq := Vq_of vt m in
  let Ra := params m !!! "Ra" in
  <["Vt" := PrimFloat.sqrt (PyFloat.np_square Vd + PyFloat.np_square Vq)]>
    (<["Q" := Vq * Id - Vd * Iq]>
      (<["P" := (Vd + Ra * Id) * Id + (Vq + Ra * Iq) * Iq]>
        (<["Vq" := Vq]>
          (<["Vd" := Vd]> (<["Iq" := Iq]> (<["Id" := Id]> s)))))).
End Injection.

(** ** What a method may read and write *)

(** The part of a machine [calc_currents] reads. *)
Definition same_core (m1 m2 : sym_order4) : Prop :=
  states m1 = states m2 ∧ params m1 = params m2 ∧ Yg m1 = Yg m2.

(** Everything but the signals is as before. *)
Definition same_but_signals (m m' : sym_order4) : Prop :=
  states m' = states m ∧ states0 m' = states0 m ∧ dsteps m' = dsteps m ∧
  params m' = params m ∧ opt m' = opt m ∧ omega_n m' = omega_n m ∧
  Yg m' = Yg m.

(** A method that reads the core only and writes signals only: run on two
    machines with the same core it gives the same result and prints nothing,
    and each signal is either assigned the same value in both runs or left
    alone in both. *)
Definition signals_from_core {A : Type} (c : M A) : Prop :=
  ∀ m1 m2, same_core m1 m2 →
    result (c m1) = result (c m2) ∧
    printed (c m1) = [] ∧ printed (c m2) = [] ∧
    same_but_signals m1 (final (c m1)) ∧
    same_but_signals m2 (final (c m2)) ∧
    ∀ k, signals (final (c m1)) !! k = signals (final (c m2)) !! k ∨
         (signals (final (c m1)) !! k = signals m1 !! k ∧
          signals (final (c m2)) !! k = signals m2 !! k).

(** What [solve_step] leaves alone. *)
Definition integrator_frame (m m' : sym_order4) : Prop :=
  signals m' = signals m ∧ params m' = params m ∧ opt m' = opt m ∧
  omega_n m' = omega_n m ∧ Yg m' = Yg m.

(** ** What each method reads *)

(** The signals and the parameters [solve_step] reads (with the four
    states), and the states and the parameters [calc_currents] reads. *)
Definition step_signal_keys : list string := ["Vfd"; "Id"; "Iq"; "Pm"; "P"].
Definition step_param_keys : list string :=
  ["Xd"; "Xdp"; "Td0p"; "Xq"; "Xqp"; "Tq0p"; "H"].
Definition current_state_keys : list string := ["delta"; "Eqp"; "Edp"].
Definition current_param_keys : list string := ["Ra"; "Xdp"; "Xqp"].

(** Every entry [solve_step] reads before it branches is present. *)
Definition steppable (m : sym_order4) : Prop :=
  has_keys state_keys (states m) ∧
  has_keys step_signal_keys (signals m) ∧
  has_keys step_param_keys (params m).

(** The first missing entry of a list of reads [d[key]]. *)
Definition first_missing (reads : list (gmap string float * string))
    : option string :=
  snd <$> find (λ r, match r.1 !! r.2 with
                     | Some _ => false
                     | None => true
                     end) reads.

(** The entries [solve_step] reads before it computes [1/(2*H)], in the
    order it reads them, and the two it reads after. *)
Definition step_reads_first (m : sym_order4)
    : list (gmap string float * string) :=
  [(states m, "omega"); (states m, "delta"); (states m, "Eqp");
   (states m, "Edp"); (params m, "Xd"); (params m, "Xdp");
   (params m, "Td0p"); (signals m, "Vfd"); (signals m, "Id");
   (params m, "Xq"); (params m, "Xqp"); (params m, "Tq0p");
   (signals m, "Iq"); (params m, "H")].
Definition step_reads_last (m : sym_order4)
    : list (gmap string float * string) :=
  [(signals m, "Pm"); (signals m, "P")].

(** The parameters [initialise] reads, in the order it first reads them,
    and the two its residual check is the first to read. *)
Definition initialise_reads (m : sym_order4)
    : list (gmap string float * string) :=
  [(params m, "Ra"); (params m, "Xq"); (params m, "Xdp"); (params m, "Xqp");
   (params m, "Xd")].
Definition residual_reads (m : sym_order4)
    : list (gmap string float * string) :=
  [(params m, "Td0p"); (params m, "Tq0p")].

(** A float is one of the two zeros. *)
Definition is_zero (x : float) : Prop := ∃ s, Prim2SF x = S754_zero s.

(** Two floats are identical, or differ by the sign of a zero. *)
Definition alike (x y : float) : Prop :=
  x = y ∨ (is_zero x ∧ is_zero y).

(** A float is a number (not a NaN) other than zero. *)
Definition nonzero_number (y : float) : bool :=
  (negb (is_nan y) && negb (y =? 0))%float.

(** ** Lines of a machine file *)

Module Line.
Import PyStr.

(** Only whitespace (or nothing). *)
Definition blank (s : string) : Prop := strip s = "".

(** No whitespace at either end. *)
Definition trimmed (s : string) : Prop := strip s = s.

(** [sep in s] for a separator of one character. *)
Definition contains (sep s : string) : bool :=
  existsb (Ascii.eqb (char sep)) (String.list_ascii_of_string s).

(** A line the loop skips: a comment or a blank line. *)
Definition skipped (line : string) : Prop :=
  line ≠ "" ∧ (String.prefix "#" line = true ∨ blank line).

(** The name a line assigns to: the text before its first [=], stripped;
    a skipped line has none. *)
Definition name (line : string) : option string :=
  if String.prefix "#" line || String.eqb (strip line) "" then None
  else strip <$> head (split "=" (strip line)).
End Line.

(** * Example machines

    A machine at no load ([P = 0]) driven with [Pm = 1], with parameters that
    are exact in binary64; [Yg] is the value [__init__] computes for them. *)

Section Examples.
Local Open Scope float_scope.

Definition params_ex : gmap string float :=
  list_to_map
    [("Ra", 0); ("Xd", 2); ("Xq", 2); ("Xdp", 0.25); ("Xqp", 0.5);
     ("Td0p", 8); ("Tq0p", 0.75); ("H", 0.5)].

Definition signals_ex : gmap string float :=
  list_to_map
    [("Vfd", 1); ("Id", 0); ("Iq", 0); ("Vd", 0); ("Vq", 1); ("Vt", 1);
     ("P", 0); ("Q", 0); ("Pm", 1)].

Definition states_ex : gmap string float :=
  list_to_map [("omega", 1); ("delta", 0); ("Eqp", 1); ("Edp", 0)].

(** The object [__init__] returns for these parameters. *)
Definition machine_new (scheme : string) : sym_order4 :=
  Machine ∅ ∅ ∅ ∅ params_ex scheme (2 * np_pi * 50) (Complex 0 (-3)).

Definition machine_ex (scheme : string) : sym_order4 :=
  Machine signals_ex states_ex ∅ ∅ params_ex scheme (2 * np_pi * 50)
          (Complex 0 (-3)).

(** Finite signals whose difference [Pm - P] overflows. *)
Definition machine_overflow : sym_order4 :=
  with_signals (λ s, <["Pm" := 0x1p+1023]> (<["P" := -0x1p+1023]> s))
               (machine_ex "mod_euler").

(** The example machine after Runge-Kutta stages 0, 0-1 and 0-2 with
    [h = 1]. *)
Definition rk1 : sym_order4 :=
  final (solve_step 1 0 (machine_ex "runge_kutta")).
Definition rk2 : sym_order4 := final (solve_step 1 1 rk1).
Definition rk3 : sym_order4 := final (solve_step 1 2 rk2).

(** The overflowing machine after the predictor with [h = 1]. *)
Definition predicted_overflow : sym_order4 :=
  final (solve_step 1 0 machine_overflow).

(** The example machine after the modified-Euler predictor with [h = 1]. *)
Definition predicted_ex : sym_order4 :=
  final (solve_step 1 0 (machine_ex "mod_euler")).

(** The example machine with another past: other signals, a snapshot and
    stage lists left by earlier steps. *)
Definition machine_history : sym_order4 :=
  with_dsteps (λ _, dsteps rk3)
    (with_states0 (λ _, states0 rk3)
       (with_signals (λ s, <["P" := 0.5]> (<["Id" := 2]> s))
          (machine_ex "mod_euler"))).

(** Stand-ins for the library functions, to run the examples: the numpy
    functions where their value is exact (zero angle, a positive real
    voltage) and NaN elsewhere; no rounding; a two-word [str]. *)
Definition numpy_at_origin : Numpy := {|
  np_sin x := if x =? 0 then 0 else nan;
  np_cos x := if x =? 0 then 1 else nan;
  np_abs z := if imag z =? 0 then PrimFloat.abs (real z) else nan;
  np_angle z := if (imag z =? 0) && (0 <? real z) then 0 else nan;
  np_exp z :=
    if (real z =? 0) && (imag z =? 0) then Complex 1 0 else Complex nan nan;
  np_true_divide a b :=
    if (imag a =? 0) && (imag b =? 0) then Complex (real a / real b) 0
    else Complex nan nan
|}.

Definition builtins_plain : Builtins := {|
  py_round x _ := x;
  py_str x := if x =? 0 then "0.0"%string else "nonzero"%string
|}.

(** A stand-in for the C library: a [pow] that is correctly rounded at the
    exponent [2] and reports the overflow of a finite base; NaN at any other
    exponent. *)
Definition libm_rounded : Libm := {|
  libm_pow x y :=
    if y =? 2 then (x * x, is_finite x && is_infinity (x * x))
    else (nan, false)
|}.

(** A machine under load, with an armature resistance: the stored EMFs
    differ from the terminal voltage [1], so that the dq currents are not
    zero; [Yg] is the value [__init__] computes for the parameters. *)
Definition params_loaded : gmap string float :=
  <["Ra" := 0.5]> (<["Xqp" := 1]> params_ex).

Definition machine_loaded : sym_order4 :=
  Machine signals_ex (<["Eqp" := 2]> (<["Edp" := 0.5]> states_ex)) ∅ ∅
          params_loaded "mod_euler" (2 * np_pi * 50) (Complex 1 (-1.25)).
End Examples.

(** ** An example machine file, and two more machines *)

Section FileExamples.
Local Open Scope float_scope.

Fixpoint digits (l : list Ascii.ascii) (acc : Z) : option Z :=
  match l with
  | [] => Some acc
  | c :: l' =>
      match Ascii.is_nat c with
      | Some d => digits l' (10 * acc + Z.of_nat d)
      | None => None
      end
  end.

Fixpoint pow10 (n : nat) : float :=
  match n with
  | O => 1
  | S n' => 10 * pow10 n'
  end.

(** Stand-ins for [float] and [int] on plain numerals: digits, and for
    [float] at most one point.  With fewer than sixteen digits the digits
    and the power of ten are exact in binary64, so their quotient is the
    nearest float. *)
Definition decimal_float (s : string) : option float :=
  match PyStr.split_chars (PyStr.char ".") (String.list_ascii_of_string s) with
  | [ip] =>
      if bool_decide (0 < length ip < 16)%nat then
        n ← digits ip 0; Some (of_uint63 (Uint63.of_Z n))
      else None
  | [ip; fp] =>
      if bool_decide (0 < length (ip ++ fp) < 16)%nat then
        n ← digits (ip ++ fp) 0;
        Some (of_uint63 (Uint63.of_Z n) / pow10 (length fp))
      else None
  | _ => None
  end.

Definition decimal_int (s : string) : option Z :=
  match String.list_ascii_of_string s with
  | [] => None
  | l => digits l 0
  end.

Definition conversions_decimal : Conversions := {|
  py_float := decimal_float;
  py_int := decimal_int
|}.

(** The lines of a machine file for [params_ex], with a header, comments,
    a blank line and uneven spacing. *)
Definition file_ex : list string :=
  map (λ s, s +:+ String PyStr.newline "")
    ["# 4th order machine"; "ID = GEN1"; "GEN_NO=0"; "";
     "Ra = 0"; "Xd = 2.0"; "Xq    = 2"; " Xdp=0.25 "; "Xqp = 0.5";
     "Td0p = 8.0"; "Tq0p = 0.75"; "H = 0.5"].

Definition loaded_ex : loaded := Loaded params_ex (Some "GEN1") (Some 0%Z).

(** A file system with that file. *)
Definition fs_ex : gmap string string :=
  {[ "gen1.mach" := String.concat "" file_ex ]}.

(** The example machine without inertia. *)
Definition machine_massless : sym_order4 :=
  Machine signals_ex states_ex ∅ ∅ (<["H" := 0]> params_ex) "mod_euler"
          (2 * np_pi * 50) (Complex 0 (-3)).

(** The same without the signal [Pm]. *)
Definition machine_massless_no_Pm : sym_order4 :=
  with_signals (delete "Pm") machine_massless.

(** A new machine with [Xq = 0], on which the stand-ins for the numpy
    functions are exact when [initialise] is given real arguments. *)
Definition machine_xq0 : sym_order4 :=
  Machine ∅ ∅ ∅ ∅ (<["Xq" := 0]> params_ex) "mod_euler" (2 * np_pi * 50)
          (Complex 0 (-3)).

(** A new machine whose file does not define [Td0p]. *)
Definition machine_no_Td0p : sym_order4 :=
  Machine ∅ ∅ ∅ ∅ (delete "Td0p" params_ex) "mod_euler" (2 * np_pi * 50)
          (Complex 0 (-3)).

(** The example machine in balance: the mechanical power is the electrical
    power, at synchronous speed. *)
Definition machine_rest (scheme : string) : sym_order4 :=
  with_signals <["Pm" := 0]> (machine_ex scheme).
End FileExamples.

(** * Reasoning about methods *)

Lemma run_eta {A : Type} (r : run A) :
  Run (result r) (final r) (printed r) = r.
Proof. by destruct r. Qed.

Lemma bind_silent {A B : Type} (c : M A) (k : A → M B) m o m' :
  c m = Run o m' [] →
  (c ≫= k) m = match o with
               | Ok a => k a m'
               | Raise e => Run (Raise e) m' []
               end.
Proof.
  intros E. unfold mbind, M_bind. rewrite E. cbn.
  destruct o; [apply run_eta | done].
Qed.

Lemma bind_assoc {A B C : Type} (c : M A) (f : A → M B) (k : B → M C) m :
  ((c ≫= f) ≫= k) m = (c ≫= (λ a, f a ≫= k)) m.
Proof.
  unfold mbind, M_bind. destruct (c m) as [[a|e] m1 p1]; cbn; [|done].
  destruct (f a m1) as [[b|e] m2 p2]; cbn; [|done].
  by rewrite app_assoc.
Qed.

Lemma bind_ret {A B : Type} (a : A) (k : A → M B) m :
  (mret a ≫= k) m = k a m.
Proof. by rewrite (bind_silent _ _ _ (Ok a) m). Qed.

Lemma bind_lift {A B : Type} (o : outcome A) (k : A → M B) m :
  (lift o ≫= k) m = match o with
                    | Ok a => k a m
                    | Raise e => Run (Raise e) m []
                    end.
Proof. by rewrite (bind_silent _ _ _ o m). Qed.

Section ReadWrite.
Context {B : Type} (k : float → M B) (u : unit → M B) (m : sym_order4).

Lemma bind_get_state key :
  (get_state key ≫= k) m =
  match states m !! key with
  | Some v => k v m
  | None => Run (Raise (KeyError key)) m []
  end.
Proof.
  rewrite (bind_silent _ _ _ (getitem (states m) key) m) by done.
  unfold getitem. by destruct (states m !! key).
Qed.

Lemma bind_get_state0 key :
  (get_state0 key ≫= k) m =
  match states0 m !! key with
  | Some v => k v m
  | None => Run (Raise (KeyError key)) m []
  end.
Proof.
  rewrite (bind_silent _ _ _ (getitem (states0 m) key) m) by done.
  unfold getitem. by destruct (states0 m !! key).
Qed.

Lemma bind_get_signal key :
  (get_signal key ≫= k) m =
  match signals m !! key with
  | Some v => k v m
  | None => Run (Raise (KeyError key)) m []
  end.
Proof.
  rewrite (bind_silent _ _ _ (getitem (signals m) key) m) by done.
  unfold getitem. by destruct (signals m !! key).
Qed.

Lemma bind_get_param key :
  (get_param key ≫= k) m =
  match params m !! key with
  | Some v => k v m
  | None => Run (Raise (KeyError key)) m []
  end.
Proof.
  rewrite (bind_silent _ _ _ (getitem (params m) key) m) by done.
  unfold getitem. by destruct (params m !! key).
Qed.

Lemma bind_get_dstep key i :
  (get_dstep key i ≫= k) m =
  match dsteps m !! key with
  | Some l =>
      match l !! i with
      | Some v => k v m
      | None => Run (Raise IndexError) m []
      end
  | None => Run (Raise (KeyError key)) m []
  end.
Proof.
  unfold get_dstep. erewrite bind_silent by done.
  unfold getitem, list_getitem.
  destruct (dsteps m !! key) as [l|]; [|done]. by destruct (l !! i).
Qed.

Lemma bind_get_omega_n : (get_omega_n ≫= k) m = k (omega_n m) m.
Proof. by rewrite (bind_silent _ _ _ (Ok (omega_n m)) m). Qed.

Lemma bind_set_state key v :
  (set_state key v ≫= u) m = u () (with_states <[key := v]> m).
Proof. by erewrite bind_silent by done. Qed.

Lemma bind_set_state0 key v :
  (set_state0 key v ≫= u) m = u () (with_states0 <[key := v]> m).
Proof. by erewrite bind_silent by done. Qed.

Lemma bind_set_signal key v :
  (set_signal key v ≫= u) m = u () (with_signals <[key := v]> m).
Proof. by erewrite bind_silent by done. Qed.

Lemma bind_set_dstep key l :
  (set_dstep key l ≫= u) m = u () (with_dsteps <[key := l]> m).
Proof. by erewrite bind_silent by done. Qed.

Lemma bind_append_dstep key v :
  (append_dstep key v ≫= u) m =
  match dsteps m !! key with
  | Some l => u () (with_dsteps <[key := l ++ [v]]> m)
  | None => Run (Raise (KeyError key)) m []
  end.
Proof.
  destruct (dsteps m !! key) as [l|] eqn:E.
  - rewrite (bind_silent _ _ _ (Ok ()) (with_dsteps <[key := l ++ [v]]> m));
      [done|]. unfold append_dstep. by rewrite E.
  - rewrite (bind_silent _ _ _ (Raise (KeyError key)) m); [done|].
    unfold append_dstep. by rewrite E.
Qed.

Lemma end_append_dstep key v :
  append_dstep key v m =
  match dsteps m !! key with
  | Some l => Run (Ok ()) (with_dsteps <[key := l ++ [v]]> m) []
  | None => Run (Raise (KeyError key)) m []
  end.
Proof. done. Qed.
End ReadWrite.

Lemma bind_get_opt {B : Type} (k : string → M B) m :
  (get_opt ≫= k) m = k (opt m) m.
Proof. by rewrite (bind_silent _ _ _ (Ok (opt m)) m). Qed.

Lemma bind_get_Yg {B : Type} (k : complex → M B) m :
  (get_Yg ≫= k) m = k (Yg m) m.
Proof. by rewrite (bind_silent _ _ _ (Ok (Yg m)) m). Qed.

Lemma bind_print {B : Type} (line : string) (u : unit → M B) m :
  (print line ≫= u) m =
  Run (result (u () m)) (final (u () m)) (line :: printed (u () m)).
Proof. done. Qed.

Lemma has_keys_lookup {A : Type} `{Inhabited A} keys (d : gmap string A) k :
  has_keys keys d → k ∈ keys → d !! k = Some (d !!! k).
Proof.
  intros Hk Hin. unfold has_keys in Hk. rewrite Forall_forall in Hk.
  destruct (Hk k Hin) as [v Hv]. rewrite Hv. f_equal. symmetry.
  by apply lookup_total_correct.
Qed.

Lemma truediv_ok m :
  inertia_ok m →
  PyFloat.truediv 1 (2 * params m !!! "H")
  = Ok (1 / (2 * params m !!! "H"))%float.
Proof. unfold inertia_ok, PyFloat.truediv. by intros ->. Qed.

Section Squares.
Context `{Libm}.

Lemma pow2_ok (x : float) :
  square_ok x → PyFloat.pow2 x = Ok (PyFloat.square x).
Proof.
  unfold square_ok, PyFloat.pow2, PyFloat.square.
  destruct (PyFloat.float_pow2 x) as [ix erange]. cbn. by intros ->.
Qed.

Lemma pow2_raises (x : float) :
  ¬ square_ok x → PyFloat.pow2 x = Raise OverflowError.
Proof.
  unfold square_ok, PyFloat.pow2.
  destruct (PyFloat.float_pow2 x) as [ix []]; cbn; [done|]. by intros [].
Qed.

Lemma square_ok_dec (x : float) : square_ok x ∨ ¬ square_ok x.
Proof.
  unfold square_ok. destruct (PyFloat.float_pow2 x).2; [right|left]; done.
Qed.
End Squares.

(** ** Symbolic execution of a method *)

(** Projections of an updated machine. *)
Ltac fields :=
  cbn [signals states states0 dsteps params opt omega_n Yg
       with_signals with_states with_states0 with_dsteps
       result final printed].

Ltac key_in :=
  unfold state_keys, signal_keys, param_keys;
  repeat first [ apply list_elem_of_here | apply list_elem_of_further ].

(** Decide the lookup the method is waiting for: through the updates made so
    far, by a known fact, or by cases. *)
Ltac settle_lookup :=
  match goal with
  | |- context [ match (?x :: ?l) !! ?i with _ => _ end ] =>
      let r := eval cbn in ((x :: l) !! i) in
      change ((x :: l) !! i) with r; cbn iota beta
  | |- context [ match ?d !! ?k with _ => _ end ] =>
      first
        [ rewrite (lookup_insert_eq _ k)
        | rewrite lookup_insert_ne by done
        | match goal with H : d !! k = _ |- _ => rewrite H end
        | match goal with
          | H : has_keys ?ks d |- _ =>
              rewrite (has_keys_lookup ks d k H) by key_in
          end
        | destruct (d !! k) eqn:? ]
  end.

(** Run the statement at the head of the method. *)
Ltac step :=
  first
    [ rewrite bind_get_state | rewrite bind_get_state0
    | rewrite bind_get_signal | rewrite bind_get_param
    | rewrite bind_get_dstep | rewrite bind_get_omega_n
    | rewrite bind_get_opt | rewrite bind_get_Yg
    | rewrite bind_set_state | rewrite bind_set_state0
    | rewrite bind_set_signal | rewrite bind_set_dstep
    | rewrite bind_append_dstep | rewrite end_append_dstep
    | rewrite bind_lift | rewrite bind_ret | rewrite bind_assoc ];
  fields; repeat settle_lookup; fields.

(** Use what is known about the scheme, the inertia and the resistance. *)
Ltac known :=
  match goal with
  | H : opt ?m = _ |- context [ String.eqb (opt ?m) ] => rewrite H
  | H : inertia_ok ?m |- context [ PyFloat.truediv _ (_ * params ?m !!! _) ] =>
      rewrite (truediv_ok m H)
  | H : square_ok ?x |- context [ PyFloat.pow2 ?x ] => rewrite (pow2_ok x H)
  | H : ?b = _ |- context [ if ?b then _ else _ ] => rewrite H
  end.

(** Take a test: by evaluation when it is closed, by cases otherwise. *)
Ltac branch :=
  match goal with
  | |- context [ match ?o with Ok _ => _ | Raise _ => _ end ] =>
      destruct o eqn:?
  | |- context [ if ?b then _ else _ ] =>
      let b' := eval vm_compute in b in
      lazymatch b' with
      | true => change b with true; cbn iota
      | false => change b with false; cbn iota
      | _ => destruct b eqn:?
      end
  end.

Ltac run_method := repeat first [ step | known | branch ].

Ltac read_back :=
  repeat first [ rewrite lookup_insert_eq | rewrite lookup_insert_ne by done ].

(** * The step integrator *)

Ltac use_ready H :=
  let Hopt := fresh "Hopt" in
  let Hst := fresh "Hst" in
  let Hsg := fresh "Hsg" in
  let Hpr := fresh "Hpr" in
  let HH := fresh "HH" in
  destruct H as (Hopt & (Hst & Hsg & Hpr) & HH).

(** Facts about each variable, instantiated at the four of them. *)
Ltac each_var H :=
  pose proof (H Eqp); pose proof (H Edp); pose proof (H omega);
  pose proof (H delta); cbn [key] in *.

Section IntegratorFacts.
Local Open Scope float_scope.

(** [solve_step] writes the states and its scratch only. *)
Lemma solve_step_keeps (h : float) (dstep : Z) (m : sym_order4) :
  integrator_frame m (final (solve_step h dstep m)) ∧
  printed (solve_step h dstep m) = [].
Proof. unfold solve_step. run_method. all: done. Qed.

(** Runge-Kutta stage 0: snapshot, half step, fresh lists. *)
Lemma rk_stage0_run (h : float) (m : sym_order4) :
  ready "runge_kutta" m →
  ∃ m', solve_step h 0 m = Run (Ok ()) m' [] ∧
    (∀ v, states0 m' !! key v = Some (states m !!! key v)) ∧
    (∀ v, states m' !! key v
          = Some (states m !!! key v + 0.5 * increment v h m)) ∧
    (∀ v, dsteps m' !! key v = Some [increment v h m]).
Proof.
  intros Hr. use_ready Hr. unfold solve_step. run_method.
  eexists. split; [reflexivity|]. fields.
  split_and!; intros []; cbn [key]; read_back; reflexivity.
Qed.

(** Runge-Kutta stages 1 and 2: each state advances from the value it has
    when the stage is called; the increment is appended. *)
Lemma rk_stage12_run (h : float) (dstep : Z) (m : sym_order4)
    (l : var → list float) :
  ready "runge_kutta" m →
  dstep = 1%Z ∨ dstep = 2%Z →
  (∀ v, dsteps m !! key v = Some (l v)) →
  ∃ m', solve_step h dstep m = Run (Ok ()) m' [] ∧
    (∀ v, states m' !! key v
          = Some (states m !!! key v
                  + (if (dstep =? 1)%Z then 0.5 * increment v h m
                     else increment v h m))) ∧
    (∀ v, dsteps m' !! key v = Some (l v ++ [increment v h m])) ∧
    states0 m' = states0 m.
Proof.
  intros Hr Hd Hl. use_ready Hr. each_var Hl.
  unfold solve_step. destruct Hd as [-> | ->]; run_method.
  all: eexists; (split; [reflexivity|]); fields.
  all: split_and!; [intros []..|done]; cbn [key]; read_back; reflexivity.
Qed.

(** Runge-Kutta stage 3: the weighted sum from the snapshot; the lists and
    the snapshot are only read. *)
Lemma rk_stage3_run (h : float) (m : sym_order4)
    (y0 k1 k2 k3 : var → float) (more : var → list float) :
  ready "runge_kutta" m →
  (∀ v, states0 m !! key v = Some (y0 v)) →
  (∀ v, dsteps m !! key v = Some (k1 v :: k2 v :: k3 v :: more v)) →
  ∃ m', solve_step h 3 m = Run (Ok ()) m' [] ∧
    (∀ v, states m' !! key v
          = Some (y0 v + 1 / 6
                         * (k1 v + 2 * k2 v + 2 * k3 v + increment v h m))) ∧
    dsteps m' = dsteps m ∧ states0 m' = states0 m.
Proof.
  intros Hr Hy Hl. use_ready Hr. each_var Hy. each_var Hl.
  unfold solve_step. run_method.
  eexists. split; [reflexivity|]. fields.
  split_and!; [intros []|done..]; cbn [key]; read_back; reflexivity.
Qed.

(** Stage 3 never assigns to the lists or to the snapshot, whether it
    completes or raises. *)
Lemma rk_stage3_scratch (h : float) (m : sym_order4) :
  opt m = "runge_kutta" →
  dsteps (final (solve_step h 3 m)) = dsteps m ∧
  states0 (final (solve_step h 3 m)) = states0 m.
Proof. intros Hopt. unfold solve_step. run_method. all: done. Qed.

(** Modified Euler, predictor. *)
Lemma euler_predictor_run (h : float) (m : sym_order4) :
  ready "mod_euler" m →
  ∃ m', solve_step h 0 m = Run (Ok ()) m' [] ∧
    (∀ v, states m' !! key v = Some (states m !!! key v + increment v h m)) ∧
    (∀ v, dsteps m' !! key v = Some [increment v h m]).
Proof.
  intros Hr. use_ready Hr. unfold solve_step. run_method.
  eexists. split; [reflexivity|]. fields.
  split_and!; intros []; cbn [key]; read_back; reflexivity.
Qed.

(** Modified Euler, corrector: any stage index but 0. *)
Lemma euler_corrector_run (h : float) (dstep : Z) (m : sym_order4)
    (k0 : var → float) (more : var → list float) :
  ready "mod_euler" m →
  dstep ≠ 0%Z →
  (∀ v, dsteps m !! key v = Some (k0 v :: more v)) →
  ∃ m', solve_step h dstep m = Run (Ok ()) m' [] ∧
    (∀ v, states m' !! key v
          = Some (states m !!! key v + 0.5 * (increment v h m - k0 v))) ∧
    dsteps m' = dsteps m.
Proof.
  intros Hr Hd Hl. use_ready Hr. each_var Hl.
  apply Z.eqb_neq in Hd.
  unfold solve_step. run_method.
  eexists. split; [reflexivity|]. fields.
  split_and!; [intros []|done]; cbn [key]; read_back; reflexivity.
Qed.
End IntegratorFacts.

(** ** Evaluating the hypotheses on a concrete machine *)

Lemma has_keysb_true {A : Type} keys (d : gmap string A) :
  has_keysb keys d = true → has_keys keys d.
Proof.
  unfold has_keysb, has_keys. rewrite forallb_forall, Forall_forall.
  intros Hb k Hk.
  apply (bool_decide_eq_true_1 (is_Some (d !! k))), Hb.
  by apply list_elem_of_In.
Qed.

Ltac evaluate := vm_compute; repeat split; reflexivity.

Ltac evaluate_ready :=
  unfold ready, initialised;
  split_and!; first [ apply has_keysb_true; evaluate | evaluate ].

(** * Binary64 facts used by the corrector *)

Section Binary64.
Local Open Scope float_scope.

(** The difference of two equal numbers that are not infinite is a zero. *)
Lemma SFsub_equal_is_zero (K K0 : spec_float) :
  SFeqb K K0 = true →
  (∀ s, K0 ≠ S754_infinity s) →
  ∃ s, SF64sub K K0 = S754_zero s.
Proof.
  unfold SFeqb, SF64sub. intros E Hfin.
  destruct K as [s1|s1| |s1 m1 e1], K0 as [s2|s2| |s2 m2 e2];
    cbn in E; try done.
  all: try (by destruct (Hfin s2)).
  all: try (destruct s1, s2; first [by exists false | by exists true]).
  assert (s1 = s2 ∧ e1 = e2 ∧ m1 = m2) as (-> & -> & ->).
  { destruct s1, s2; try done; destruct (Z.compare_spec e1 e2); try done;
      (repeat split; [done|]); apply Pos.compare_eq; unfold Pos.compare;
      by destruct (Pos.compare_cont Eq m1 m2). }
  exists false. unfold SFsub. rewrite Z.min_id.
  unfold shl_align. by rewrite !Z.sub_diag.
Qed.

Lemma finite_not_infinity (x : float) (s : bool) :
  is_finite x = true → Prim2SF x ≠ S754_infinity s.
Proof.
  unfold is_finite, is_infinity. intros Hf E.
  rewrite FloatAxioms.eqb_spec, abs_spec, E in Hf. cbn in Hf.
  by rewrite orb_true_r in Hf.
Qed.

(** Adding half the difference of two equal finite numbers changes nothing
    but, possibly, the sign of a zero. *)
Lemma add_half_difference_of_equals (x k k0 : float) :
  (k =? k0) = true → is_finite k0 = true →
  same_number (x + 0.5 * (k - k0)) x.
Proof.
  intros E Hf. rewrite FloatAxioms.eqb_spec in E.
  destruct (SFsub_equal_is_zero _ _ E) as [s Hs].
  { intros s. by apply finite_not_infinity. }
  assert (Hm : Prim2SF (0.5 * (k - k0)) = S754_zero s).
  { rewrite mul_spec, sub_spec, Hs. by destruct s. }
  assert (Ha : Prim2SF (x + 0.5 * (k - k0))
               = SF64add (Prim2SF x) (S754_zero s)).
  { by rewrite add_spec, Hm. }
  unfold same_number. rewrite FloatAxioms.eqb_spec, Ha.
  destruct (Prim2SF x) as [sx|sx| |sx mx ex] eqn:Ex.
  - right. by destruct sx, s.
  - left. apply Prim2SF_inj. by rewrite Ha, Ex.
  - left. apply Prim2SF_inj. by rewrite Ha, Ex.
  - left. apply Prim2SF_inj. by rewrite Ha, Ex.
Qed.
End Binary64.

(** * More binary64 facts *)

Section Binary64Zeros.
Local Open Scope float_scope.

Lemma SFeqb_finite_refl (s : bool) (m : positive) (e : Z) :
  SFeqb (S754_finite s m e) (S754_finite s m e) = true.
Proof.
  unfold SFeqb, SFcompare. rewrite Z.compare_refl, Pos.compare_cont_refl.
  by destruct s.
Qed.

Lemma is_finite_SF (x : float) :
  is_finite x = match Prim2SF x with
                | S754_zero _ | S754_finite _ _ _ => true
                | _ => false
                end.
Proof.
  unfold is_finite, is_nan, is_infinity.
  rewrite !FloatAxioms.eqb_spec, abs_spec.
  change (Prim2SF infinity) with (S754_infinity false).
  destruct (Prim2SF x) as [[]|[]| |sx mx ex]; try reflexivity.
  rewrite SFeqb_finite_refl. by destruct sx.
Qed.

Lemma sub_self_zero (x : float) : is_finite x = true → is_zero (x - x).
Proof.
  intros Hf. unfold is_zero. rewrite sub_spec.
  apply SFsub_equal_is_zero.
  - rewrite is_finite_SF in Hf.
    destruct (Prim2SF x) as [[]|[]| |sx mx ex]; try done.
    apply SFeqb_finite_refl.
  - intros s. by apply finite_not_infinity.
Qed.

Lemma mul_zero_r (a z : float) :
  is_finite a = true → is_zero z → is_zero (a * z).
Proof.
  intros Hf [s Hz]. unfold is_zero. rewrite mul_spec, Hz.
  rewrite is_finite_SF in Hf.
  destruct (Prim2SF a) as [sa|sa| |sa ma ea]; try done; by eexists.
Qed.

Lemma add_zero_same (x z : float) : is_zero z → same_number (x + z) x.
Proof.
  intros [s Hz].
  assert (Ha : Prim2SF (x + z) = SF64add (Prim2SF x) (S754_zero s)).
  { by rewrite add_spec, Hz. }
  unfold same_number. rewrite FloatAxioms.eqb_spec, Ha.
  destruct (Prim2SF x) as [sx|sx| |sx mx ex] eqn:Ex.
  - right. by destruct sx, s.
  - left. apply Prim2SF_inj. by rewrite Ha, Ex.
  - left. apply Prim2SF_inj. by rewrite Ha, Ex.
  - left. apply Prim2SF_inj. by rewrite Ha, Ex.
Qed.

Lemma add_zero_exact (x z : float) :
  is_zero z → (x =? 0) = false → x + z = x.
Proof.
  intros [s Hz] Hx.
  assert (Ha : Prim2SF (x + z) = SF64add (Prim2SF x) (S754_zero s)).
  { by rewrite add_spec, Hz. }
  rewrite FloatAxioms.eqb_spec in Hx.
  change (Prim2SF 0) with (S754_zero false) in Hx.
  apply Prim2SF_inj. rewrite Ha.
  by destruct (Prim2SF x) as [[]|sx| |sx mx ex] eqn:Ex.
Qed.

(** [(x - x) / y == 0] holds exactly when [x] is finite and [y] is a number
    other than zero. *)
Lemma self_residual (x y : float) :
  ((x - x) / y =? 0) = is_finite x && nonzero_number y.
Proof.
  rewrite is_finite_SF. unfold nonzero_number, is_nan.
  rewrite !FloatAxioms.eqb_spec, div_spec, sub_spec.
  change (Prim2SF 0) with (S754_zero false).
  assert (Hdiv : ∀ s,
    SFeqb (SF64div (S754_zero s) (Prim2SF y)) (S754_zero false)
    = negb (negb (SFeqb (Prim2SF y) (Prim2SF y)))
      && negb (SFeqb (Prim2SF y) (S754_zero false))).
  { intros s. destruct (Prim2SF y) as [sy|sy| |sy my ey].
    - by destruct s, sy.
    - by destruct s, sy.
    - done.
    - rewrite SFeqb_finite_refl. by destruct s, sy. }
  destruct (Prim2SF x) as [sx|sx| |sx mx ex] eqn:Ex.
  - destruct sx; apply Hdiv.
  - by destruct sx.
  - done.
  - destruct (SFsub_equal_is_zero (Prim2SF x) (Prim2SF x)) as [s Hs].
    + rewrite Ex. apply SFeqb_finite_refl.
    + by rewrite Ex.
    + rewrite Ex in Hs. rewrite Hs. apply Hdiv.
Qed.

(** A complex quotient by a real fails exactly on a zero divisor. *)
Lemma c_quot_real_raises (a : complex) (d : float) :
  (d =? 0) = true →
  PyComplex.c_quot a (PyComplex.of_float d) = Raise ZeroDivisionError.
Proof.
  intros Hd. unfold PyComplex.c_quot, PyComplex.of_float. cbn [real imag].
  change (0 <? 0) with false. cbn iota.
  assert (Hlt : (d <? 0) = false).
  { rewrite FloatAxioms.eqb_spec in Hd. rewrite ltb_spec.
    change (Prim2SF 0) with (S754_zero false) in *.
    by destruct (Prim2SF d) as [[]|[]| |[] md ed]. }
  assert (Hle : (0 <=? d) = true).
  { rewrite FloatAxioms.eqb_spec in Hd. rewrite leb_spec.
    change (Prim2SF 0) with (S754_zero false) in *.
    by destruct (Prim2SF d) as [[]|[]| |[] md ed]. }
  by rewrite Hlt, Hle, Hd.
Qed.

Lemma c_quot_real_returns (a : complex) (d : float) :
  (d =? 0) = false → ∃ z, PyComplex.c_quot a (PyComplex.of_float d) = Ok z.
Proof.
  intros Hd. unfold PyComplex.c_quot, PyComplex.of_float. cbn [real imag].
  change (0 <? 0) with false. cbn iota.
  destruct (0 <=? (if d <? 0 then - d else d)) eqn:E1.
  - destruct ((if d <? 0 then - d else d) =? 0) eqn:E2; [|by eexists].
    exfalso. rewrite FloatAxioms.eqb_spec in Hd, E2.
    change (Prim2SF 0) with (S754_zero false) in *.
    destruct (d <? 0); [rewrite opp_spec in E2|congruence].
    by destruct (Prim2SF d) as [[]|[]| |[] md ed].
  - destruct ((if d <? 0 then - d else d) <=? 0); by eexists.
Qed.
End Binary64Zeros.

(** * Quotients by a real, and squares *)

Section Binary64Quotients.
Local Open Scope float_scope.
Import PyComplex.

Lemma alike_refl (x : float) : alike x x.
Proof. by left. Qed.

Lemma alike_trans (x y z : float) : alike x y → alike y z → alike x z.
Proof.
  intros [-> | [Hx Hy]] [-> | [Hy' Hz]]; unfold alike; auto.
Qed.

Lemma is_zero_finite (x : float) : is_zero x → is_finite x = true.
Proof. intros [s Hx]. by rewrite is_finite_SF, Hx. Qed.

Lemma alike_finite (x y : float) :
  alike x y → is_finite y = true → is_finite x = true.
Proof. intros [-> | [Hx _]] Hy; [done|]. by apply is_zero_finite. Qed.

(** A zero added to or taken from a number. *)
Lemma add_zero_alike (x z : float) : is_zero z → alike (x + z) x.
Proof.
  intros [s Hz].
  assert (Ha : Prim2SF (x + z) = SF64add (Prim2SF x) (S754_zero s)).
  { by rewrite add_spec, Hz. }
  destruct (Prim2SF x) as [sx|sx| |sx mx ex] eqn:Ex.
  - right. split; [|by eexists]. unfold is_zero. rewrite Ha.
    destruct sx, s; by eexists.
  - left. apply Prim2SF_inj. by rewrite Ha, Ex.
  - left. apply Prim2SF_inj. by rewrite Ha, Ex.
  - left. apply Prim2SF_inj. by rewrite Ha, Ex.
Qed.

Lemma sub_zero_alike (x z : float) : is_zero z → alike (x - z) x.
Proof.
  intros [s Hz].
  assert (Ha : Prim2SF (x - z) = SF64sub (Prim2SF x) (S754_zero s)).
  { by rewrite sub_spec, Hz. }
  destruct (Prim2SF x) as [sx|sx| |sx mx ex] eqn:Ex.
  - right. split; [|by eexists]. unfold is_zero. rewrite Ha.
    destruct sx, s; by eexists.
  - left. apply Prim2SF_inj. by rewrite Ha, Ex.
  - left. apply Prim2SF_inj. by rewrite Ha, Ex.
  - left. apply Prim2SF_inj. by rewrite Ha, Ex.
Qed.

Lemma zero_sub_alike (x : float) : alike (0 - x) (- x).
Proof.
  assert (Ha : Prim2SF (0 - x) = SF64sub (S754_zero false) (Prim2SF x)).
  { by rewrite sub_spec. }
  assert (Hb : Prim2SF (- x) = SFopp (Prim2SF x)) by apply opp_spec.
  destruct (Prim2SF x) as [sx|sx| |sx mx ex] eqn:Ex.
  - right. unfold is_zero. rewrite Ha, Hb. destruct sx; split; by eexists.
  - left. apply Prim2SF_inj. rewrite Ha, Hb. by destruct sx.
  - left. apply Prim2SF_inj. by rewrite Ha, Hb.
  - left. apply Prim2SF_inj. rewrite Ha, Hb. by destruct sx.
Qed.

Lemma zero_add_alike (x : float) : alike (0 + x) x.
Proof.
  assert (Ha : Prim2SF (0 + x) = SF64add (S754_zero false) (Prim2SF x)).
  { by rewrite add_spec. }
  destruct (Prim2SF x) as [sx|sx| |sx mx ex] eqn:Ex.
  - right. unfold is_zero. rewrite Ha. destruct sx; split; by eexists.
  - left. apply Prim2SF_inj. by rewrite Ha, Ex.
  - left. apply Prim2SF_inj. by rewrite Ha, Ex.
  - left. apply Prim2SF_inj. by rewrite Ha, Ex.
Qed.

Lemma opp_zero (x : float) : is_zero x → is_zero (- x).
Proof. intros [s Hx]. unfold is_zero. rewrite opp_spec, Hx. by eexists. Qed.

Lemma opp_alike (x y : float) : alike x y → alike (- x) (- y).
Proof. intros [-> | [Hx Hy]]; [by left|right]. split; by apply opp_zero. Qed.

Lemma opp_finite (x : float) : is_finite x = true → is_finite (- x) = true.
Proof. rewrite !is_finite_SF, opp_spec. by destruct (Prim2SF x). Qed.

Lemma zero_sub_zero (x : float) : is_zero x → is_zero (x - 0).
Proof.
  intros [s Hx]. unfold is_zero. rewrite sub_spec, Hx.
  destruct s; by eexists.
Qed.

Lemma zero_mul (x : float) : is_finite x = true → is_zero (0 * x).
Proof.
  intros Hf. unfold is_zero. rewrite mul_spec.
  rewrite is_finite_SF in Hf.
  destruct (Prim2SF x) as [sx|sx| |sx mx ex]; try done; by eexists.
Qed.

Lemma half_finite (x : float) :
  is_finite (0.5 * x) = true → is_finite x = true.
Proof.
  rewrite !is_finite_SF, mul_spec.
  by destruct (Prim2SF x) as [sx|sx| |sx mx ex].
Qed.

(** A quotient of a zero is a zero, or a NaN when the divisor is one. *)
Lemma zero_div (x d : float) :
  is_zero x → (d =? 0) = false →
  is_zero (x / d) ∨ Prim2SF (x / d) = S754_nan.
Proof.
  intros [s Hx] Hd. unfold is_zero. rewrite div_spec, Hx.
  rewrite FloatAxioms.eqb_spec in Hd.
  change (Prim2SF 0) with (S754_zero false) in Hd.
  destruct (Prim2SF d) as [sd|sd| |sd md ed]; try done.
  - left. by eexists.
  - by right.
  - left. by eexists.
Qed.

Lemma alike_div (x y d : float) :
  alike x y → (d =? 0) = false → alike (x / d) (y / d).
Proof.
  intros [-> | [Hx Hy]] Hd; [by left|].
  assert (Hn : is_zero (x / d) ∧ is_zero (y / d)
               ∨ Prim2SF (x / d) = S754_nan ∧ Prim2SF (y / d) = S754_nan).
  { destruct Hx as [sx Hx], Hy as [sy Hy]. unfold is_zero.
    rewrite !div_spec, Hx, Hy. rewrite FloatAxioms.eqb_spec in Hd.
    change (Prim2SF 0) with (S754_zero false) in Hd.
    destruct (Prim2SF d) as [sd|sd| |sd md ed]; try done.
    - left. split; by eexists.
    - by right.
    - left. split; by eexists. }
  destruct Hn as [Hz | [Hnx Hny]]; [by right|].
  left. apply Prim2SF_inj. by rewrite Hnx, Hny.
Qed.

(** The numerator [Ra - 1j * 0.5 * s] of [Yg]. *)
Lemma norton_numerator (Ra s : float) :
  is_finite Ra = true → is_finite (0.5 * s) = true →
  let a := c_diff (of_float Ra)
                  (c_prod (c_prod j (of_float 0.5)) (of_float s)) in
  is_finite (real a) = true ∧ is_finite (imag a) = true ∧
  alike (real a) Ra ∧ alike (imag a) (- (0.5 * s)).
Proof.
  intros HRa Hs. cbv zeta.
  change (c_prod j (of_float 0.5)) with (Complex 0 0.5).
  unfold c_diff, c_prod, of_float. cbn [real imag].
  change (0.5 * 0) with 0. change (0 * 0) with 0.
  assert (Hre : alike (Ra - (0 * s - 0)) Ra).
  { apply sub_zero_alike, zero_sub_zero, zero_mul. by apply half_finite. }
  assert (Him : alike (0 - (0 + 0.5 * s)) (- (0.5 * s))).
  { eapply alike_trans; [apply zero_sub_alike|].
    apply opp_alike, zero_add_alike. }
  split_and!; [|  |done|done].
  - by eapply alike_finite.
  - eapply alike_finite; [done|]. by apply opp_finite.
Qed.

(** The sign tests of [c_quot] on a real divisor. *)
Lemma c_quot_real_tests (d : float) :
  (d =? 0) = false →
  let ad := if d <? 0 then - d else d in
  (d = nan ∧ (0 <=? ad) = false ∧ (ad <=? 0) = false)
  ∨ ((0 <=? ad) = true ∧ (ad =? 0) = false).
Proof.
  intros Hd. cbv zeta.
  rewrite FloatAxioms.eqb_spec in Hd.
  change (Prim2SF 0) with (S754_zero false) in Hd.
  destruct (Prim2SF d) as [sd|sd| |sd md ed] eqn:Ed.
  - by destruct sd.
  - right. rewrite ltb_spec, Ed.
    change (Prim2SF 0) with (S754_zero false).
    destruct sd; cbn; rewrite leb_spec, FloatAxioms.eqb_spec, ?opp_spec, Ed;
      done.
  - left. assert (d = nan) as -> by (by apply Prim2SF_inj; rewrite Ed).
    done.
  - right. rewrite ltb_spec, Ed.
    change (Prim2SF 0) with (S754_zero false).
    destruct sd; cbn; rewrite leb_spec, FloatAxioms.eqb_spec, ?opp_spec, Ed;
      done.
Qed.

(** A complex quotient by a real other than zero: each part is the quotient
    of the part, up to the sign of a zero. *)
Lemma c_quot_real_value (a : complex) (d : float) :
  (d =? 0) = false →
  ∃ z, c_quot a (of_float d) = Ok z ∧
       (is_finite (real a) = true → is_finite (imag a) = true →
        alike (real z) (real a / d) ∧ alike (imag z) (imag a / d)).
Proof.
  intros Hd. unfold c_quot, of_float. cbn [real imag].
  change (0 <? 0) with false. cbn iota.
  destruct (c_quot_real_tests d Hd) as [(-> & E1 & E2) | [E1 E2]].
  - cbv zeta in E1, E2. rewrite E1, E2. eexists. split; [done|].
    intros _ _. cbn [real imag]. split; left; apply Prim2SF_inj;
      rewrite div_spec; change (Prim2SF nan) with S754_nan;
      by destruct (Prim2SF _).
  - cbv zeta in E1, E2. rewrite E1, E2. eexists. split; [done|].
    intros Hre Him. cbn [real imag].
    assert (Hr : is_zero (0 / d)).
    { destruct (zero_div 0 d) as [Hz | Hn]; [by exists false|done|done|].
      exfalso. rewrite div_spec in Hn.
      rewrite FloatAxioms.eqb_spec in Hd.
      change (Prim2SF 0) with (S754_zero false) in *.
      destruct (Prim2SF d) as [sd|sd| |sd md ed] eqn:Ed; try done.
      rewrite leb_spec in E1. destruct (d <? 0) eqn:El.
      - rewrite ltb_spec, Ed in El. done.
      - rewrite Ed in E1. done. }
    rewrite (add_zero_exact d (0 * (0 / d)));
      [|by apply mul_zero_r|done].
    split; apply alike_div; try done.
    + apply add_zero_alike. by apply mul_zero_r.
    + apply sub_zero_alike. by apply mul_zero_r.
Qed.

(** [x ** 2] for a positive [x]. *)
Lemma square_positive `{Libm} (x : float) :
  (0 <? x) = true →
  PyFloat.square x
  = if is_infinity x then x else if x =? 1 then 1 else (libm_pow x 2).1.
Proof.
  intros Hx. unfold PyFloat.square, PyFloat.float_pow2.
  assert (Hs : is_nan x = false ∧ (x =? 0) = false ∧ (x <? 0) = false
               ∧ (is_infinity x = true → abs x = x)).
  { unfold is_nan, is_infinity.
    rewrite ltb_spec in Hx. rewrite !FloatAxioms.eqb_spec, ltb_spec, abs_spec.
    change (Prim2SF 0) with (S754_zero false) in *.
    change (Prim2SF infinity) with (S754_infinity false).
    destruct (Prim2SF x) as [sx|sx| |sx mx ex] eqn:Ex; try done.
    - destruct sx; [done|]. split_and!; try done.
      intros _. apply Prim2SF_inj. by rewrite abs_spec, Ex.
    - destruct sx; [done|]. rewrite SFeqb_finite_refl. done. }
  destruct Hs as (-> & -> & -> & Habs). cbn iota.
  destruct (is_infinity x); [by rewrite Habs|].
  destruct (x =? 1); [done|]. by destruct (libm_pow x 2).
Qed.
End Binary64Quotients.


(** * Methods that read the core and write signals *)

Lemma same_but_signals_refl m : same_but_signals m m.
Proof. by repeat split. Qed.

Lemma same_but_signals_trans m1 m2 m3 :
  same_but_signals m1 m2 → same_but_signals m2 m3 → same_but_signals m1 m3.
Proof.
  unfold same_but_signals. intros (?&?&?&?&?&?&?) (?&?&?&?&?&?&?).
  repeat split; congruence.
Qed.

Lemma sfc_bind {A B : Type} (c : M A) (k : A → M B) :
  signals_from_core c → (∀ a, signals_from_core (k a)) →
  signals_from_core (c ≫= k).
Proof.
  intros Hc Hk m1 m2 Hcore.
  destruct (Hc m1 m2 Hcore) as (Hr & Hp1 & Hp2 & Hf1 & Hf2 & Hs).
  unfold mbind, M_bind.
  destruct (c m1) as [o1 n1 p1], (c m2) as [o2 n2 p2]. cbn in *. subst.
  destruct o2 as [a|e]; cbn; [|done].
  assert (Hcore' : same_core n1 n2).
  { unfold same_core, same_but_signals in *.
    destruct Hcore as (?&?&?), Hf1 as (?&?&?&?&?&?&?), Hf2 as (?&?&?&?&?&?&?).
    repeat split; congruence. }
  destruct (Hk a n1 n2 Hcore') as (Hr' & Hp1' & Hp2' & Hf1' & Hf2' & Hs').
  destruct (k a n1) as [o1' n1' p1'], (k a n2) as [o2' n2' p2']. cbn in *.
  subst. split_and!; try done; eauto using same_but_signals_trans.
  intros key. destruct (Hs' key) as [E|[E1 E2]]; [by left|].
  rewrite E1, E2. apply Hs.
Qed.

Lemma sfc_silent {A : Type} (c : M A) :
  (∀ m, final (c m) = m ∧ printed (c m) = []) →
  (∀ m1 m2, same_core m1 m2 → result (c m1) = result (c m2)) →
  signals_from_core c.
Proof.
  intros Hc Hr m1 m2 Hcore.
  destruct (Hc m1) as [-> ->], (Hc m2) as [-> ->].
  repeat split; auto using same_but_signals_refl.
Qed.

Lemma sfc_ret {A : Type} (a : A) : signals_from_core (mret a).
Proof. by apply sfc_silent. Qed.

Lemma sfc_lift {A : Type} (o : outcome A) : signals_from_core (lift o).
Proof. by apply sfc_silent. Qed.

Lemma sfc_get_state key : signals_from_core (get_state key).
Proof. apply sfc_silent; [done|]. by intros m1 m2 (E&_&_); cbn; rewrite E. Qed.

Lemma sfc_get_param key : signals_from_core (get_param key).
Proof. apply sfc_silent; [done|]. by intros m1 m2 (_&E&_); cbn; rewrite E. Qed.

Lemma sfc_get_Yg : signals_from_core get_Yg.
Proof. apply sfc_silent; [done|]. by intros m1 m2 (_&_&E); cbn; rewrite E. Qed.

Lemma sfc_set_signal key v : signals_from_core (set_signal key v).
Proof.
  intros m1 m2 _. cbn. repeat split.
  intros k. destruct (decide (key = k)) as [->|].
  - left. by rewrite !lookup_insert_eq.
  - right. by rewrite !lookup_insert_ne.
Qed.

Lemma sfc_if {A : Type} (b : bool) (c1 c2 : M A) :
  signals_from_core c1 → signals_from_core c2 →
  signals_from_core (if b then c1 else c2).
Proof. by destruct b. Qed.

Create HintDb sfc.
#[local] Hint Resolve sfc_ret sfc_lift sfc_get_state sfc_get_param sfc_get_Yg
  sfc_set_signal : sfc.

Ltac sfc_rules :=
  repeat first
    [ apply sfc_bind; [|intros]
    | apply sfc_if
    | solve [auto with sfc]
    | match goal with
      | |- signals_from_core (let '(_, _) := ?p in _) => destruct p
      end ].

(** * The stator equations over the reals *)

Section ExactStator.
Local Open Scope R_scope.

Lemma coupled_currents_solve_stator (Ra Xdp Xqp E'q E'd Vd Vq : R) :
  Ra ≠ 0 → Xdp * Xqp + Ra * Ra ≠ 0 →
  let Iq := coupled_Iq Ra Xdp Xqp E'q E'd Vd Vq in
  let Id := coupled_Id Ra Xqp E'd Vd Iq in
  E'q = Vq + Ra * Iq + Xdp * Id ∧ E'd = Vd + Ra * Id - Xqp * Iq.
Proof. intros HRa Hdet. cbn. split; field; auto. Qed.

Lemma decoupled_currents_solve_stator (Xdp Xqp E'q E'd Vd Vq : R) :
  Xdp ≠ 0 → Xqp ≠ 0 →
  let Id := decoupled_Id Xdp E'q Vq in
  let Iq := decoupled_Iq Xqp E'd Vd in
  E'q = Vq + Xdp * Id ∧ E'd = Vd - Xqp * Iq.
Proof. intros Hd Hq. cbn. split; field; auto. Qed.
End ExactStator.

(** * The current-injection calculator and the residual check *)

Section AlgebraicFacts.
Context `{Libm} `{Numpy} `{Builtins}.
Local Open Scope float_scope.
Import PyComplex.

Lemma calc_currents_signals_from_core (vt : complex) :
  signals_from_core (calc_currents vt).
Proof. unfold calc_currents. sfc_rules. Qed.

(** The whole run of [calc_currents] on an initialised machine. *)
Lemma calc_currents_run (vt : complex) (m : sym_order4) :
  initialised m → resistance_ok m →
  calc_currents vt m
  = Run (Ok (injection vt m (dq_currents vt m).1 (dq_currents vt m).2))
        (with_signals
           (dq_signals vt m (dq_currents vt m).1 (dq_currents vt m).2) m)
        [].
Proof.
  intros (Hst & Hsg & Hpr) HRa. unfold resistance_ok in HRa.
  unfold calc_currents, dq_currents. do 3 step.
  destruct (0 <? params m !!! "Ra") eqn:ERa.
  - specialize (HRa eq_refl). run_method. reflexivity.
  - run_method. reflexivity.
Qed.

Lemma check_diffs_keeps (m : sym_order4) : final (check_diffs m) = m.
Proof. unfold check_diffs. run_method. all: done. Qed.

Lemma check_diffs_run (m : sym_order4) :
  initialised m →
  check_diffs m
  = Run (Ok ()) m
      (if negb (py_round (rhs Edp m) 6 =? 0)
          || negb (py_round (rhs Eqp m) 6 =? 0)
       then ["Warning: differential equations not zero on initialisation...";
             String.append "dEdp = "
               (String.append (py_str (rhs Edp m))
                  (String.append ", dEqp = " (py_str (rhs Eqp m))))]
       else []).
Proof.
  intros (Hst & Hsg & Hpr). unfold check_diffs, rhs.
  run_method; reflexivity.
Qed.

(** [initialise] fills the signals and the states, then checks them. *)
Lemma initialise_run (vt0 S0 : complex) (m : sym_order4) :
  has_keys param_keys (params m) →
  ∃ m', initialise vt0 S0 m = check_diffs m' ∧
    initialised m' ∧ params m' = params m ∧
    states m' !! "omega" = Some 1 ∧
    signals m' !! "Pm" = signals m' !! "P".
Proof.
  intros Hpr. unfold initialise. run_method.
  eexists. split; [reflexivity|]. unfold initialised. fields.
  split_and!; [| |done|done|by read_back|by read_back].
  - unfold has_keys, state_keys.
    repeat (apply Forall_cons; split); [..|apply Forall_nil];
      read_back; eauto.
  - unfold has_keys, signal_keys.
    repeat (apply Forall_cons; split); [..|apply Forall_nil];
      read_back; eauto.
Qed.

Lemma initialise_keeps_Yg (vt0 S0 : complex) (m : sym_order4) :
  Yg (final (initialise vt0 S0 m)) = Yg m.
Proof. unfold initialise, check_diffs. run_method. all: done. Qed.

(** [__init__] once the three parameters of [Yg] are found. *)
Lemma init_run (parsed : gmap string float) (iopt : string)
    (Ra Xdp Xqp : float) :
  parsed !! "Ra" = Some Ra → parsed !! "Xdp" = Some Xdp →
  parsed !! "Xqp" = Some Xqp →
  init parsed iopt
  = (Ra2 ← PyFloat.pow2 Ra;
     Y ← c_quot
           (c_diff (of_float Ra)
                   (c_prod (c_prod j (of_float 0.5)) (of_float (Xdp + Xqp))))
           (of_float (Ra2 + Xdp * Xqp));
     mret (Machine ∅ ∅ ∅ ∅ parsed iopt (2 * np_pi * 50) Y)).
Proof.
  intros ERa EXdp EXqp. unfold init, mbind, outcome_bind, getitem.
  by rewrite ERa, EXdp, EXqp.
Qed.
End AlgebraicFacts.

Lemma legacy_check_diffs_run (m : sym_order4) :
  initialised m →
  Legacy.check_diffs m
  = Run (Ok ()) m
      (if negb (rhs Edp m =? 0)%float || negb (rhs Eqp m =? 0)%float
       then ["Differential equations not zero on initialisation..."]
       else []).
Proof.
  intros (Hst & Hsg & Hpr). unfold Legacy.check_diffs, rhs.
  run_method; reflexivity.
Qed.

(** * The claims *)

(** ** The step integrator *)

Section IntegratorClaims.
Local Open Scope float_scope.

(** C1 (what the code does).  On the example machine with [h = 1], after
    stage 0 the snapshot of omega is 1 and every stage increment of omega
    is 1.  Stage 1 leaves omega at 2, not at snapshot + 0.5 k2 = 1.5, and
    stage 2 leaves it at 3, not at snapshot + k3 = 2: both stages advance
    from the state the preceding stage left. *)
Theorem rk_stages_1_2_advance_from_current_state :
  states0 rk1 !! "omega" = Some 1 ∧
  increment omega 1 rk1 = 1 ∧
  states rk1 !! "omega" = Some 1.5 ∧
  states (final (solve_step 1 1 rk1)) !! "omega" = Some 2 ∧
  states0 rk2 !! "omega" = Some 1 ∧
  increment omega 1 rk2 = 1 ∧
  states (final (solve_step 1 2 rk2)) !! "omega" = Some 3.
Proof. vm_compute. by repeat split. Qed.

(** C2.  Runge-Kutta stage 3: with the snapshot [y0] and the three stored
    increments [k1, k2, k3] in place, the call succeeds and every state
    variable becomes [y0 + 1/6 * (k1 + 2 k2 + 2 k3 + k4)], where [k4] is
    the increment [h * f] computed in this call. *)
Theorem solve_step_rk_stage3 (h : float) (m : sym_order4)
    (y0 k1 k2 k3 : var → float) (more : var → list float) :
  ready "runge_kutta" m →
  (∀ v, states0 m !! key v = Some (y0 v)) →
  (∀ v, dsteps m !! key v = Some (k1 v :: k2 v :: k3 v :: more v)) →
  result (solve_step h 3 m) = Ok () ∧
  ∀ v, states (final (solve_step h 3 m)) !! key v
       = Some (y0 v + 1 / 6
                      * (k1 v + 2 * k2 v + 2 * k3 v + increment v h m)).
Proof.
  intros Hr Hy Hl.
  destruct (rk_stage3_run h m y0 k1 k2 k3 more Hr Hy Hl)
    as (m' & -> & Hs & _). by split.
Qed.

Lemma solve_step_rk_stage3_witness :
  result (solve_step 1 3 rk3) = Ok () ∧
  states (final (solve_step 1 3 rk3)) !! "omega" = Some 2.
Proof.
  destruct (solve_step_rk_stage3 1 rk3
              (λ v, states0 rk3 !!! key v)
              (λ v, (dsteps rk3 !!! key v) !!! 0%nat)
              (λ v, (dsteps rk3 !!! key v) !!! 1%nat)
              (λ v, (dsteps rk3 !!! key v) !!! 2%nat)
              (λ _, [])) as [Hresult Hstate].
  - evaluate_ready.
  - intros []; evaluate.
  - intros []; evaluate.
  - split; [exact Hresult|].
    pose proof (Hstate omega) as Ho. cbn [key] in Ho. rewrite Ho. evaluate.
Defined.

(** C3 (as the claim states it), refuted.  [Pm - P] overflows on
    [machine_overflow], so the predictor stores an infinite increment of
    omega and predicts an infinite omega.  At the corrector the increment
    is the same infinity, and omega becomes NaN: it is not the predicted
    state. *)
Lemma euler_corrector_overflow :
  dsteps predicted_overflow !! "omega"
  = Some [increment omega 1 predicted_overflow] ∧
  states predicted_overflow !! "omega" = Some infinity ∧
  states (final (solve_step 1 1 predicted_overflow)) !! "omega" = Some nan ∧
  ¬ same_number nan infinity.
Proof.
  split_and!; [evaluate..|].
  intros [E|E]; [|by vm_compute in E].
  apply (f_equal is_nan) in E. by vm_compute in E.
Qed.

(** C3 (amended).  In the mod_euler scheme, on a machine that is ready and
    holds the predictor increments [k0], [solve_step] at any stage index
    other than 0 succeeds and sets each state variable to the value read at
    the start of the call plus [0.5 * (h f - k0)]; when that stage's
    increment [h f] equals [k0] and [k0] is finite, the state after the
    corrector is the same number as the state before it (the predicted
    state). *)
Theorem euler_corrector (h : float) (dstep : Z) (m : sym_order4)
    (k0 : var → float) (more : var → list float) :
  ready "mod_euler" m →
  dstep ≠ 0%Z →
  (∀ v, dsteps m !! key v = Some (k0 v :: more v)) →
  result (solve_step h dstep m) = Ok () ∧
  (∀ v, states (final (solve_step h dstep m)) !! key v
        = Some (states m !!! key v + 0.5 * (increment v h m - k0 v))) ∧
  (∀ v, (increment v h m =? k0 v) = true →
        is_finite (k0 v) = true →
        same_number (states (final (solve_step h dstep m)) !!! key v)
                    (states m !!! key v)).
Proof.
  intros Hr Hd Hl.
  destruct (euler_corrector_run h dstep m k0 more Hr Hd Hl)
    as (m' & -> & Hs & _).
  cbn [result final]. split_and!; [done|done|].
  intros v E Hf. rewrite (lookup_total_correct _ _ _ (Hs v)).
  by apply add_half_difference_of_equals.
Qed.

Lemma euler_corrector_witness :
  result (solve_step 1 1 predicted_ex) = Ok () ∧
  states predicted_ex !! "omega" = Some 2 ∧
  states (final (solve_step 1 1 predicted_ex)) !! "omega" = Some 2 ∧
  same_number (states (final (solve_step 1 1 predicted_ex)) !!! "omega") 2.
Proof.
  destruct (euler_corrector 1 1 predicted_ex
              (λ v, (dsteps predicted_ex !!! key v) !!! 0%nat) (λ _, []))
    as (Hresult & Hstate & Hsame).
  - evaluate_ready.
  - discriminate.
  - intros []; evaluate.
  - split_and!; [exact Hresult | evaluate | |].
    + pose proof (Hstate omega) as Ho. cbn [key] in Ho. rewrite Ho. evaluate.
    + apply (Hsame omega); evaluate.
Defined.

(** C7.  In the runge_kutta scheme a stage index outside {0, 1, 2, 3}
    leaves the whole machine (states, snapshot, stage lists) as it was, and
    on a machine that is ready for a step the call returns without an
    error. *)
Theorem solve_step_rk_invalid_stage (h : float) (dstep : Z) (m : sym_order4) :
  opt m = "runge_kutta" →
  (dstep < 0 ∨ 3 < dstep)%Z →
  final (solve_step h dstep m) = m ∧
  (initialised m → inertia_ok m → result (solve_step h dstep m) = Ok ()).
Proof.
  intros Hopt Hd.
  assert (E0 : (dstep =? 0)%Z = false) by lia.
  assert (E1 : (dstep =? 1)%Z = false) by lia.
  assert (E2 : (dstep =? 2)%Z = false) by lia.
  assert (E3 : (dstep =? 3)%Z = false) by lia.
  split.
  - unfold solve_step. run_method. all: done.
  - intros (Hst & Hsg & Hpr) HH. unfold solve_step. run_method. done.
Qed.

Lemma solve_step_rk_invalid_stage_witness :
  final (solve_step 1 7 (machine_ex "runge_kutta")) = machine_ex "runge_kutta"
  ∧ result (solve_step 1 7 (machine_ex "runge_kutta")) = Ok ().
Proof.
  destruct (solve_step_rk_invalid_stage 1 7 (machine_ex "runge_kutta"))
    as [Hfinal Hresult].
  - reflexivity.
  - right. reflexivity.
  - split; [exact Hfinal|]. apply Hresult.
    + split_and!; apply has_keysb_true; evaluate.
    + evaluate.
Defined.

(** C8 (as the claim states it), refuted.  After stages 0-2 on the example
    machine the list of omega holds three increments; stage 3 computes
    [k4 = 1], succeeds, and the list still holds three entries: [k4] is not
    appended. *)
Lemma rk_stage3_appends_nothing :
  dsteps rk3 !! "omega" = Some [1; 1; 1] ∧
  increment omega 1 rk3 = 1 ∧
  result (solve_step 1 3 rk3) = Ok () ∧
  dsteps (final (solve_step 1 3 rk3)) !! "omega" = Some [1; 1; 1].
Proof. vm_compute. by repeat split. Qed.

(** C8 (amended).  In the runge_kutta scheme stage 0 resets every list to
    its own increment, stages 1 and 2 append theirs, and stage 3 leaves the
    lists alone: after stage s <= 2 a list holds the increments of stages
    0..s in order, and after stage 3 it still holds those three.  The
    machines [m0..m3] on which the four stages run need only share the
    lists (signals and states may change in between). *)
Theorem rk_stored_increments (h : float) (m0 m1 m2 m3 : sym_order4) :
  ready "runge_kutta" m0 →
  ready "runge_kutta" m1 →
  ready "runge_kutta" m2 →
  opt m3 = "runge_kutta" →
  dsteps m1 = dsteps (final (solve_step h 0 m0)) →
  dsteps m2 = dsteps (final (solve_step h 1 m1)) →
  dsteps m3 = dsteps (final (solve_step h 2 m2)) →
  ∀ v,
    dsteps (final (solve_step h 0 m0)) !! key v = Some [increment v h m0] ∧
    dsteps (final (solve_step h 1 m1)) !! key v
    = Some [increment v h m0; increment v h m1] ∧
    dsteps (final (solve_step h 2 m2)) !! key v
    = Some [increment v h m0; increment v h m1; increment v h m2] ∧
    dsteps (final (solve_step h 3 m3)) !! key v
    = Some [increment v h m0; increment v h m1; increment v h m2].
Proof.
  intros R0 R1 R2 O3 L1 L2 L3.
  destruct (rk_stage0_run h m0 R0) as (n0 & E0 & _ & _ & D0).
  rewrite E0 in *. cbn [final] in *.
  assert (D1' : ∀ v, dsteps m1 !! key v = Some [increment v h m0]).
  { intros v. by rewrite L1. }
  destruct (rk_stage12_run h 1 m1 _ R1 (or_introl eq_refl) D1')
    as (n1 & E1 & _ & D1 & _).
  rewrite E1 in *. cbn [final] in *.
  assert (D2' : ∀ v, dsteps m2 !! key v
                     = Some ([increment v h m0] ++ [increment v h m1])).
  { intros v. by rewrite L2. }
  destruct (rk_stage12_run h 2 m2 _ R2 (or_intror eq_refl) D2')
    as (n2 & E2 & _ & D2 & _).
  rewrite E2 in *. cbn [final] in *.
  destruct (rk_stage3_scratch h m3 O3) as [-> _].
  intros v. rewrite L3. split_and!; [apply D0 | apply D1 | apply D2 | apply D2].
Qed.

Lemma rk_stored_increments_witness :
  dsteps rk1 !! "omega" = Some [1] ∧
  dsteps rk2 !! "omega" = Some [1; 1] ∧
  dsteps rk3 !! "omega" = Some [1; 1; 1] ∧
  dsteps (final (solve_step 1 3 rk3)) !! "omega" = Some [1; 1; 1].
Proof.
  pose proof (rk_stored_increments 1 (machine_ex "runge_kutta") rk1 rk2 rk3)
    as Hstored.
  destruct (Hstored ltac:(evaluate_ready) ltac:(evaluate_ready)
              ltac:(evaluate_ready) eq_refl eq_refl eq_refl eq_refl omega)
    as (H0 & H1 & H2 & H3).
  cbn [key] in *. unfold rk3 at 1, rk2 at 1, rk1 at 1.
  rewrite H0, H1, H2, H3. evaluate.
Defined.

(** C10.  For every scheme, stage index, step size and machine,
    [solve_step] leaves the Signals mapping and the Parameters exactly as
    they were (it assigns only to [states], [states0] and [dsteps]). *)
Theorem solve_step_signals_params_unchanged
    (h : float) (dstep : Z) (m : sym_order4) :
  signals (final (solve_step h dstep m)) = signals m ∧
  params (final (solve_step h dstep m)) = params m.
Proof.
  destruct (solve_step_keeps h dstep m) as [(Hs & Hp & _) _]. by split.
Qed.
End IntegratorClaims.

(** ** The current-injection calculator and the residual check *)

Section AlgebraicClaims.
Context `{Libm} `{Numpy} `{Builtins}.
Local Open Scope float_scope.
Import PyComplex.

(** C4.  [check_diffs] never changes the machine.  On an initialised
    machine it returns normally, and it prints exactly when one of the two
    electrical residuals [dEdp/dt], [dEqp/dt] (the right-hand sides the
    integrator uses), rounded to 6 digits, is not zero: the warning line
    followed by a line that shows both residuals.  Otherwise it prints
    nothing. *)
Theorem check_diffs_diagnostic (m : sym_order4) :
  final (check_diffs m) = m ∧
  (initialised m →
     result (check_diffs m) = Ok () ∧
     printed (check_diffs m)
     = if negb (py_round (rhs Edp m) 6 =? 0)
          || negb (py_round (rhs Eqp m) 6 =? 0)
       then ["Warning: differential equations not zero on initialisation...";
             String.append "dEdp = "
               (String.append (py_str (rhs Edp m))
                  (String.append ", dEqp = " (py_str (rhs Eqp m))))]
       else []).
Proof.
  split; [apply check_diffs_keeps|].
  intros Hi. by rewrite (check_diffs_run m Hi).
Qed.

(** C5.  On an initialised machine [calc_currents] returns normally and
    stores the dq projections [Vd], [Vq] of [vt] by the rotor angle and the
    currents of the policy chosen by the test [Ra > 0]: when it holds, the
    closed-form solution of the coupled system, with denominator
    [Xdp Xqp + Ra ** 2]; when it does not, the two scalar quotients
    [Id = (Eqp - Vq)/Xdp] and [Iq = (Vd - Edp)/Xqp].  The square in the
    denominator is the value of [Ra ** 2] on a Python float: for a positive
    [Ra] the value [pow(Ra, 2)] of the C library, which need not be the
    rounded product [Ra * Ra] ([Ra] itself when it is infinite, [1] when it
    is [1]). *)
Theorem calc_currents_policy (vt : complex) (m : sym_order4) :
  initialised m → resistance_ok m →
  let Ra := params m !!! "Ra" in
  let Xdp := params m !!! "Xdp" in
  let Xqp := params m !!! "Xqp" in
  let E'q := states m !!! "Eqp" in
  let E'd := states m !!! "Edp" in
  let Vd := np_abs vt * np_sin (states m !!! "delta" - np_angle vt) in
  let Vq := np_abs vt * np_cos (states m !!! "delta" - np_angle vt) in
  let Ra2 :=
    if is_infinity Ra then Ra
    else if Ra =? 1 then 1
    else (libm_pow Ra 2).1 in
  let Iq_coupled :=
    (- Ra * (Vq - E'q) + Xdp * (Vd - E'd)) / (Xdp * Xqp + Ra2) in
  (∃ Im, result (calc_currents vt m) = Ok Im) ∧
  signals (final (calc_currents vt m)) !! "Vd" = Some Vd ∧
  signals (final (calc_currents vt m)) !! "Vq" = Some Vq ∧
  ((0 <? Ra) = true →
     PyFloat.pow2 Ra = Ok Ra2 ∧
     signals (final (calc_currents vt m)) !! "Iq" = Some Iq_coupled ∧
     signals (final (calc_currents vt m)) !! "Id"
     = Some (- (Vd - E'd - Xqp * Iq_coupled) / Ra)) ∧
  ((0 <? Ra) = false →
     signals (final (calc_currents vt m)) !! "Id" = Some ((E'q - Vq) / Xdp) ∧
     signals (final (calc_currents vt m)) !! "Iq" = Some ((Vd - E'd) / Xqp)).
Proof.
  intros Hi HRa. rewrite (calc_currents_run vt m Hi HRa).
  cbn [result final signals with_signals]. unfold dq_signals, dq_currents.
  cbv zeta. split_and!.
  - by eexists.
  - by read_back.
  - by read_back.
  - intros ERa. rewrite ERa. cbn [fst snd].
    rewrite <- (square_positive _ ERa).
    split_and!; [by apply pow2_ok, HRa | by read_back..].
  - intros ->. cbn [fst snd]. split; by read_back.
Qed.

(** C6.  [__init__], once it has found [Ra], [Xdp] and [Xqp], fails exactly
    when [Ra ** 2] raises or the denominator [D = Ra ** 2 + Xdp Xqp] is zero,
    and otherwise stores [Yg = (Ra - j 0.5 (Xdp + Xqp)) / D]: for a finite
    numerator the real part of [Yg] is [Ra / D] and its imaginary part is
    [-(0.5 (Xdp + Xqp)) / D], up to the sign of a zero.  [calc_currents],
    [solve_step], [check_diffs] and [initialise] never change [Yg]; and on
    an initialised machine [calc_currents] returns the dq current
    [Iq - j Id] it stored, multiplied by [exp(j delta)], plus [Yg vt]. *)
Theorem calc_currents_norton_injection (vt : complex) (m : sym_order4) :
  (∀ parsed iopt Ra Xdp Xqp,
     parsed !! "Ra" = Some Ra → parsed !! "Xdp" = Some Xdp →
     parsed !! "Xqp" = Some Xqp →
     match PyFloat.pow2 Ra with
     | Ok Ra2 =>
         let D := Ra2 + Xdp * Xqp in
         if D =? 0 then init parsed iopt = Raise ZeroDivisionError
         else
           ∃ Y, init parsed iopt
                = Ok (Machine ∅ ∅ ∅ ∅ parsed iopt (2 * np_pi * 50) Y) ∧
                (is_finite Ra = true →
                 is_finite (0.5 * (Xdp + Xqp)) = true →
                 alike (real Y) (Ra / D) ∧
                 alike (imag Y) (- (0.5 * (Xdp + Xqp)) / D))
     | Raise e => init parsed iopt = Raise e
     end) ∧
  Yg (final (calc_currents vt m)) = Yg m ∧
  (∀ h dstep, Yg (final (solve_step h dstep m)) = Yg m) ∧
  Yg (final (check_diffs m)) = Yg m ∧
  (∀ vt0 S0, Yg (final (initialise vt0 S0 m)) = Yg m) ∧
  (initialised m → resistance_ok m →
     ∃ Id Iq,
       signals (final (calc_currents vt m)) !! "Id" = Some Id ∧
       signals (final (calc_currents vt m)) !! "Iq" = Some Iq ∧
       result (calc_currents vt m)
       = Ok (c_sum
               (c_prod (c_diff (of_float Iq) (c_prod j (of_float Id)))
                       (np_exp (c_prod j (of_float (states m !!! "delta")))))
               (c_prod (Yg m) vt))).
Proof.
  split_and!.
  - intros parsed iopt Ra Xdp Xqp ERa EXdp EXqp.
    rewrite (init_run _ _ _ _ _ ERa EXdp EXqp).
    destruct (PyFloat.pow2 Ra) as [Ra2|e]; [|done].
    unfold mbind, outcome_bind. cbv zeta.
    destruct (Ra2 + Xdp * Xqp =? 0) eqn:ED;
      [by rewrite c_quot_real_raises|].
    destruct (c_quot_real_value
                (c_diff (of_float Ra)
                   (c_prod (c_prod j (of_float 0.5)) (of_float (Xdp + Xqp))))
                _ ED) as (Y & -> & HY).
    exists Y. split; [done|]. intros HRa Hs.
    destruct (norton_numerator Ra (Xdp + Xqp) HRa Hs)
      as (Hre & Him & Ere & Eim).
    destruct (HY Hre Him) as [Yre Yim]. split.
    + eapply alike_trans; [exact Yre|]. by apply alike_div.
    + eapply alike_trans; [exact Yim|]. by apply alike_div.
  - by destruct (calc_currents_signals_from_core vt m m)
      as (_ & _ & _ & (_&_&_&_&_&_&?) & _).
  - intros h dstep. by destruct (solve_step_keeps h dstep m) as [(_&_&_&_&?) _].
  - by rewrite check_diffs_keeps.
  - intros vt0 S0. apply initialise_keeps_Yg.
  - intros Hi HRa. rewrite (calc_currents_run vt m Hi HRa).
    cbn [result final signals with_signals]. unfold dq_signals.
    do 2 eexists. split_and!; [by read_back | by read_back | done].
Qed.

(** C9.  [calc_currents] is a function of the states, the parameters, [Yg]
    and the voltage: on two machines that agree on these it gives the same
    result, and every signal is either assigned the same value on both or
    left alone on both; it leaves the states alone; and calling it again
    with the same voltage gives the same result and the same machine. *)
Theorem calc_currents_pure (vt : complex) (m1 m2 : sym_order4) :
  states m1 = states m2 → params m1 = params m2 → Yg m1 = Yg m2 →
  result (calc_currents vt m1) = result (calc_currents vt m2) ∧
  (∀ k, signals (final (calc_currents vt m1)) !! k
        = signals (final (calc_currents vt m2)) !! k ∨
        (signals (final (calc_currents vt m1)) !! k = signals m1 !! k ∧
         signals (final (calc_currents vt m2)) !! k = signals m2 !! k)) ∧
  states (final (calc_currents vt m1)) = states m1 ∧
  calc_currents vt (final (calc_currents vt m1)) = calc_currents vt m1.
Proof.
  intros E1 E2 E3.
  destruct (calc_currents_signals_from_core vt m1 m2)
    as (Hr & Hp & _ & Hf & _ & Hs); [done|].
  split_and!; [done|done|by destruct Hf|].
  destruct (calc_currents_signals_from_core vt m1
              (final (calc_currents vt m1)))
    as (Hr' & _ & Hp' & _ & Hf' & Hs').
  { unfold same_core. by destruct Hf as (?&?&?&?&?&?&?). }
  destruct (calc_currents vt (final (calc_currents vt m1))) as [o2 n2 p2].
  destruct (calc_currents vt m1) as [o1 n1 p1]. cbn in *. subst.
  f_equal. destruct n1, n2. unfold same_but_signals in Hf'. cbn in *.
  destruct Hf' as (?&?&?&?&?&?&?). subst. f_equal.
  apply map_eq. intros k. by destruct (Hs' k) as [?|[? ?]].
Qed.
End AlgebraicClaims.

Section AlgebraicWitnesses.
Local Open Scope float_scope.

Lemma check_diffs_diagnostic_witness :
  result (@check_diffs builtins_plain (machine_ex "mod_euler")) = Ok () ∧
  printed (@check_diffs builtins_plain (machine_ex "mod_euler")) = [].
Proof.
  destruct (@check_diffs_diagnostic builtins_plain (machine_ex "mod_euler"))
    as [_ Hrun].
  destruct Hrun as [Hresult Hprinted].
  - split_and!; apply has_keysb_true; evaluate.
  - split; [exact Hresult|]. rewrite Hprinted. evaluate.
Defined.

Lemma calc_currents_policy_witness :
  signals (final (@calc_currents libm_rounded numpy_at_origin (Complex 1 0)
                    machine_loaded)) !! "Iq" = Some 0.75 ∧
  signals (final (@calc_currents libm_rounded numpy_at_origin (Complex 1 0)
                    machine_loaded)) !! "Id" = Some 2.5.
Proof.
  destruct (@calc_currents_policy libm_rounded numpy_at_origin (Complex 1 0)
              machine_loaded) as (_ & _ & _ & Hcoupled & _).
  - split_and!; apply has_keysb_true; evaluate.
  - intros _. evaluate.
  - destruct Hcoupled as (_ & HIq & HId); [evaluate|].
    rewrite HIq, HId. evaluate.
Defined.

Lemma calc_currents_norton_injection_witness :
  (∃ Y, @init libm_rounded params_loaded "mod_euler"
        = Ok (Machine ∅ ∅ ∅ ∅ params_loaded "mod_euler" (2 * np_pi * 50) Y) ∧
        alike (real Y) 1 ∧ alike (imag Y) (-1.25)) ∧
  result (@calc_currents libm_rounded numpy_at_origin (Complex 1 0)
            machine_loaded)
  = Ok (Complex 1.75 (-3.75)).
Proof.
  destruct (@calc_currents_norton_injection libm_rounded numpy_at_origin
              builtins_plain (Complex 1 0) machine_loaded)
    as (Hinit & _ & _ & _ & _ & Hinjection).
  split.
  - specialize (Hinit params_loaded "mod_euler" 0.5 0.25 1
                  eq_refl eq_refl eq_refl).
    change (@PyFloat.pow2 libm_rounded 0.5) with (Ok 0.25) in Hinit.
    cbv zeta in Hinit.
    change (0.25 + 0.25 * 1 =? 0) with false in Hinit.
    destruct Hinit as (Y & HY & Hparts). exists Y. split; [exact HY|].
    apply Hparts; reflexivity.
  - destruct Hinjection as (Id & Iq & HId & HIq & Hresult).
    + split_and!; apply has_keysb_true; evaluate.
    + intros _. evaluate.
    + rewrite Hresult. f_equal.
      assert (Id = 2.5) as -> by (vm_compute in HId; congruence).
      assert (Iq = 0.75) as -> by (vm_compute in HIq; congruence).
      evaluate.
Defined.

Lemma calc_currents_pure_witness :
  result (@calc_currents libm_rounded numpy_at_origin (Complex 1 0)
            (machine_ex "mod_euler"))
  = result (@calc_currents libm_rounded numpy_at_origin (Complex 1 0)
              machine_history).
Proof.
  by destruct (@calc_currents_pure libm_rounded numpy_at_origin (Complex 1 0)
                 (machine_ex "mod_euler") machine_history) as (Hresult & _).
Defined.
End AlgebraicWitnesses.

(** * Further properties of the class *)

Section FurtherIntegrator.
Local Open Scope float_scope.

(** X1.  Modified Euler, stage 0 (predictor): on a ready machine the call
    succeeds, advances every state variable by its increment [h f] and
    stores that increment as the single entry of the variable's list. *)
Theorem euler_predictor (h : float) (m : sym_order4) :
  ready "mod_euler" m →
  result (solve_step h 0 m) = Ok () ∧
  ∀ v,
    states (final (solve_step h 0 m)) !! key v
    = Some (states m !!! key v + increment v h m) ∧
    dsteps (final (solve_step h 0 m)) !! key v = Some [increment v h m].
Proof.
  intros Hr. destruct (euler_predictor_run h m Hr) as (m' & -> & Hs & Hd).
  by split.
Qed.

Lemma euler_predictor_witness :
  result (solve_step 1 0 (machine_ex "mod_euler")) = Ok () ∧
  states predicted_ex !! "omega" = Some 2 ∧
  dsteps predicted_ex !! "omega" = Some [1].
Proof.
  destruct (euler_predictor 1 (machine_ex "mod_euler")) as [Hresult Hstate].
  - evaluate_ready.
  - destruct (Hstate omega) as [Hs Hd]. cbn [key] in *.
    unfold predicted_ex. rewrite Hs, Hd. split; [exact Hresult|]. evaluate.
Defined.

(** X2.  Runge-Kutta, stage 0: on a ready machine the call succeeds, saves
    every state variable in the snapshot, advances it by half its increment
    [k1 = h f] and resets its list to [k1]. *)
Theorem rk_stage0 (h : float) (m : sym_order4) :
  ready "runge_kutta" m →
  result (solve_step h 0 m) = Ok () ∧
  ∀ v,
    states0 (final (solve_step h 0 m)) !! key v = Some (states m !!! key v) ∧
    states (final (solve_step h 0 m)) !! key v
    = Some (states m !!! key v + 0.5 * increment v h m) ∧
    dsteps (final (solve_step h 0 m)) !! key v = Some [increment v h m].
Proof.
  intros Hr. destruct (rk_stage0_run h m Hr) as (m' & -> & H0 & Hs & Hd).
  by split.
Qed.

Lemma rk_stage0_witness :
  result (solve_step 1 0 (machine_ex "runge_kutta")) = Ok () ∧
  states0 rk1 !! "omega" = Some 1 ∧
  states rk1 !! "omega" = Some 1.5 ∧
  dsteps rk1 !! "omega" = Some [1].
Proof.
  destruct (rk_stage0 1 (machine_ex "runge_kutta")) as [Hresult Hstate].
  - evaluate_ready.
  - destruct (Hstate omega) as (H0 & Hs & Hd). cbn [key] in *.
    unfold rk1. rewrite H0, Hs, Hd. split; [exact Hresult|]. evaluate.
Defined.

(** X3.  With a scheme other than mod_euler and runge_kutta, [solve_step]
    changes nothing. *)
Theorem solve_step_unknown_scheme (h : float) (dstep : Z) (m : sym_order4) :
  opt m ≠ "mod_euler" → opt m ≠ "runge_kutta" →
  final (solve_step h dstep m) = m.
Proof.
  intros He%String.eqb_neq Hr%String.eqb_neq.
  unfold solve_step. run_method. all: done.
Qed.

Lemma solve_step_unknown_scheme_witness :
  final (solve_step 1 0 (machine_ex "euler")) = machine_ex "euler".
Proof. apply solve_step_unknown_scheme; discriminate. Defined.
End FurtherIntegrator.

Section FurtherAlgebraic.
Context `{Libm} `{Numpy} `{Builtins}.
Local Open Scope float_scope.

(** X4.  On an initialised machine [calc_currents] stores the active power
    [(Vd + Ra Id) Id + (Vq + Ra Iq) Iq], the reactive power [Vq Id - Vd Iq]
    and the voltage magnitude [sqrt(Vd ** 2 + Vq ** 2)] of the dq quantities
    it stores, and leaves [Pm] and [Vfd] as they were.  The two squares are
    numpy's: the values [pow(Vd, 2)] and [pow(Vq, 2)] of the C library, not
    the rounded products. *)
Theorem calc_currents_power (vt : complex) (m : sym_order4) :
  initialised m → resistance_ok m →
  ∃ Id Iq,
    signals (final (calc_currents vt m)) !! "Id" = Some Id ∧
    signals (final (calc_currents vt m)) !! "Iq" = Some Iq ∧
    signals (final (calc_currents vt m)) !! "P"
    = Some ((Vd_of vt m + params m !!! "Ra" * Id) * Id
            + (Vq_of vt m + params m !!! "Ra" * Iq) * Iq) ∧
    signals (final (calc_currents vt m)) !! "Q"
    = Some (Vq_of vt m * Id - Vd_of vt m * Iq) ∧
    signals (final (calc_currents vt m)) !! "Vt"
    = Some (PrimFloat.sqrt ((libm_pow (Vd_of vt m) 2).1
                            + (libm_pow (Vq_of vt m) 2).1)) ∧
    signals (final (calc_currents vt m)) !! "Pm" = signals m !! "Pm" ∧
    signals (final (calc_currents vt m)) !! "Vfd" = signals m !! "Vfd".
Proof.
  intros Hi HRa. rewrite (calc_currents_run vt m Hi HRa).
  cbn [final signals with_signals]. unfold dq_signals.
  do 2 eexists. split_and!; by read_back.
Qed.

(** X5.  [initialise] on a machine whose parameters are loaded returns
    normally and leaves an initialised machine, with omega at synchronous
    speed and the mechanical power equal to the electrical power; the
    parameters are unchanged. *)
Theorem initialise_establishes (vt0 S0 : complex) (m : sym_order4) :
  has_keys param_keys (params m) →
  result (initialise vt0 S0 m) = Ok () ∧
  initialised (final (initialise vt0 S0 m)) ∧
  params (final (initialise vt0 S0 m)) = params m ∧
  states (final (initialise vt0 S0 m)) !! "omega" = Some 1 ∧
  signals (final (initialise vt0 S0 m)) !! "Pm"
  = signals (final (initialise vt0 S0 m)) !! "P".
Proof.
  intros Hpr.
  destruct (initialise_run vt0 S0 m Hpr) as (m' & -> & Hi & Hp & Ho & HP).
  by rewrite (check_diffs_run m' Hi).
Qed.

(** X6.  The earlier copy of [check_diffs] never changes the machine; on an
    initialised machine it returns normally and prints its one line exactly
    when a residual differs from zero, without rounding and without the
    values. *)
Theorem legacy_check_diffs (m : sym_order4) :
  final (Legacy.check_diffs m) = m ∧
  (initialised m →
     result (Legacy.check_diffs m) = Ok () ∧
     printed (Legacy.check_diffs m)
     = if negb (rhs Edp m =? 0) || negb (rhs Eqp m =? 0)
       then ["Differential equations not zero on initialisation..."]
       else []).
Proof.
  split.
  - unfold Legacy.check_diffs. run_method. all: done.
  - intros Hi. by rewrite (legacy_check_diffs_run m Hi).
Qed.
End FurtherAlgebraic.

Section FurtherWitnesses.
Local Open Scope float_scope.

Lemma calc_currents_power_witness :
  signals (final (@calc_currents libm_rounded numpy_at_origin (Complex 1 0)
                    machine_loaded)) !! "P" = Some 4.15625 ∧
  signals (final (@calc_currents libm_rounded numpy_at_origin (Complex 1 0)
                    machine_loaded)) !! "Q" = Some 2.5 ∧
  signals (final (@calc_currents libm_rounded numpy_at_origin (Complex 1 0)
                    machine_loaded)) !! "Vt" = Some 1 ∧
  signals (final (@calc_currents libm_rounded numpy_at_origin (Complex 1 0)
                    machine_loaded)) !! "Pm" = Some 1.
Proof.
  destruct (@calc_currents_power libm_rounded numpy_at_origin (Complex 1 0)
              machine_loaded)
    as (Id & Iq & HId & HIq & HP & HQ & HVt & HPm & _).
  - split_and!; apply has_keysb_true; evaluate.
  - intros _. evaluate.
  - rewrite HP, HQ, HVt, HPm.
    assert (Id = 2.5) as -> by (vm_compute in HId; congruence).
    assert (Iq = 0.75) as -> by (vm_compute in HIq; congruence).
    evaluate.
Defined.

Lemma initialise_establishes_witness :
  result (@initialise numpy_at_origin builtins_plain (Complex 1 0)
            (Complex 0 0) (machine_new "mod_euler")) = Ok ().
Proof.
  apply (@initialise_establishes numpy_at_origin builtins_plain).
  apply has_keysb_true. evaluate.
Defined.

Lemma legacy_check_diffs_witness :
  result (Legacy.check_diffs (machine_ex "mod_euler")) = Ok () ∧
  printed (Legacy.check_diffs (machine_ex "mod_euler")) = [].
Proof.
  destruct (legacy_check_diffs (machine_ex "mod_euler")) as [_ Hrun].
  destruct Hrun as [Hresult Hprinted].
  - split_and!; apply has_keysb_true; evaluate.
  - split; [exact Hresult|]. rewrite Hprinted. evaluate.
Defined.
End FurtherWitnesses.

Section FurtherStator.
Local Open Scope R_scope.

(** X7.  Over the real numbers the closed forms [calc_currents] uses solve
    the stator equations [Eqp = Vq + Ra Iq + Xdp Id] and
    [Edp = Vd + Ra Id - Xqp Iq]: the coupled forms when [Ra] and the
    determinant [Xdp Xqp + Ra^2] are not zero, and the decoupled forms at
    [Ra = 0] when [Xdp] and [Xqp] are not zero. *)
Theorem stator_equations_solved (Ra Xdp Xqp E'q E'd Vd Vq : R) :
  (Ra ≠ 0 → Xdp * Xqp + Ra * Ra ≠ 0 →
   E'q = Vq + Ra * coupled_Iq Ra Xdp Xqp E'q E'd Vd Vq
         + Xdp * coupled_Id Ra Xqp E'd Vd
                   (coupled_Iq Ra Xdp Xqp E'q E'd Vd Vq) ∧
   E'd = Vd + Ra * coupled_Id Ra Xqp E'd Vd
                     (coupled_Iq Ra Xdp Xqp E'q E'd Vd Vq)
         - Xqp * coupled_Iq Ra Xdp Xqp E'q E'd Vd Vq) ∧
  (Xdp ≠ 0 → Xqp ≠ 0 →
   E'q = Vq + 0 * decoupled_Iq Xqp E'd Vd + Xdp * decoupled_Id Xdp E'q Vq ∧
   E'd = Vd + 0 * decoupled_Id Xdp E'q Vq - Xqp * decoupled_Iq Xqp E'd Vd).
Proof.
  split.
  - intros HRa Hdet. by apply coupled_currents_solve_stator.
  - intros Hd Hq.
    destruct (decoupled_currents_solve_stator Xdp Xqp E'q E'd Vd Vq Hd Hq)
      as [E1 E2].
    cbn in *. split; [rewrite E1 at 1 | rewrite E2 at 1]; ring.
Qed.

Lemma stator_equations_solved_witness :
  1 = 1 + 1 * coupled_Iq 1 1 1 1 0 0 1
      + 1 * coupled_Id 1 1 0 0 (coupled_Iq 1 1 1 1 0 0 1) ∧
  0 = 0 + 1 * coupled_Id 1 1 0 0 (coupled_Iq 1 1 1 1 0 0 1)
      - 1 * coupled_Iq 1 1 1 1 0 0 1.
Proof.
  destruct (stator_equations_solved 1 1 1 1 0 0 1) as [Hcoupled _].
  apply Hcoupled; lra.
Defined.
End FurtherStator.
(** * Failure and composition of the step integrator *)

Section IntegratorEdges.
Local Open Scope float_scope.

(** Settle the first read that is still open: when the entry is missing
    the call ends there. *)
Ltac missing_here :=
  eexists; split;
  [unfold solve_step; repeat step; reflexivity
  |cbn [fmap option_fmap option_map snd]; try reflexivity].

Ltac next_read d k :=
  destruct (d !! k) as [?|] eqn:?; cbn iota; [|by missing_here].

(** X8.  When a state, a parameter or a signal that [solve_step] reads is
    missing (for instance before [initialise]), the call raises and leaves
    the machine as it was, whatever the scheme and the stage.  The exception
    is the [KeyError] of the first missing entry in the order of the reads,
    with one exception: when the fourteen entries read before [1/(2*H)] are
    present, so that only [Pm] or [P] is missing, and [2 H] is zero, it is
    [ZeroDivisionError]. *)
Theorem solve_step_missing_input (h : float) (dstep : Z) (m : sym_order4) :
  ¬ steppable m →
  ∃ e, solve_step h dstep m = Run (Raise e) m [] ∧
       match first_missing (step_reads_first m) with
       | Some k => e = KeyError k
       | None =>
           if 2 * params m !!! "H" =? 0 then e = ZeroDivisionError
           else ∃ k, first_missing (step_reads_last m) = Some k ∧
                     e = KeyError k
       end.
Proof.
  intros Hn. unfold first_missing, step_reads_first, step_reads_last.
  cbn [find fst snd].
  next_read (states m) "omega". next_read (states m) "delta".
  next_read (states m) "Eqp". next_read (states m) "Edp".
  next_read (params m) "Xd". next_read (params m) "Xdp".
  next_read (params m) "Td0p". next_read (signals m) "Vfd".
  next_read (signals m) "Id". next_read (params m) "Xq".
  next_read (params m) "Xqp". next_read (params m) "Tq0p".
  next_read (signals m) "Iq".
  destruct (params m !! "H") as [H|] eqn:EH; cbn iota; [|by missing_here].
  cbn [fmap option_fmap option_map].
  rewrite (lookup_total_correct _ _ _ EH).
  destruct (2 * H =? 0) eqn:Ediv.
  - eexists. split; [|reflexivity].
    unfold solve_step. repeat step. unfold PyFloat.truediv. by rewrite Ediv.
  - destruct (signals m !! "Pm") as [?|] eqn:?; cbn iota.
    2:{ eexists. split; [|by eexists].
        unfold solve_step. repeat step. unfold PyFloat.truediv.
        rewrite Ediv. cbn iota. repeat step. reflexivity. }
    destruct (signals m !! "P") as [?|] eqn:?; cbn iota.
    2:{ eexists. split; [|by eexists].
        unfold solve_step. repeat step. unfold PyFloat.truediv.
        rewrite Ediv. cbn iota. repeat step. reflexivity. }
    exfalso. apply Hn.
    unfold steppable, has_keys, state_keys, step_signal_keys, step_param_keys.
    split_and!; repeat (apply Forall_cons; split); try apply Forall_nil;
      eauto.
Qed.

Lemma solve_step_missing_input_witness :
  solve_step 1 3 machine_massless_no_Pm
  = Run (Raise ZeroDivisionError) machine_massless_no_Pm [] ∧
  solve_step 1 0 (machine_new "mod_euler")
  = Run (Raise (KeyError "omega")) (machine_new "mod_euler") [].
Proof.
  split.
  - destruct (solve_step_missing_input 1 3 machine_massless_no_Pm)
      as (e & -> & He).
    + intros (_ & Hsignals & _).
      apply Forall_inv_tail, Forall_inv_tail, Forall_inv_tail in Hsignals.
      apply Forall_inv in Hsignals. destruct Hsignals as [x Hx].
      vm_compute in Hx. discriminate.
    + vm_compute in He. by rewrite He.
  - destruct (solve_step_missing_input 1 0 (machine_new "mod_euler"))
      as (e & -> & He).
    + intros [Hstates _].
      apply Forall_inv in Hstates. destruct Hstates as [x Hx].
      vm_compute in Hx. discriminate.
    + vm_compute in He. by rewrite He.
Defined.

(** X9.  When every entry [solve_step] reads is present and [2 H] is zero,
    the call raises [ZeroDivisionError] and leaves the machine as it was,
    whatever the scheme and the stage. *)
Theorem solve_step_zero_inertia (h : float) (dstep : Z) (m : sym_order4) :
  steppable m →
  (2 * params m !!! "H" =? 0) = true →
  solve_step h dstep m = Run (Raise ZeroDivisionError) m [].
Proof.
  unfold steppable, step_signal_keys, step_param_keys.
  intros (Hst & Hsg & Hpr) HH. unfold solve_step.
  repeat step. unfold PyFloat.truediv. by rewrite HH.
Qed.

Lemma solve_step_zero_inertia_witness :
  solve_step 1 0 machine_massless
  = Run (Raise ZeroDivisionError) machine_massless [].
Proof.
  apply solve_step_zero_inertia.
  - split_and!; apply has_keysb_true; evaluate.
  - evaluate.
Defined.

(** X10.  Modified Euler: the corrector (any stage index but 0) called on a
    ready machine whose predictor has not stored an increment for [Eqp]
    raises [KeyError] and leaves the machine as it was. *)
Theorem euler_corrector_needs_predictor
    (h : float) (dstep : Z) (m : sym_order4) :
  ready "mod_euler" m → dstep ≠ 0%Z → dsteps m !! "Eqp" = None →
  solve_step h dstep m = Run (Raise (KeyError "Eqp")) m [].
Proof.
  intros Hr Hd Hl. use_ready Hr. apply Z.eqb_neq in Hd.
  unfold solve_step. run_method. reflexivity.
Qed.

Lemma euler_corrector_needs_predictor_witness :
  solve_step 1 1 (machine_ex "mod_euler")
  = Run (Raise (KeyError "Eqp")) (machine_ex "mod_euler") [].
Proof.
  apply euler_corrector_needs_predictor;
    [evaluate_ready | discriminate | reflexivity].
Defined.

(** X11.  Runge-Kutta stage 3 called on a ready machine too early raises
    and leaves the machine as it was: [KeyError] when stage 0 has not saved
    [Eqp] in the snapshot, [IndexError] when the snapshot is there and the
    list of [Eqp] holds fewer than three increments. *)
Theorem rk_stage3_needs_history (h : float) (m : sym_order4) :
  ready "runge_kutta" m →
  (states0 m !! "Eqp" = None →
   solve_step h 3 m = Run (Raise (KeyError "Eqp")) m []) ∧
  (∀ l, is_Some (states0 m !! "Eqp") →
        dsteps m !! "Eqp" = Some l → (length l < 3)%nat →
        solve_step h 3 m = Run (Raise IndexError) m []).
Proof.
  intros Hr. use_ready Hr. split.
  - intros Hy. unfold solve_step. run_method. reflexivity.
  - intros l [y0 Hy] Hl Hlen. unfold solve_step.
    repeat (first [ step | known | branch ];
            try match goal with
                | Hk : l !! 2%nat = Some _ |- _ =>
                    apply lookup_lt_Some in Hk; lia
                end).
    all: reflexivity.
Qed.

Lemma rk_stage3_needs_history_witness :
  solve_step 1 3 (machine_ex "runge_kutta")
  = Run (Raise (KeyError "Eqp")) (machine_ex "runge_kutta") [] ∧
  solve_step 1 3 rk2 = Run (Raise IndexError) rk2 [].
Proof.
  split.
  - apply (rk_stage3_needs_history 1 (machine_ex "runge_kutta"));
      [evaluate_ready | reflexivity].
  - apply (rk_stage3_needs_history 1 rk2 ltac:(evaluate_ready))
      with (l := dsteps rk2 !!! "Eqp"); [by eexists | evaluate | ].
    vm_compute. lia.
Defined.

(** X12.  Runge-Kutta stages 1 and 2 called on a ready machine that has no
    list for [Eqp] raise [KeyError] after they have overwritten the state
    [Eqp]: the machine is left with that one state advanced and everything
    else as it was. *)
Theorem rk_middle_stage_half_done (h : float) (dstep : Z) (m : sym_order4) :
  ready "runge_kutta" m → dstep = 1%Z ∨ dstep = 2%Z →
  dsteps m !! "Eqp" = None →
  solve_step h dstep m
  = Run (Raise (KeyError "Eqp"))
      (with_states
         <["Eqp" := states m !!! "Eqp"
                    + (if (dstep =? 1)%Z then 0.5 * increment Eqp h m
                       else increment Eqp h m)]> m) [].
Proof.
  intros Hr Hd Hl. use_ready Hr.
  unfold solve_step. destruct Hd as [-> | ->]; run_method; reflexivity.
Qed.

Lemma rk_middle_stage_half_done_witness :
  solve_step 1 1 (machine_ex "runge_kutta")
  = Run (Raise (KeyError "Eqp"))
      (with_states <["Eqp" := 1]> (machine_ex "runge_kutta")) [].
Proof.
  rewrite (rk_middle_stage_half_done 1 1 (machine_ex "runge_kutta"));
    [|evaluate_ready|by left|reflexivity].
  evaluate.
Defined.

(** No call removes a state. *)
Lemma solve_step_keeps_state_keys
    (h : float) (dstep : Z) (m : sym_order4) (k : string) :
  is_Some (states m !! k) →
  is_Some (states (final (solve_step h dstep m)) !! k).
Proof.
  intros Hk. unfold solve_step. run_method.
  all: fields; repeat (apply lookup_insert_is_Some'; right); exact Hk.
Qed.

Lemma solve_step_keeps_ready
    (h : float) (dstep : Z) (m : sym_order4) (scheme : string) :
  ready scheme m → ready scheme (final (solve_step h dstep m)).
Proof.
  intros (Hopt & (Hst & Hsg & Hpr) & HH).
  destruct (solve_step_keeps h dstep m) as [(Es & Ep & Eo & _) _].
  unfold ready, initialised, inertia_ok. rewrite Es, Ep, Eo.
  split_and!; try done.
  unfold has_keys in *. rewrite Forall_forall in *.
  intros k Hk. by apply solve_step_keeps_state_keys, Hst.
Qed.

(** X13.  [solve_step] keeps a machine ready for the next call, whatever
    the stage index and whether it returns or raises: no state is ever
    removed, and a machine that is ready for a scheme is still ready for it
    after the call. *)
Theorem solve_step_preserves_ready
    (h : float) (dstep : Z) (m : sym_order4) (scheme : string) :
  (∀ k, is_Some (states m !! k) →
        is_Some (states (final (solve_step h dstep m)) !! k)) ∧
  (ready scheme m → ready scheme (final (solve_step h dstep m))).
Proof.
  split.
  - intros k. apply solve_step_keeps_state_keys.
  - apply solve_step_keeps_ready.
Qed.

Lemma solve_step_preserves_ready_witness : ready "runge_kutta" rk1.
Proof.
  apply (solve_step_preserves_ready 1 0 (machine_ex "runge_kutta")).
  evaluate_ready.
Defined.

(** A whole modified-Euler step: predictor, then corrector, with nothing
    in between. *)
Lemma euler_step_run (h : float) (m : sym_order4) :
  ready "mod_euler" m →
  ∃ m1 m2,
    solve_step h 0 m = Run (Ok ()) m1 [] ∧
    solve_step h 1 m1 = Run (Ok ()) m2 [] ∧
    (∀ v, states m2 !! key v
          = Some (states m !!! key v + increment v h m
                  + 0.5 * (increment v h m1 - increment v h m))) ∧
    (∀ v, dsteps m2 !! key v = Some [increment v h m]) ∧
    increment omega h m1 = increment omega h m.
Proof.
  intros Hr.
  pose proof (solve_step_keeps_ready h 0 m _ Hr) as Hr1.
  destruct (solve_step_keeps h 0 m) as [(Es & Ep & _ & Ew & _) _].
  destruct (euler_predictor_run h m Hr) as (m1 & E1 & Hs1 & Hd1).
  rewrite E1 in *. cbn [final] in *.
  destruct (euler_corrector_run h 1 m1 (λ v, increment v h m) (λ _, []) Hr1)
    as (m2 & E2 & Hs2 & Hd2); [done|done|].
  exists m1, m2. split_and!; [done|done| | |].
  - intros v. rewrite Hs2. by rewrite (lookup_total_correct _ _ _ (Hs1 v)).
  - intros v. by rewrite Hd2.
  - unfold increment, rhs. by rewrite Es, Ep.
Qed.

(** X14.  A whole modified-Euler step on a ready machine, the predictor
    followed at once by the corrector: both calls return, and every state
    variable ends at [(y + k0) + 0.5 (k1 - k0)], where [k0] is the
    increment at the start and [k1] the increment at the predicted state;
    the stored increment is still [k0]; and since the signals have not
    changed, the two increments of omega are the same. *)
Theorem euler_step (h : float) (m : sym_order4) :
  ready "mod_euler" m →
  let m1 := final (solve_step h 0 m) in
  let m2 := final (solve_step h 1 m1) in
  result (solve_step h 0 m) = Ok () ∧
  result (solve_step h 1 m1) = Ok () ∧
  (∀ v, states m2 !! key v
        = Some (states m !!! key v + increment v h m
                + 0.5 * (increment v h m1 - increment v h m))) ∧
  (∀ v, dsteps m2 !! key v = Some [increment v h m]) ∧
  increment omega h m1 = increment omega h m.
Proof.
  intros Hr. cbv zeta.
  destruct (euler_step_run h m Hr) as (m1 & m2 & -> & E2 & Hs & Hd & Ho).
  cbn [final result]. rewrite E2. by cbn [final result].
Qed.

Lemma euler_step_witness :
  states (final (solve_step 1 1 predicted_ex)) !! "delta"
  = Some (np_pi * 50).
Proof.
  destruct (euler_step 1 (machine_ex "mod_euler")) as (_ & _ & Hs & _);
    [evaluate_ready|].
  pose proof (Hs delta) as Hd. cbn [key] in Hd.
  unfold predicted_ex. rewrite Hd. evaluate.
Defined.

(** A whole Runge-Kutta macro step: the four stages in order, with nothing
    in between. *)
Lemma rk_step_run (h : float) (m : sym_order4) :
  ready "runge_kutta" m →
  ∃ m1 m2 m3 m4,
    solve_step h 0 m = Run (Ok ()) m1 [] ∧
    solve_step h 1 m1 = Run (Ok ()) m2 [] ∧
    solve_step h 2 m2 = Run (Ok ()) m3 [] ∧
    solve_step h 3 m3 = Run (Ok ()) m4 [] ∧
    (∀ v, states m1 !! key v
          = Some (states m !!! key v + 0.5 * increment v h m)) ∧
    (∀ v, states m2 !! key v
          = Some (states m !!! key v + 0.5 * increment v h m
                  + 0.5 * increment v h m1)) ∧
    (∀ v, states m3 !! key v
          = Some (states m !!! key v + 0.5 * increment v h m
                  + 0.5 * increment v h m1 + increment v h m2)) ∧
    (∀ v, states m4 !! key v
          = Some (states m !!! key v
                  + 1 / 6 * (increment v h m + 2 * increment v h m1
                             + 2 * increment v h m2 + increment v h m3))).
Proof.
  intros Hr.
  pose proof (solve_step_keeps_ready h 0 m _ Hr) as Hr1.
  destruct (rk_stage0_run h m Hr) as (m1 & E1 & H01 & Hs1 & Hd1).
  rewrite E1 in Hr1. cbn [final] in Hr1.
  pose proof (solve_step_keeps_ready h 1 m1 _ Hr1) as Hr2.
  destruct (rk_stage12_run h 1 m1 _ Hr1 (or_introl eq_refl) Hd1)
    as (m2 & E2 & Hs2 & Hd2 & H02).
  rewrite E2 in Hr2. cbn [final] in Hr2.
  pose proof (solve_step_keeps_ready h 2 m2 _ Hr2) as Hr3.
  destruct (rk_stage12_run h 2 m2 _ Hr2 (or_intror eq_refl) Hd2)
    as (m3 & E3 & Hs3 & Hd3 & H03).
  rewrite E3 in Hr3. cbn [final] in Hr3.
  destruct (rk_stage3_run h m3 (λ v, states m !!! key v)
              (λ v, increment v h m) (λ v, increment v h m1)
              (λ v, increment v h m2) (λ _, []) Hr3)
    as (m4 & E4 & Hs4 & _).
  { intros v. by rewrite H03, H02. }
  { intros v. by rewrite Hd3. }
  exists m1, m2, m3, m4. split_and!; try done.
  - intros v. rewrite Hs2. cbn.
    by rewrite (lookup_total_correct _ _ _ (Hs1 v)).
  - intros v. rewrite Hs3. cbn. rewrite (lookup_total_correct _ _ _ (Hs2 v)).
    cbn. by rewrite (lookup_total_correct _ _ _ (Hs1 v)).
Qed.

(** X15.  A whole Runge-Kutta macro step on a ready machine, stages 0 to 3
    one after the other: the four calls return; with [k1..k4] the
    increments the four stages compute, the state is [y0 + 0.5 k1] after
    stage 0, [y0 + 0.5 k1 + 0.5 k2] after stage 1 and
    [y0 + 0.5 k1 + 0.5 k2 + k3] after stage 2 (each stage adds to the state
    the preceding one left), and [y0 + 1/6 (k1 + 2 k2 + 2 k3 + k4)] after
    stage 3, where [y0] is the state at the start. *)
Theorem rk_step (h : float) (m : sym_order4) :
  ready "runge_kutta" m →
  let m1 := final (solve_step h 0 m) in
  let m2 := final (solve_step h 1 m1) in
  let m3 := final (solve_step h 2 m2) in
  let m4 := final (solve_step h 3 m3) in
  result (solve_step h 0 m) = Ok () ∧
  result (solve_step h 1 m1) = Ok () ∧
  result (solve_step h 2 m2) = Ok () ∧
  result (solve_step h 3 m3) = Ok () ∧
  (∀ v, states m1 !! key v
        = Some (states m !!! key v + 0.5 * increment v h m)) ∧
  (∀ v, states m2 !! key v
        = Some (states m !!! key v + 0.5 * increment v h m
                + 0.5 * increment v h m1)) ∧
  (∀ v, states m3 !! key v
        = Some (states m !!! key v + 0.5 * increment v h m
                + 0.5 * increment v h m1 + increment v h m2)) ∧
  (∀ v, states m4 !! key v
        = Some (states m !!! key v
                + 1 / 6 * (increment v h m + 2 * increment v h m1
                           + 2 * increment v h m2 + increment v h m3))).
Proof.
  intros Hr. cbv zeta.
  destruct (rk_step_run h m Hr)
    as (m1 & m2 & m3 & m4 & -> & E2 & E3 & E4 & H1 & H2 & H3 & H4).
  cbn [final result]. rewrite E2. cbn [final result]. rewrite E3.
  cbn [final result]. rewrite E4. by cbn [final result].
Qed.

Lemma rk_step_witness :
  states (final (solve_step 1 3 rk3)) !! "omega" = Some 2.
Proof.
  destruct (rk_step 1 (machine_ex "runge_kutta"))
    as (_ & _ & _ & _ & _ & _ & _ & Hs); [evaluate_ready|].
  pose proof (Hs omega) as Ho. cbn [key] in Ho.
  unfold rk3, rk2, rk1. rewrite Ho. evaluate.
Defined.
End IntegratorEdges.


(** * The swing equation in balance *)

Section Balance.
Local Open Scope float_scope.

Lemma swing_increments_zero (h : float) (m : sym_order4) (p : float) :
  states m !! "omega" = Some 1 →
  signals m !! "Pm" = Some p → signals m !! "P" = Some p →
  is_finite p = true → is_finite h = true →
  is_finite (1 / (2 * params m !!! "H")) = true →
  is_finite (omega_n m) = true →
  is_zero (increment omega h m) ∧ is_zero (increment delta h m).
Proof.
  intros Ho HPm HP Hp Hh Hr Hw. unfold increment, rhs.
  rewrite (lookup_total_correct _ _ _ Ho), (lookup_total_correct _ _ _ HPm),
    (lookup_total_correct _ _ _ HP).
  split; repeat (apply mul_zero_r; [done|]); by apply sub_self_zero.
Qed.

(** X16.  The swing equation in balance.  On a ready machine at
    synchronous speed ([omega = 1]) whose mechanical power equals its
    electrical power (the state [initialise] leaves), with finite [h],
    power, [1/(2H)] and [omega_n], stage 0 of either scheme returns, leaves
    omega at exactly 1 and leaves delta the same number. *)
Theorem swing_at_rest (h : float) (m : sym_order4) (scheme : string)
    (p : float) :
  ready scheme m →
  scheme = "mod_euler" ∨ scheme = "runge_kutta" →
  states m !! "omega" = Some 1 →
  signals m !! "Pm" = Some p → signals m !! "P" = Some p →
  is_finite p = true → is_finite h = true →
  is_finite (1 / (2 * params m !!! "H")) = true →
  is_finite (omega_n m) = true →
  result (solve_step h 0 m) = Ok () ∧
  states (final (solve_step h 0 m)) !! "omega" = Some 1 ∧
  same_number (states (final (solve_step h 0 m)) !!! "delta")
              (states m !!! "delta").
Proof.
  intros Hr Hs Ho HPm HP Hp Hh Hrf Hw.
  destruct (swing_increments_zero h m p) as [Zo Zd]; try done.
  destruct Hs as [-> | ->].
  - destruct (euler_predictor_run h m Hr) as (m' & -> & Hst & _).
    cbn [result final]. split; [done|].
    pose proof (Hst omega) as Eo. pose proof (Hst delta) as Ed.
    cbn [key] in *. rewrite Eo, (lookup_total_correct _ _ _ Ed).
    rewrite (lookup_total_correct _ _ _ Ho) in *.
    split; [|by apply add_zero_same].
    f_equal. by apply add_zero_exact.
  - destruct (rk_stage0_run h m Hr) as (m' & -> & _ & Hst & _).
    cbn [result final]. split; [done|].
    pose proof (Hst omega) as Eo. pose proof (Hst delta) as Ed.
    cbn [key] in *. rewrite Eo, (lookup_total_correct _ _ _ Ed).
    rewrite (lookup_total_correct _ _ _ Ho) in *.
    split.
    + f_equal. apply add_zero_exact; [|done]. by apply mul_zero_r.
    + apply add_zero_same. by apply mul_zero_r.
Qed.

Lemma swing_at_rest_witness :
  result (solve_step 0.25 0 (machine_rest "runge_kutta")) = Ok () ∧
  states (final (solve_step 0.25 0 (machine_rest "runge_kutta"))) !! "omega"
  = Some 1 ∧
  same_number
    (states (final (solve_step 0.25 0 (machine_rest "runge_kutta")))
     !!! "delta")
    (states (machine_rest "runge_kutta") !!! "delta").
Proof.
  apply (swing_at_rest 0.25 (machine_rest "runge_kutta") "runge_kutta" 0);
    [evaluate_ready | by right | evaluate..].
Defined.
End Balance.

(** * Failure and composition of the algebraic methods *)

(** The electrical residuals are read from these entries only. *)
Lemma rhs_electrical_ext (v : var) (m1 m2 : sym_order4) :
  v = Eqp ∨ v = Edp →
  params m1 = params m2 →
  (∀ k, k ∈ signal_keys → signals m1 !! k = signals m2 !! k) →
  (∀ k, k ∈ state_keys → states m1 !! k = states m2 !! k) →
  rhs v m1 = rhs v m2.
Proof.
  intros Hv Hp Hsg Hst. unfold rhs.
  assert (∀ k, k ∈ signal_keys → signals m1 !!! k = signals m2 !!! k) as Hsg'.
  { intros k Hk. unfold lookup_total, map_lookup_total. by rewrite Hsg. }
  assert (∀ k, k ∈ state_keys → states m1 !!! k = states m2 !!! k) as Hst'.
  { intros k Hk. unfold lookup_total, map_lookup_total. by rewrite Hst. }
  destruct Hv as [-> | ->]; rewrite Hp;
    repeat (first [ rewrite (Hsg' "Vfd") | rewrite (Hsg' "Id")
                  | rewrite (Hsg' "Iq") | rewrite (Hst' "Eqp")
                  | rewrite (Hst' "Edp") ]; [|by key_in]);
    reflexivity.
Qed.

(** The keys of a list, one by one, and the keys outside it. *)
Ltac each_key Hk tac :=
  repeat (apply elem_of_cons in Hk; destruct Hk as [-> | Hk]; [tac|]);
  by apply elem_of_nil in Hk.

Ltac no_key Hk :=
  repeat (apply not_elem_of_cons in Hk; destruct Hk as [? Hk]).

Ltac all_keys :=
  unfold has_keys, state_keys, signal_keys, current_state_keys,
    current_param_keys;
  repeat (apply Forall_cons; split); try apply Forall_nil.

Section AlgebraicEdges.
Context `{Libm} `{Numpy} `{Builtins}.
Local Open Scope float_scope.
Import PyComplex.

(** X17.  [calc_currents] is all or nothing.  It prints nothing, and a call
    that raises leaves the machine as it was.  It needs the states
    [delta], [Eqp], [Edp] and the parameters [Ra], [Xdp], [Xqp], and no
    signal: with them (and [Ra ** 2] in range when [Ra > 0]) it returns;
    when one of them is missing it raises [KeyError] on one of these
    keys. *)
Theorem calc_currents_all_or_nothing (vt : complex) (m : sym_order4) :
  printed (calc_currents vt m) = [] ∧
  (∀ e, result (calc_currents vt m) = Raise e →
        final (calc_currents vt m) = m) ∧
  (has_keys current_state_keys (states m) →
   has_keys current_param_keys (params m) →
   resistance_ok m →
   ∃ Im, result (calc_currents vt m) = Ok Im) ∧
  (¬ (has_keys current_state_keys (states m) ∧
      has_keys current_param_keys (params m)) →
   ∃ k, calc_currents vt m = Run (Raise (KeyError k)) m [] ∧
        k ∈ current_state_keys ++ current_param_keys).
Proof.
  split_and!.
  - unfold calc_currents. run_method. all: done.
  - unfold calc_currents. run_method. all: done.
  - unfold current_state_keys, current_param_keys, resistance_ok.
    intros Hst Hpr HRa. unfold calc_currents. do 3 step.
    destruct (0 <? params m !!! "Ra") eqn:ERa.
    + specialize (HRa eq_refl). run_method. by eexists.
    + run_method. by eexists.
  - intros Hn. unfold calc_currents. run_method.
    all: try (by eexists; split; [reflexivity|cbn; key_in]).
    all: exfalso; apply Hn; split; all_keys; eauto.
Qed.

(** [initialise] fills the signals and the states with values that depend
    on the parameters and on its arguments only. *)
Lemma initialise_fills (vt0 S0 : complex) (m1 m2 : sym_order4) :
  has_keys param_keys (params m1) →
  params m1 = params m2 →
  ∃ n1 n2,
    initialise vt0 S0 m1 = check_diffs n1 ∧
    initialise vt0 S0 m2 = check_diffs n2 ∧
    initialised n1 ∧ initialised n2 ∧
    params n1 = params n2 ∧
    (∀ k, k ∈ signal_keys → signals n1 !! k = signals n2 !! k) ∧
    (∀ k, k ∈ state_keys → states n1 !! k = states n2 !! k) ∧
    (∀ k, k ∉ signal_keys → signals n1 !! k = signals m1 !! k) ∧
    (∀ k, k ∉ state_keys → states n1 !! k = states m1 !! k).
Proof.
  intros Hpr1 Hp. assert (Hpr2 := Hpr1). rewrite Hp in Hpr2.
  unfold initialise. repeat step.
  do 2 eexists. split; [reflexivity|]. split; [reflexivity|].
  unfold initialised. fields. rewrite <- Hp.
  split_and!; try done.
  - all_keys; read_back; eauto.
  - all_keys; read_back; eauto.
  - all_keys; read_back; eauto.
  - all_keys; read_back; eauto.
  - intros k Hk. unfold signal_keys in Hk. each_key Hk ltac:(by read_back).
  - intros k Hk. unfold state_keys in Hk. each_key Hk ltac:(by read_back).
  - intros k Hk. unfold signal_keys in Hk. no_key Hk. by read_back.
  - intros k Hk. unfold state_keys in Hk. no_key Hk. by read_back.
Qed.

(** X18.  [initialise] forgets the previous operating point.  On two
    machines with the same parameters (all eight present) it returns, prints
    the same lines, and leaves the same nine signals and the same four
    states; every other signal or state of a machine is left as it was. *)
Theorem initialise_forgets (vt0 S0 : complex) (m1 m2 : sym_order4) :
  has_keys param_keys (params m1) →
  params m1 = params m2 →
  result (initialise vt0 S0 m1) = Ok () ∧
  result (initialise vt0 S0 m2) = Ok () ∧
  printed (initialise vt0 S0 m1) = printed (initialise vt0 S0 m2) ∧
  (∀ k, k ∈ signal_keys →
     signals (final (initialise vt0 S0 m1)) !! k
     = signals (final (initialise vt0 S0 m2)) !! k) ∧
  (∀ k, k ∈ state_keys →
     states (final (initialise vt0 S0 m1)) !! k
     = states (final (initialise vt0 S0 m2)) !! k) ∧
  (∀ k, k ∉ signal_keys →
     signals (final (initialise vt0 S0 m1)) !! k = signals m1 !! k) ∧
  (∀ k, k ∉ state_keys →
     states (final (initialise vt0 S0 m1)) !! k = states m1 !! k).
Proof.
  intros Hpr Hp.
  destruct (initialise_fills vt0 S0 m1 m2 Hpr Hp)
    as (n1 & n2 & -> & -> & Hi1 & Hi2 & Hp' & Hsg & Hst & Hsg' & Hst').
  rewrite (check_diffs_run n1 Hi1), (check_diffs_run n2 Hi2).
  cbn [result final printed]. split_and!; try done.
  by rewrite (rhs_electrical_ext Edp n1 n2), (rhs_electrical_ext Eqp n1 n2)
    by auto.
Qed.

(** [initialise] writes signals and states only. *)
Lemma initialise_frame (vt0 S0 : complex) (m : sym_order4) :
  opt (final (initialise vt0 S0 m)) = opt m ∧
  params (final (initialise vt0 S0 m)) = params m.
Proof. unfold initialise, check_diffs. run_method. all: done. Qed.

(** X20.  The exceptions of [__init__] once the file is parsed: by the
    outcome, the cause.  It returns exactly when [Ra], [Xdp] and [Xqp] are
    present, [Ra ** 2] does not raise and [Ra ** 2 + Xdp Xqp] is not zero,
    and the object then has empty signals, states, snapshot and lists, the
    parsed parameters, the scheme and [omega_n = 2 pi 50]; it raises
    [KeyError] on the first of the three that is missing (in the order
    [Ra], [Xdp], [Xqp] of the reads), [OverflowError] when [Ra ** 2] does,
    [ZeroDivisionError] when [Ra ** 2 + Xdp Xqp] is zero, and nothing else.
    [Ra ** 2] is the power of a Python float: its value is the one the C
    library's [pow] gives, not the rounded product [Ra * Ra]. *)
Theorem init_outcome (parsed : gmap string float) (iopt : string) :
  let Ra := parsed !!! "Ra" in
  let Xdp := parsed !!! "Xdp" in
  let Xqp := parsed !!! "Xqp" in
  let Ra2 := PyFloat.square Ra in
  match init parsed iopt with
  | Ok m =>
      has_keys current_param_keys parsed ∧ PyFloat.pow2 Ra = Ok Ra2 ∧
      (Ra2 + Xdp * Xqp =? 0) = false ∧
      signals m = ∅ ∧ states m = ∅ ∧ states0 m = ∅ ∧ dsteps m = ∅ ∧
      params m = parsed ∧ opt m = iopt ∧ omega_n m = 2 * np_pi * 50
  | Raise (KeyError k) =>
      parsed !! k = None ∧ k ∈ current_param_keys ∧
      first_missing [(parsed, "Ra"); (parsed, "Xdp"); (parsed, "Xqp")]
      = Some k
  | Raise OverflowError =>
      has_keys current_param_keys parsed ∧
      PyFloat.pow2 Ra = Raise OverflowError
  | Raise ZeroDivisionError =>
      has_keys current_param_keys parsed ∧ PyFloat.pow2 Ra = Ok Ra2 ∧
      (Ra2 + Xdp * Xqp =? 0) = true
  | Raise IndexError => False
  end.
Proof.
  cbv zeta. unfold first_missing.
  destruct (parsed !! "Ra") as [Ra|] eqn:ERa;
    [|by unfold init, mbind, outcome_bind, getitem; cbn; rewrite ERa;
         split_and!; [..|unfold current_param_keys; key_in|]].
  destruct (parsed !! "Xdp") as [Xdp|] eqn:EXdp;
    [|by unfold init, mbind, outcome_bind, getitem; cbn;
         rewrite ERa, EXdp;
         split_and!; [..|unfold current_param_keys; key_in|]].
  destruct (parsed !! "Xqp") as [Xqp|] eqn:EXqp;
    [|by unfold init, mbind, outcome_bind, getitem; cbn;
         rewrite ERa, EXdp, EXqp;
         split_and!; [..|unfold current_param_keys; key_in|]].
  rewrite (init_run _ _ _ _ _ ERa EXdp EXqp).
  rewrite (lookup_total_correct _ _ _ ERa), (lookup_total_correct _ _ _ EXdp),
    (lookup_total_correct _ _ _ EXqp).
  assert (Hk : has_keys current_param_keys parsed) by (all_keys; eauto).
  destruct (square_ok_dec Ra) as [Hsq|Hsq];
    [rewrite (pow2_ok _ Hsq) | by rewrite (pow2_raises _ Hsq)].
  unfold mbind, outcome_bind.
  destruct (PyFloat.square Ra + Xdp * Xqp =? 0) eqn:Ez.
  - by rewrite c_quot_real_raises.
  - destruct (c_quot_real_returns
                (c_diff (of_float Ra)
                   (c_prod (c_prod j (of_float 0.5)) (of_float (Xdp + Xqp))))
                _ Ez) as [z ->].
    by cbn.
Qed.
End AlgebraicEdges.


Section InitialiseEdges.
Context `{Numpy} `{Builtins}.
Local Open Scope float_scope.

(** [initialise] up to its residual check, on a machine and on the same
    machine with the two time constants set. *)
Lemma initialise_partial (vt0 S0 : complex) (m : sym_order4)
    (Td0p Tq0p : float) :
  has_keys ["Ra"; "Xq"; "Xdp"; "Xqp"; "Xd"] (params m) →
  let full :=
    Machine (signals m) (states m) (states0 m) (dsteps m)
            (<["Td0p" := Td0p]> (<["Tq0p" := Tq0p]> (params m)))
            (opt m) (omega_n m) (Yg m) in
  ∃ n n',
    initialise vt0 S0 m = check_diffs n ∧
    initialise vt0 S0 full = check_diffs n' ∧
    signals n' = signals n ∧ states n' = states n ∧
    params n = params m ∧ params n' = params full ∧
    has_keys signal_keys (signals n) ∧ has_keys state_keys (states n).
Proof.
  intros Hpr. cbv zeta. unfold initialise.
  repeat step.
  do 2 eexists. split; [reflexivity|]. split; [reflexivity|]. fields.
  split_and!; [done|done|done|done|all_keys; read_back; eauto..].
Qed.

Lemma check_diffs_returns (m : sym_order4) :
  has_keys signal_keys (signals m) → has_keys state_keys (states m) →
  has_keys ["Xd"; "Xdp"; "Td0p"; "Xq"; "Xqp"; "Tq0p"] (params m) →
  result (check_diffs m) = Ok ().
Proof.
  intros Hsg Hst Hpr. unfold check_diffs. run_method. all: done.
Qed.

(** X19.  [initialise] with a parameter missing.  When one of [Ra], [Xq],
    [Xdp], [Xqp], [Xd] is missing, the call raises [KeyError] on the first
    of them that is missing, in this order (the order of the reads), and
    leaves the machine as it was.  When these are present and [Td0p] or
    [Tq0p] is missing, the call raises [KeyError] from its residual check,
    on [Td0p] when that is missing and on [Tq0p] otherwise, after it has
    assigned the nine signals and the four states: the signals and the
    states it leaves are those a call leaves on the same machine with the
    two time constants set (to any values), which returns; the parameters
    are unchanged. *)
Theorem initialise_missing_parameter (vt0 S0 : complex) (m : sym_order4) :
  (¬ has_keys ["Ra"; "Xq"; "Xdp"; "Xqp"; "Xd"] (params m) →
   ∃ k, first_missing (initialise_reads m) = Some k ∧
        initialise vt0 S0 m = Run (Raise (KeyError k)) m []) ∧
  (has_keys ["Ra"; "Xq"; "Xdp"; "Xqp"; "Xd"] (params m) →
   ¬ has_keys ["Td0p"; "Tq0p"] (params m) →
   ∃ k m',
     first_missing (residual_reads m) = Some k ∧
     initialise vt0 S0 m = Run (Raise (KeyError k)) m' [] ∧
     has_keys signal_keys (signals m') ∧
     has_keys state_keys (states m') ∧
     params m' = params m ∧
     ∀ Td0p Tq0p,
       let full :=
         Machine (signals m) (states m) (states0 m) (dsteps m)
                 (<["Td0p" := Td0p]> (<["Tq0p" := Tq0p]> (params m)))
                 (opt m) (omega_n m) (Yg m) in
       result (initialise vt0 S0 full) = Ok () ∧
       signals m' = signals (final (initialise vt0 S0 full)) ∧
       states m' = states (final (initialise vt0 S0 full))).
Proof.
  split.
  - intros Hn. unfold first_missing, initialise_reads. cbn [find fst snd].
    (destruct (params m !! "Ra") as [?|] eqn:?; cbn iota;
      [|by eexists; split; [|unfold initialise; repeat step]]).
    destruct (params m !! "Xq") as [?|] eqn:?; cbn iota;
      [|by eexists; split; [|unfold initialise; repeat step]].
    destruct (params m !! "Xdp") as [?|] eqn:?; cbn iota;
      [|by eexists; split; [|unfold initialise; repeat step]].
    destruct (params m !! "Xqp") as [?|] eqn:?; cbn iota;
      [|by eexists; split; [|unfold initialise; repeat step]].
    (destruct (params m !! "Xd") as [?|] eqn:?; cbn iota;
      [|by eexists; split; [|unfold initialise; repeat step]]).
    exfalso. apply Hn. all_keys; eauto.
  - intros Hpr Hn.
    destruct (initialise_partial vt0 S0 m 0 0 Hpr)
      as (n & _ & En & _ & _ & _ & Epn & _ & Hsg & Hst).
    assert (Hfull : ∀ Td0p Tq0p,
      let full :=
        Machine (signals m) (states m) (states0 m) (dsteps m)
                (<["Td0p" := Td0p]> (<["Tq0p" := Tq0p]> (params m)))
                (opt m) (omega_n m) (Yg m) in
      result (initialise vt0 S0 full) = Ok () ∧
      signals n = signals (final (initialise vt0 S0 full)) ∧
      states n = states (final (initialise vt0 S0 full))).
    { intros Td0p Tq0p. cbv zeta.
      destruct (initialise_partial vt0 S0 m Td0p Tq0p Hpr)
        as (n0 & n' & En0 & -> & Esg & Est & _ & Epn' & Hsg0 & Hst0).
      assert (n0 = n) as ->.
      { rewrite En in En0. rewrite <- (check_diffs_keeps n),
          <- (check_diffs_keeps n0). by rewrite En0. }
      rewrite check_diffs_keeps. split_and!; [|done|done].
      apply check_diffs_returns.
      - by rewrite Esg.
      - by rewrite Est.
      - rewrite Epn'. fields.
        unfold has_keys in *.
        repeat (apply Forall_cons; split); try (by apply Forall_nil);
          read_back;
          first [ by eexists
                | by eapply (proj1 (Forall_forall _ _) Hpr); key_in ]. }
    rewrite En. unfold first_missing, residual_reads. cbn [find fst snd].
    assert (Hp : ∀ k, k ∈ ["Xd"; "Xdp"; "Xq"; "Xqp"] →
                      params n !! k = Some (params n !!! k)).
    { intros k Hk. rewrite Epn.
      apply (has_keys_lookup ["Ra"; "Xq"; "Xdp"; "Xqp"; "Xd"]); [done|].
      repeat (apply elem_of_cons in Hk; destruct Hk as [-> | Hk]);
        [key_in..|by apply elem_of_nil in Hk]. }
    pose proof (Hp "Xd" ltac:(key_in)). pose proof (Hp "Xdp" ltac:(key_in)).
    pose proof (Hp "Xq" ltac:(key_in)). pose proof (Hp "Xqp" ltac:(key_in)).
    clear Hp. rewrite <- Epn.
    destruct (params n !! "Td0p") as [Td|] eqn:ETd; cbn iota.
    + destruct (params n !! "Tq0p") as [Tq|] eqn:ETq; cbn iota.
      { exfalso. apply Hn. rewrite <- Epn. all_keys; eauto. }
      do 2 eexists. split; [reflexivity|].
      split; [unfold check_diffs; repeat step; reflexivity|].
      by rewrite Epn.
    + do 2 eexists. split; [reflexivity|].
      split; [unfold check_diffs; repeat step; reflexivity|].
      by rewrite Epn.
Qed.
End InitialiseEdges.

Lemma initialise_missing_parameter_witness :
  ∃ m',
    @initialise numpy_at_origin builtins_plain (Complex 1 0) (Complex 0 0)
      machine_no_Td0p = Run (Raise (KeyError "Td0p")) m' [] ∧
    signals m'
    = signals (final (@initialise numpy_at_origin builtins_plain
                        (Complex 1 0) (Complex 0 0)
                        (machine_new "mod_euler"))) ∧
    states m'
    = states (final (@initialise numpy_at_origin builtins_plain
                       (Complex 1 0) (Complex 0 0)
                       (machine_new "mod_euler"))).
Proof.
  destruct (@initialise_missing_parameter numpy_at_origin builtins_plain
              (Complex 1 0) (Complex 0 0) machine_no_Td0p) as [_ Hlate].
  destruct Hlate as (k & m' & Hk & Hrun & _ & _ & _ & Hfull).
  - apply has_keysb_true. evaluate.
  - intros Hkeys. apply Forall_inv in Hkeys. destruct Hkeys as [x Hx].
    vm_compute in Hx. discriminate.
  - vm_compute in Hk. injection Hk as <-.
    exists m'. split; [exact Hrun|].
    destruct (Hfull 8%float 0.75%float) as (_ & Hsignals & Hstates).
    split; [rewrite Hsignals | rewrite Hstates]; f_equal.
Defined.

Section AlgebraicEdgeWitnesses.
Local Open Scope float_scope.

Lemma calc_currents_all_or_nothing_witness :
  ∃ k, @calc_currents libm_rounded numpy_at_origin (Complex 1 0)
         (machine_new "mod_euler")
       = Run (Raise (KeyError k)) (machine_new "mod_euler") [] ∧
       k ∈ current_state_keys ++ current_param_keys.
Proof.
  destruct (@calc_currents_all_or_nothing libm_rounded numpy_at_origin
              (Complex 1 0) (machine_new "mod_euler"))
    as (_ & _ & _ & Hmissing).
  apply Hmissing. intros [Hstates _].
  apply Forall_inv in Hstates. destruct Hstates as [x Hx].
  vm_compute in Hx. discriminate.
Defined.

Lemma initialise_forgets_witness :
  signals (final (@initialise numpy_at_origin builtins_plain (Complex 1 0)
                    (Complex 0 0) (machine_new "mod_euler"))) !! "Id"
  = signals (final (@initialise numpy_at_origin builtins_plain (Complex 1 0)
                      (Complex 0 0) machine_history)) !! "Id".
Proof.
  destruct (@initialise_forgets numpy_at_origin builtins_plain (Complex 1 0)
              (Complex 0 0) (machine_new "mod_euler") machine_history)
    as (_ & _ & _ & Hsignals & _).
  - apply has_keysb_true. evaluate.
  - reflexivity.
  - apply Hsignals. key_in.
Defined.
End AlgebraicEdgeWitnesses.

(** * From the file to the first step *)

Lemma init_returns `{Libm} (parsed : gmap string float) (iopt : string)
    (m : sym_order4) :
  init parsed iopt = Ok m →
  params m = parsed ∧ opt m = iopt ∧ square_ok (parsed !!! "Ra").
Proof.
  destruct (parsed !! "Ra") as [Ra|] eqn:ERa;
    [|by unfold init, mbind, outcome_bind, getitem; rewrite ERa].
  destruct (parsed !! "Xdp") as [Xdp|] eqn:EXdp;
    [|by unfold init, mbind, outcome_bind, getitem; rewrite ERa, EXdp].
  destruct (parsed !! "Xqp") as [Xqp|] eqn:EXqp;
    [|by unfold init, mbind, outcome_bind, getitem;
         rewrite ERa, EXdp, EXqp].
  rewrite (init_run _ _ _ _ _ ERa EXdp EXqp).
  rewrite (lookup_total_correct _ _ _ ERa).
  destruct (square_ok_dec Ra) as [Hsq|Hsq];
    [rewrite (pow2_ok _ Hsq) | by rewrite (pow2_raises _ Hsq)].
  unfold mbind, outcome_bind.
  destruct (PyComplex.c_quot _ _); [|done].
  intros [= <-]. done.
Qed.

Section Lifecycle.
Context `{Libm} `{Numpy} `{Builtins} `{Conversions}.
Local Open Scope float_scope.

(** X21.  From the file to the first step.  When [sym_order4(filename,
    iopt)] returns a machine for one of the two schemes, the file has
    defined the eight parameters and [2 H] is not zero, then [initialise]
    returns and leaves the machine ready for the scheme, and on the
    initialised machine [calc_currents] returns for every voltage and stage
    0 of [solve_step] returns for every step size. *)
Theorem constructed_machine_runs
    (fs : gmap string string) (filename iopt : string) (m0 : sym_order4)
    (meta : option string * option Z) (vt0 S0 vt : complex) (h : float) :
  construct fs filename iopt = inr (m0, meta) →
  iopt = "mod_euler" ∨ iopt = "runge_kutta" →
  has_keys param_keys (params m0) →
  inertia_ok m0 →
  let m1 := final (initialise vt0 S0 m0) in
  result (initialise vt0 S0 m0) = Ok () ∧
  ready iopt m1 ∧
  (∃ Im, result (calc_currents vt m1) = Ok Im) ∧
  result (solve_step h 0 m1) = Ok ().
Proof.
  intros Hc Hs Hpr HH. cbv zeta.
  assert (Hinit : opt m0 = iopt ∧ square_ok (params m0 !!! "Ra")).
  { unfold construct in Hc.
    destruct (parser fs filename _) as [[e|] self]; [done|].
    destruct (init _ iopt) as [m|e] eqn:Em; [|done].
    destruct (init_returns _ _ _ Em) as (Ep & Eo & Hsq).
    injection Hc as -> _. by rewrite Ep. }
  destruct Hinit as [Hopt Hsq].
  destruct (initialise_frame vt0 S0 m0) as [Eo Ep].
  destruct (initialise_run vt0 S0 m0 Hpr) as (m' & E & Hi & _).
  rewrite E in *. rewrite (check_diffs_run m' Hi) in *.
  cbn [result final] in *.
  assert (Hr : ready iopt m').
  { unfold ready, inertia_ok in *. by rewrite Eo, Ep. }
  split_and!; [done|done| |].
  - rewrite (calc_currents_run vt m' Hi); [by eexists|].
    intros _. by rewrite Ep.
  - destruct Hs as [-> | ->].
    + by destruct (euler_predictor_run h m' Hr) as (? & -> & _).
    + by destruct (rk_stage0_run h m' Hr) as (? & -> & _).
Qed.
End Lifecycle.

Lemma constructed_machine_runs_witness :
  result (@initialise numpy_at_origin builtins_plain (Complex 1 0)
            (Complex 0 0) (machine_new "mod_euler")) = Ok () ∧
  ready "mod_euler"
    (final (@initialise numpy_at_origin builtins_plain (Complex 1 0)
              (Complex 0 0) (machine_new "mod_euler"))) ∧
  (∃ Im,
     result (@calc_currents libm_rounded numpy_at_origin (Complex 1 0)
               (final (@initialise numpy_at_origin builtins_plain
                         (Complex 1 0) (Complex 0 0)
                         (machine_new "mod_euler")))) = Ok Im) ∧
  result (solve_step 1
            0 (final (@initialise numpy_at_origin builtins_plain
                        (Complex 1 0) (Complex 0 0)
                        (machine_new "mod_euler")))) = Ok ().
Proof.
  apply (@constructed_machine_runs libm_rounded numpy_at_origin builtins_plain
           conversions_decimal fs_ex "gen1.mach" "mod_euler"
           (machine_new "mod_euler") (Some "GEN1", Some 0%Z)).
  - vm_compute. reflexivity.
  - by left.
  - apply has_keysb_true. evaluate.
  - evaluate.
Defined.

(** * The earlier copy: [initialise] and [calc_currents] *)

Section LegacyFacts.
Context `{Libm} `{Numpy}.
Local Open Scope float_scope.
Import PyComplex.

Ltac total_back :=
  repeat first [ rewrite lookup_total_insert_eq
               | rewrite lookup_total_insert_ne by done ].

(** The earlier [initialise] stores transient EMFs that make both
    residuals a difference of a number with itself. *)
Lemma legacy_initialise_run (vt0 S0 : complex) (m : sym_order4) :
  has_keys param_keys (params m) →
  ∃ m', Legacy.initialise vt0 S0 m = Legacy.check_diffs m' ∧
    initialised m' ∧ params m' = params m ∧
    rhs Eqp m' = (states m' !!! "Eqp" - states m' !!! "Eqp")
                 / params m !!! "Td0p" ∧
    rhs Edp m' = (states m' !!! "Edp" - states m' !!! "Edp")
                 / params m !!! "Tq0p".
Proof.
  intros Hpr. unfold Legacy.initialise. repeat step.
  eexists. split; [reflexivity|]. unfold initialised, rhs. fields.
  split_and!; [| |done|done| |].
  - all_keys; read_back; eauto.
  - all_keys; read_back; eauto.
  - total_back. reflexivity.
  - total_back. reflexivity.
Qed.

(** X22.  [initialise] of the earlier copy, on a machine whose eight
    parameters are loaded, returns and leaves an initialised machine; its
    exact residual check is silent exactly when the transient EMFs [Eqp]
    and [Edp] it has stored are finite and the time constants [Td0p] and
    [Tq0p] are numbers other than zero (each residual is then
    [(E - E) / T], a zero); otherwise it prints its line. *)
Theorem legacy_initialise_residuals (vt0 S0 : complex) (m : sym_order4) :
  has_keys param_keys (params m) →
  let m' := final (Legacy.initialise vt0 S0 m) in
  result (Legacy.initialise vt0 S0 m) = Ok () ∧
  initialised m' ∧
  printed (Legacy.initialise vt0 S0 m)
  = if is_finite (states m' !!! "Eqp") && is_finite (states m' !!! "Edp")
       && nonzero_number (params m !!! "Td0p")
       && nonzero_number (params m !!! "Tq0p")
    then []
    else ["Differential equations not zero on initialisation..."].
Proof.
  intros Hpr. cbv zeta.
  destruct (legacy_initialise_run vt0 S0 m Hpr)
    as (m' & -> & Hi & Hp & Eq & Ed).
  rewrite (legacy_check_diffs_run m' Hi), Eq, Ed, !self_residual.
  cbn [result final printed]. split_and!; [done|done|].
  by destruct (is_finite (states m' !!! "Eqp")),
    (is_finite (states m' !!! "Edp")),
    (nonzero_number (params m !!! "Td0p")),
    (nonzero_number (params m !!! "Tq0p")).
Qed.

(** The whole run of the earlier [calc_currents]. *)
Lemma legacy_calc_currents_run (vt : complex) (m : sym_order4) :
  has_keys current_state_keys (states m) →
  has_keys ["Xdp"; "Xqp"] (params m) →
  ∃ s',
    Legacy.calc_currents vt m
    = Run (Ok (np_true_divide
                 (c_prod (c_diff (of_float (states m !!! "Eqp"))
                                 (c_prod j (of_float (states m !!! "Edp"))))
                         (np_exp (c_prod j (of_float (states m !!! "delta")))))
                 (c_prod j (of_float (params m !!! "Xdp")))))
          (with_signals (λ _, s') m) [] ∧
    s' !! "Id" = Some (decoupled_Id (params m !!! "Xdp") (states m !!! "Eqp")
                                    (Vq_of vt m)) ∧
    s' !! "Iq" = Some (decoupled_Iq (params m !!! "Xqp") (states m !!! "Edp")
                                    (Vd_of vt m)) ∧
    s' !! "Vd" = Some (Vd_of vt m) ∧
    s' !! "Vq" = Some (Vq_of vt m) ∧
    s' !! "P" = Some (Vd_of vt m * s' !!! "Id" + Vq_of vt m * s' !!! "Iq") ∧
    s' !! "Q" = Some (Vq_of vt m * s' !!! "Id" - Vd_of vt m * s' !!! "Iq") ∧
    s' !! "Vt" = Some (PrimFloat.sqrt (PyFloat.np_square (Vd_of vt m)
                                       + PyFloat.np_square (Vq_of vt m))) ∧
    (∀ k, k ∉ ["Id"; "Iq"; "Vd"; "Vq"; "P"; "Q"; "Vt"] →
          s' !! k = signals m !! k).
Proof.
  unfold current_state_keys. intros Hst Hpr.
  unfold Legacy.calc_currents. repeat step.
  eexists. split; [unfold mret, M_ret; fields; f_equal|].
  fields. unfold Vd_of, Vq_of.
  split_and!; [total_back; by read_back..|].
  intros k Hk. no_key Hk. by read_back.
Qed.

(** X23.  [calc_currents] of the earlier copy needs the states [delta],
    [Eqp], [Edp] and the parameters [Xdp], [Xqp] only; it then returns the
    transient EMF [Eqp - j Edp], rotated by [exp(j delta)], over [j Xdp].
    It stores the same [Id], [Iq], [Vd], [Vq], [Q] and [Vt] as the newer
    version does when that one finds [Ra > 0] false, and the active power
    [Vd Id + Vq Iq], without the resistance terms of the newer version. *)
Theorem legacy_calc_currents (vt : complex) (m : sym_order4) :
  has_keys current_state_keys (states m) →
  has_keys current_param_keys (params m) →
  let old := Legacy.calc_currents vt m in
  let new := calc_currents vt m in
  result old
  = Ok (np_true_divide
          (c_prod (c_diff (of_float (states m !!! "Eqp"))
                          (c_prod j (of_float (states m !!! "Edp"))))
                  (np_exp (c_prod j (of_float (states m !!! "delta")))))
          (c_prod j (of_float (params m !!! "Xdp")))) ∧
  signals (final old) !! "P"
  = Some (Vd_of vt m * signals (final old) !!! "Id"
          + Vq_of vt m * signals (final old) !!! "Iq") ∧
  ((0 <? params m !!! "Ra") = false →
   ∀ k, k ∈ ["Id"; "Iq"; "Vd"; "Vq"; "Q"; "Vt"] →
        signals (final old) !! k = signals (final new) !! k).
Proof.
  intros Hst Hpr. cbv zeta.
  destruct (legacy_calc_currents_run vt m Hst)
    as (s' & -> & HId & HIq & HVd & HVq & HP & HQ & HVt & _).
  { unfold current_param_keys, has_keys in *.
    by apply Forall_inv_tail in Hpr. }
  cbn [result final signals with_signals]. split_and!; [done|done|].
  intros ERa k Hk.
  unfold current_state_keys, current_param_keys in *.
  unfold calc_currents. do 3 step. rewrite ERa. run_method.
  rewrite (lookup_total_correct _ _ _ HId), (lookup_total_correct _ _ _ HIq)
    in HQ.
  unfold decoupled_Id, decoupled_Iq, Vd_of, Vq_of in *.
  cbn [a_div a_sub float_arith] in *.
  unfold mret, M_ret. fields.
  each_key Hk ltac:(read_back; congruence).
Qed.
End LegacyFacts.

Section LegacyWitnesses.
Local Open Scope float_scope.

Lemma legacy_initialise_residuals_witness :
  result (@Legacy.initialise numpy_at_origin (Complex 1 0) (Complex 1 0)
            machine_xq0) = Ok () ∧
  printed (@Legacy.initialise numpy_at_origin (Complex 1 0) (Complex 1 0)
             machine_xq0) = [].
Proof.
  destruct (@legacy_initialise_residuals numpy_at_origin (Complex 1 0)
              (Complex 1 0) machine_xq0)
    as (Hresult & _ & Hprinted).
  - apply has_keysb_true. evaluate.
  - split; [exact Hresult|]. rewrite Hprinted. evaluate.
Defined.

Lemma legacy_calc_currents_witness :
  signals (final (@Legacy.calc_currents libm_rounded numpy_at_origin
                    (Complex 1 0) (machine_ex "mod_euler"))) !! "Id"
  = signals (final (@calc_currents libm_rounded numpy_at_origin (Complex 1 0)
                      (machine_ex "mod_euler"))) !! "Id".
Proof.
  destruct (@legacy_calc_currents libm_rounded numpy_at_origin (Complex 1 0)
              (machine_ex "mod_euler")) as (_ & _ & Hsame).
  - apply has_keysb_true. evaluate.
  - apply has_keysb_true. evaluate.
  - apply Hsame; [evaluate | key_in].
Defined.
End LegacyWitnesses.

(** * Reading the machine file *)

(** ** Strings *)

Section Chars.
Import PyStr.
#[local] Arguments isspace : simpl never.
#[local] Arguments rstrip_chars : simpl never.

Local Abbreviation chars := String.list_ascii_of_string.
Local Abbreviation str := String.string_of_list_ascii.

Lemma chars_app (s1 s2 : string) : chars (s1 +:+ s2) = chars s1 ++ chars s2.
Proof. induction s1 as [|c s1 IH]; [done|]. cbn. by rewrite <- IH. Qed.

Lemma chars_str (l : list Ascii.ascii) : chars (str l) = l.
Proof. apply String.list_ascii_of_string_of_list_ascii. Qed.

Lemma str_chars (s : string) : str (chars s) = s.
Proof. apply String.string_of_list_ascii_of_string. Qed.

Lemma str_nil (l : list Ascii.ascii) : str l = "" ↔ l = [].
Proof. by destruct l. Qed.

Lemma lstrip_chars_length (l : list Ascii.ascii) :
  length (lstrip_chars l) ≤ length l.
Proof.
  induction l as [|c l IH]; cbn; [done|]. destruct (isspace c); cbn; lia.
Qed.

Lemma rstrip_chars_length (l : list Ascii.ascii) :
  length (rstrip_chars l) ≤ length l.
Proof.
  unfold rstrip_chars. rewrite length_rev.
  etrans; [apply lstrip_chars_length|]. by rewrite length_rev.
Qed.

Lemma lstrip_chars_blank (w l : list Ascii.ascii) :
  forallb isspace w = true → lstrip_chars (w ++ l) = lstrip_chars l.
Proof.
  induction w as [|c w IH]; cbn; [done|].
  intros [-> Hw]%andb_true_iff. by apply IH.
Qed.

Lemma lstrip_chars_keep (x y : list Ascii.ascii) (c : Ascii.ascii) :
  isspace c = false →
  lstrip_chars (x ++ c :: y) = lstrip_chars x ++ c :: y.
Proof.
  intros Hc. induction x as [|d x IH]; cbn; [by rewrite Hc|].
  by destruct (isspace d).
Qed.

Lemma rstrip_chars_blank (l w : list Ascii.ascii) :
  forallb isspace w = true → rstrip_chars (l ++ w) = rstrip_chars l.
Proof.
  intros Hw. unfold rstrip_chars. rewrite rev_app_distr.
  rewrite lstrip_chars_blank; [done|].
  rewrite forallb_forall in *. intros c Hc. apply Hw. by apply in_rev.
Qed.

Lemma rstrip_chars_keep (x y : list Ascii.ascii) (c : Ascii.ascii) :
  isspace c = false →
  rstrip_chars (x ++ c :: y) = x ++ c :: rstrip_chars y.
Proof.
  intros Hc. unfold rstrip_chars.
  rewrite rev_app_distr. cbn. rewrite <- app_assoc. cbn.
  rewrite lstrip_chars_keep by done.
  rewrite rev_app_distr. cbn. by rewrite rev_involutive, <- app_assoc.
Qed.

Lemma blank_chars (s : string) :
  Line.blank s ↔ forallb isspace (chars s) = true.
Proof.
  unfold Line.blank, strip. rewrite str_nil.
  generalize (chars s) as l. clear s. intros l. split.
  - induction l as [|c l IH]; cbn; [done|].
    destruct (isspace c) eqn:Ec; [done|].
    change (c :: l) with ([] ++ c :: l). by rewrite rstrip_chars_keep.
  - intros Hl. rewrite <- (app_nil_r l) at 1.
    by rewrite lstrip_chars_blank.
Qed.

(** A trimmed string starts and ends with a character that is not a
    space, unless it is empty. *)
Lemma trimmed_chars (s : string) :
  Line.trimmed s →
  chars s = [] ∨
  (∃ c l, chars s = c :: l ∧ isspace c = false) ∧
  (∃ l c, chars s = l ++ [c] ∧ isspace c = false).
Proof.
  unfold Line.trimmed, strip. intros Hs.
  apply (f_equal chars) in Hs. rewrite chars_str in Hs.
  revert Hs. generalize (chars s) as l. clear s. intros l Hs.
  destruct l as [|c l]; [by left|right].
  assert (Hc : isspace c = false).
  { destruct (isspace c) eqn:Ec; [|done]. exfalso.
    apply (f_equal length) in Hs. cbn in Hs. rewrite Ec in Hs.
    pose proof (rstrip_chars_length (lstrip_chars l)).
    pose proof (lstrip_chars_length l). lia. }
  split; [by eauto|].
  cbn in Hs. rewrite Hc in Hs.
  destruct (rev (c :: l)) as [|d r] eqn:Er.
  { by apply (f_equal length) in Er; rewrite length_rev in Er. }
  assert (El : c :: l = rev r ++ [d]).
  { by rewrite <- (rev_involutive (c :: l)), Er. }
  exists (rev r), d. split; [done|].
  destruct (isspace d) eqn:Ed; [|done]. exfalso.
  unfold rstrip_chars in Hs. rewrite Er in Hs. cbn in Hs. rewrite Ed in Hs.
  apply (f_equal length) in Hs. rewrite length_rev in Hs.
  pose proof (lstrip_chars_length r).
  apply (f_equal length) in Er. rewrite length_rev in Er. cbn in *. lia.
Qed.

(** Stripping a trimmed string padded with blanks gives the string. *)
Lemma strip_padded (w1 s w2 : string) :
  Line.blank w1 → Line.blank w2 → Line.trimmed s →
  strip (w1 +:+ s +:+ w2) = s.
Proof.
  intros Hw1%blank_chars Hw2%blank_chars Hs.
  destruct (trimmed_chars s Hs) as [E|[(c & l & E & Hc) (l' & c' & E' & Hc')]].
  - unfold strip. rewrite !chars_app, E. cbn.
    rewrite lstrip_chars_blank by done.
    rewrite <- (app_nil_r (chars w2)), lstrip_chars_blank by done. cbn.
    rewrite <- (str_chars s), E. done.
  - unfold strip. rewrite !chars_app, lstrip_chars_blank by done.
    assert (Hl : lstrip_chars (chars s ++ chars w2) = chars s ++ chars w2).
    { rewrite E. cbn. by rewrite Hc. }
    rewrite Hl, rstrip_chars_blank by done.
    assert (Hr : rstrip_chars (chars s) = chars s).
    { rewrite E'. by rewrite rstrip_chars_keep. }
    rewrite Hr. apply str_chars.
Qed.

Lemma split_chars_nonempty sep (l : list Ascii.ascii) :
  split_chars sep l ≠ [].
Proof.
  induction l as [|c l IH]; cbn; [done|].
  destruct (Ascii.eqb c sep); [done|]. by destruct (split_chars sep l).
Qed.

Lemma split_chars_none sep (l : list Ascii.ascii) :
  existsb (Ascii.eqb sep) l = false → split_chars sep l = [l].
Proof.
  induction l as [|c l IH]; cbn; [done|].
  intros [Hc Hl]%orb_false_iff. rewrite Ascii.eqb_sym, Hc.
  by rewrite IH.
Qed.

Lemma split_chars_first sep (t r : list Ascii.ascii) :
  existsb (Ascii.eqb sep) t = false →
  split_chars sep (t ++ sep :: r) = t :: split_chars sep r.
Proof.
  induction t as [|c t IH]; cbn.
  - intros _. by rewrite Ascii.eqb_refl.
  - intros [Hc Ht]%orb_false_iff. rewrite Ascii.eqb_sym, Hc.
    by rewrite IH.
Qed.

Lemma lstrip_chars_sub (l : list Ascii.ascii) c :
  In c (lstrip_chars l) → In c l.
Proof.
  induction l as [|d l IH]; cbn; [done|].
  destruct (isspace d); cbn; tauto.
Qed.

Lemma strip_chars_sub (l : list Ascii.ascii) c :
  In c (rstrip_chars (lstrip_chars l)) → In c l.
Proof.
  unfold rstrip_chars. rewrite <- in_rev. intros Hc%lstrip_chars_sub.
  rewrite <- in_rev in Hc. by apply lstrip_chars_sub.
Qed.

Lemma contains_strip sep (s : string) :
  Line.contains sep s = false → Line.contains sep (strip s) = false.
Proof.
  unfold Line.contains, strip. rewrite chars_str.
  intros Hs. apply not_true_is_false. intros Hc.
  apply existsb_exists in Hc as (c & Hin & Hc).
  apply strip_chars_sub in Hin.
  assert (existsb (Ascii.eqb (char sep)) (chars s) = true); [|congruence].
  apply existsb_exists. eauto.
Qed.

Lemma blank_no_equals (w : string) :
  Line.blank w → Line.contains "=" w = false.
Proof.
  intros Hw%blank_chars. unfold Line.contains.
  apply not_true_is_false. intros Hc.
  apply existsb_exists in Hc as (c & Hin & Hc).
  apply Ascii.eqb_eq in Hc. subst c.
  rewrite forallb_forall in Hw. by specialize (Hw _ Hin).
Qed.

Lemma first_char (line : string) :
  line ≠ "" →
  ∃ c, str_getitem line 0 = inr c ∧
       String.eqb c "#" = String.prefix "#" line.
Proof.
  destruct line as [|a s]; [done|]. intros _. eexists. split; [done|].
  change (String.prefix "#" (String a s))
    with (if Ascii.ascii_dec (char "#") a then String.prefix "" s else false).
  change (String.eqb (String a "") "#") with (Ascii.eqb a (char "#") && true).
  rewrite andb_true_r.
  destruct (Ascii.ascii_dec (char "#") a) as [<-|Hne].
  - by destruct s.
  - apply Ascii.eqb_neq. congruence.
Qed.

Lemma append_nil_r (s : string) : s +:+ "" = s.
Proof.
  induction s as [|c s IH]; [done|].
  change (String c (s +:+ "") = String c s). by rewrite IH.
Qed.

Lemma rstrip_chars_only_blank (w : list Ascii.ascii) :
  forallb isspace w = true → rstrip_chars w = [].
Proof. intros Hw. by rewrite <- (app_nil_l w), rstrip_chars_blank. Qed.

(** The tokens of a line [key = value], with blanks around the key and
    the value and, possibly, a second [=] and more after the value. *)
Lemma assignment_tokens (ws1 k ws2 ws3 v ws4 tail : string) :
  Line.blank ws1 → Line.blank ws2 → Line.blank ws3 → Line.blank ws4 →
  k ≠ "" → Line.trimmed k → Line.trimmed v →
  Line.contains "=" k = false → Line.contains "=" v = false →
  tail = "" ∨ (∃ rest, tail = "=" +:+ rest) →
  let line := ws1 +:+ k +:+ ws2 +:+ "=" +:+ ws3 +:+ v +:+ ws4 +:+ tail in
  line ≠ "" ∧ String.eqb (strip line) "" = false ∧
  ∃ t0 t1 more,
    split "=" (strip line) = t0 :: t1 :: more ∧
    strip t0 = k ∧ strip t1 = v.
Proof.
  intros B1 B2 B3 B4 Hk Tk Tv Ek Ev Htail line.
  pose proof B1 as W1%blank_chars. pose proof B2 as W2%blank_chars.
  pose proof B3 as W3%blank_chars. pose proof B4 as W4%blank_chars.
  destruct (trimmed_chars k Tk) as [E|[(c & K' & E & Hc) _]].
  { by rewrite <- (str_chars k), E in Hk. }
  assert (Hline : chars line
                  = chars ws1 ++ chars k ++ chars ws2
                    ++ char "=" :: chars ws3 ++ chars v ++ chars ws4
                    ++ chars tail).
  { unfold line. by rewrite !chars_app. }
  assert (Heq : isspace (char "=") = false) by done.
  set (Z := chars ws3 ++ chars v ++ chars ws4 ++ chars tail) in *.
  assert (Hstrip : chars (strip line)
                   = (chars k ++ chars ws2) ++ char "=" :: rstrip_chars Z).
  { unfold strip. rewrite chars_str, Hline.
    rewrite lstrip_chars_blank by done.
    assert (Hl : ∀ r, lstrip_chars (chars k ++ r) = chars k ++ r).
    { intros r. rewrite E. cbn. by rewrite Hc. }
    rewrite Hl, app_assoc. by rewrite rstrip_chars_keep. }
  split; [|split].
  - intros El. apply (f_equal chars) in El. rewrite Hline, E in El.
    by destruct (chars ws1).
  - apply String.eqb_neq. intros El. apply (f_equal chars) in El.
    rewrite Hstrip, E in El. done.
  - assert (Hz : ∃ t1 more,
              split_chars (char "=") (rstrip_chars Z) = t1 :: more ∧
              strip (str t1) = v).
    { unfold Z. destruct Htail as [-> | [rest ->]].
      - change (chars "") with (@nil Ascii.ascii).
        rewrite app_nil_r, app_assoc, rstrip_chars_blank by done.
        destruct (trimmed_chars v Tv)
          as [Ev0|[_ (V' & c' & Ev' & Hc')]].
        + rewrite Ev0, app_nil_r, rstrip_chars_only_blank by done.
          exists [], []. split; [done|].
          rewrite <- (str_chars v), Ev0. done.
        + rewrite Ev', app_assoc, rstrip_chars_keep by done.
          change (rstrip_chars []) with (@nil Ascii.ascii).
          rewrite <- app_assoc, <- Ev'.
          exists (chars ws3 ++ chars v), []. split.
          * apply split_chars_none. rewrite existsb_app.
            apply blank_no_equals in B3. unfold Line.contains in *.
            by rewrite B3, Ev.
          * rewrite <- chars_app, str_chars.
            rewrite <- (append_nil_r v) at 1.
            by apply strip_padded.
      - change (chars ("=" +:+ rest)) with (char "=" :: chars rest).
        rewrite 2!app_assoc, rstrip_chars_keep by done.
        eexists _, _. split.
        + apply split_chars_first. rewrite !existsb_app.
          apply blank_no_equals in B3, B4. unfold Line.contains in *.
          by rewrite B3, B4, Ev.
        + rewrite <- app_assoc, <- !chars_app, str_chars.
          by apply strip_padded. }
    destruct Hz as (t1 & more & Hsplit & Ht1).
    exists (k +:+ ws2), (str t1), (map str more). split_and!; [|  |done].
    + unfold split. rewrite Hstrip.
      rewrite split_chars_first, Hsplit.
      * cbn [map]. by rewrite <- chars_app, str_chars.
      * rewrite existsb_app. apply blank_no_equals in B2.
        unfold Line.contains in *. by rewrite B2, Ek.
    + change (k +:+ ws2) with ("" +:+ k +:+ ws2). by apply strip_padded.
Qed.
End Chars.

(** ** Lines *)

Section ParserFacts.
Context `{Conversions}.
Import PyStr.
#[local] Arguments strip : simpl never.
#[local] Arguments split : simpl never.

Lemma parse_lines_app (l1 l2 : list string) (self : loaded) :
  parse_lines (l1 ++ l2) self
  = match parse_lines l1 self with
    | (None, self') => parse_lines l2 self'
    | failed => failed
    end.
Proof.
  revert self. induction l1 as [|line l1 IH]; intros self; cbn; [done|].
  destruct (parse_line line self); [done|]. apply IH.
Qed.

Lemma parse_line_skipped (line : string) (self : loaded) :
  Line.skipped line → parse_line line self = inr self.
Proof.
  intros [Hne Hs]. unfold parse_line.
  destruct (first_char line Hne) as (c & -> & Hc). cbn.
  destruct Hs as [Hs|Hs].
  - by rewrite Hc, Hs.
  - unfold Line.blank in Hs. rewrite Hs. by rewrite andb_false_r.
Qed.

Lemma parse_line_no_equals (line : string) (self : loaded) :
  String.prefix "#" line = false → ¬ Line.blank line →
  Line.contains "=" line = false →
  parse_line line self = inl (Base IndexError).
Proof.
  intros Hp Hb Hc. unfold parse_line.
  assert (Hne : line ≠ "") by (by intros ->; apply Hb).
  destruct (first_char line Hne) as (c & -> & Ec). cbn.
  rewrite Ec, Hp. apply String.eqb_neq in Hb. rewrite Hb. cbn.
  apply contains_strip in Hc. unfold Line.contains in Hc.
  unfold split. rewrite (split_chars_none _ _ Hc). cbn.
  by repeat case_match.
Qed.

Lemma parse_line_assignment (ws1 k ws2 ws3 v ws4 tail : string)
    (self : loaded) :
  Line.blank ws1 → Line.blank ws2 → Line.blank ws3 → Line.blank ws4 →
  k ≠ "" → Line.trimmed k → Line.trimmed v →
  Line.contains "=" k = false → Line.contains "=" v = false →
  tail = "" ∨ (∃ rest, tail = "=" +:+ rest) →
  let line := ws1 +:+ k +:+ ws2 +:+ "=" +:+ ws3 +:+ v +:+ ws4 +:+ tail in
  String.prefix "#" line = false →
  parse_line line self
  = if String.eqb k "ID" then
      inr (Loaded (loaded_params self) (Some v) (loaded_gen_no self))
    else if String.eqb k "GEN_NO" then
      n ← convert py_int v;
      mret (Loaded (loaded_params self) (loaded_id self) (Some n))
    else
      x ← convert py_float v;
      mret (Loaded (<[k := x]> (loaded_params self))
                   (loaded_id self) (loaded_gen_no self)).
Proof.
  intros B1 B2 B3 B4 Hk Tk Tv Ek Ev Htail line Hp.
  destruct (assignment_tokens ws1 k ws2 ws3 v ws4 tail)
    as (Hne & Hb & t0 & t1 & more & Hsplit & Ht0 & Ht1); try done.
  fold line in Hne, Hb, Hsplit. unfold parse_line.
  destruct (first_char line Hne) as (c & -> & Ec). cbn.
  rewrite Ec, Hp, Hb, Hsplit. cbn. rewrite Ht0, Ht1.
  destruct (String.eqb k "ID"); [done|].
  destruct (String.eqb k "GEN_NO"); [done|].
  by destruct (convert py_float v).
Qed.

Lemma legacy_parse_lines_app (l1 l2 : list string) (p : gmap string float) :
  Legacy.parse_lines (l1 ++ l2) p
  = match Legacy.parse_lines l1 p with
    | (None, p') => Legacy.parse_lines l2 p'
    | failed => failed
    end.
Proof.
  revert p. induction l1 as [|line l1 IH]; intros p; cbn; [done|].
  destruct (Legacy.parse_line line p); [done|]. apply IH.
Qed.

Lemma legacy_parse_line_skipped (line : string) (p : gmap string float) :
  Line.skipped line → Legacy.parse_line line p = inr p.
Proof.
  intros [Hne Hs]. unfold Legacy.parse_line.
  destruct (first_char line Hne) as (c & -> & Hc). cbn.
  destruct Hs as [Hs|Hs].
  - by rewrite Hc, Hs.
  - unfold Line.blank in Hs. rewrite Hs. by rewrite andb_false_r.
Qed.

Lemma legacy_parse_line_assignment (ws1 k ws2 ws3 v ws4 tail : string)
    (p : gmap string float) :
  Line.blank ws1 → Line.blank ws2 → Line.blank ws3 → Line.blank ws4 →
  k ≠ "" → Line.trimmed k → Line.trimmed v →
  Line.contains "=" k = false → Line.contains "=" v = false →
  tail = "" ∨ (∃ rest, tail = "=" +:+ rest) →
  let line := ws1 +:+ k +:+ ws2 +:+ "=" +:+ ws3 +:+ v +:+ ws4 +:+ tail in
  String.prefix "#" line = false →
  Legacy.parse_line line p = (x ← convert py_float v; mret (<[k := x]> p)).
Proof.
  intros B1 B2 B3 B4 Hk Tk Tv Ek Ev Htail line Hp.
  destruct (assignment_tokens ws1 k ws2 ws3 v ws4 tail)
    as (Hne & Hb & t0 & t1 & more & Hsplit & Ht0 & Ht1); try done.
  fold line in Hne, Hb, Hsplit. unfold Legacy.parse_line.
  destruct (first_char line Hne) as (c & -> & Ec). cbn.
  rewrite Ec, Hp, Hb, Hsplit. cbn. rewrite Ht0, Ht1.
  by destruct (convert py_float v).
Qed.

(** On a line that is not a header line the two parsers do the same. *)
Lemma parse_line_legacy (line : string) (p : gmap string float)
    (i : option string) (g : option Z) :
  Line.name line ≠ Some "ID" → Line.name line ≠ Some "GEN_NO" →
  parse_line line (Loaded p i g)
  = (p' ← Legacy.parse_line line p; mret (Loaded p' i g)).
Proof.
  unfold Line.name, parse_line, Legacy.parse_line. intros HID HGEN.
  destruct (decide (line = "")) as [->|Hne]; [done|].
  destruct (first_char line Hne) as (c & -> & Ec). cbn.
  rewrite Ec.
  destruct (String.prefix "#" line); cbn; [reflexivity|].
  destruct (String.eqb (strip line) ""); cbn; [reflexivity|].
  cbn in *. destruct (split "=" (strip line)) as [|t0 [|t1 more]] eqn:Es.
  - done.
  - cbn in *. by repeat case_match.
  - cbn in *.
    destruct (String.eqb (strip t0) "ID") eqn:E1.
    { apply String.eqb_eq in E1. by rewrite E1 in HID. }
    destruct (String.eqb (strip t0) "GEN_NO") eqn:E2.
    { apply String.eqb_eq in E2. by rewrite E2 in HGEN. }
    by destruct (convert py_float (strip t1)).
Qed.

Lemma parse_lines_legacy (lines : list string) (p : gmap string float)
    (i : option string) (g : option Z) :
  Forall (λ line, Line.name line ≠ Some "ID"
                  ∧ Line.name line ≠ Some "GEN_NO") lines →
  parse_lines lines (Loaded p i g)
  = ((Legacy.parse_lines lines p).1,
     Loaded (Legacy.parse_lines lines p).2 i g).
Proof.
  intros Hl. revert p. induction Hl as [|line lines [H1 H2] _ IH]; intros p.
  - done.
  - cbn. rewrite (parse_line_legacy line p i g H1 H2).
    destruct (Legacy.parse_line line p) as [e|p']; cbn; [done|]. apply IH.
Qed.
End ParserFacts.

(** ** The parser *)

Section ParserClaims.
Context `{Conversions}.

(** X24.  Comments and blank lines are ignored.  Adding or removing, at
    any place in the file, a line that starts with [#] or holds only
    whitespace changes nothing in what [parser] does, in either copy of
    the class. *)
Theorem parser_skips_comments (l1 l2 : list string) (line : string)
    (self : loaded) (p : gmap string float) :
  Line.skipped line →
  parse_lines (l1 ++ line :: l2) self = parse_lines (l1 ++ l2) self ∧
  Legacy.parse_lines (l1 ++ line :: l2) p = Legacy.parse_lines (l1 ++ l2) p.
Proof.
  intros Hs. rewrite !parse_lines_app, !legacy_parse_lines_app. cbn.
  split.
  - destruct (parse_lines l1 self) as [[e|] self']; [done|].
    by rewrite (parse_line_skipped line self' Hs).
  - destruct (Legacy.parse_lines l1 p) as [[e|] p']; [done|].
    by rewrite (legacy_parse_line_skipped line p' Hs).
Qed.

(** X25.  A line [name = value].  Take a line made of a name and a value
    that have no [=] and no whitespace at their ends (the name not empty),
    with any whitespace before the name, around the [=] and after the
    value, and then nothing more or a second [=] followed by anything; let
    it not start with [#].  On it the loop of [parser] stores the value
    as the [id] when the name is [ID]; converts it with [int] and stores
    it as [gen_no] when the name is [GEN_NO]; and otherwise converts it
    with [float] and assigns it to the parameter of that name.  A value
    the conversion rejects raises [ValueError]; what follows a second [=]
    is ignored. *)
Theorem parser_assignment (ws1 k ws2 ws3 v ws4 tail : string)
    (self : loaded) :
  Line.blank ws1 → Line.blank ws2 → Line.blank ws3 → Line.blank ws4 →
  k ≠ "" → Line.trimmed k → Line.trimmed v →
  Line.contains "=" k = false → Line.contains "=" v = false →
  tail = "" ∨ (∃ rest, tail = "=" +:+ rest) →
  let line := ws1 +:+ k +:+ ws2 +:+ "=" +:+ ws3 +:+ v +:+ ws4 +:+ tail in
  String.prefix "#" line = false →
  parse_line line self
  = if String.eqb k "ID" then
      inr (Loaded (loaded_params self) (Some v) (loaded_gen_no self))
    else if String.eqb k "GEN_NO" then
      n ← convert py_int v;
      mret (Loaded (loaded_params self) (loaded_id self) (Some n))
    else
      x ← convert py_float v;
      mret (Loaded (<[k := x]> (loaded_params self))
                   (loaded_id self) (loaded_gen_no self)).
Proof. apply parse_line_assignment. Qed.

(** X26.  A line without [=].  A line that does not start with [#], is
    not blank and holds no [=] (an indented comment, for instance) makes
    [parser] raise [IndexError]: the lines after it are not read, and the
    object keeps what the lines before it assigned. *)
Theorem parser_line_without_equals (l1 l2 : list string) (line : string)
    (self : loaded) :
  String.prefix "#" line = false → ¬ Line.blank line →
  Line.contains "=" line = false →
  parse_lines (l1 ++ line :: l2) self
  = match parse_lines l1 self with
    | (None, self') => (Some (Base IndexError), self')
    | failed => failed
    end.
Proof.
  intros Hp Hb Hc. rewrite parse_lines_app.
  destruct (parse_lines l1 self) as [[e|] self']; [done|]. cbn.
  by rewrite (parse_line_no_equals line self' Hp Hb Hc).
Qed.

(** X27.  The two parsers agree on a file without header lines.  When no
    line of the file assigns to [ID] or to [GEN_NO], the newer [parser]
    ends as the earlier one does (normally, or on the same exception), with
    the same parameters, and leaves [id] and [gen_no] as they were. *)
Theorem legacy_parser_agrees (lines : list string) (p : gmap string float)
    (i : option string) (g : option Z) :
  Forall (λ line, Line.name line ≠ Some "ID"
                  ∧ Line.name line ≠ Some "GEN_NO") lines →
  parse_lines lines (Loaded p i g)
  = ((Legacy.parse_lines lines p).1,
     Loaded (Legacy.parse_lines lines p).2 i g).
Proof. apply parse_lines_legacy. Qed.

(** X28.  The earlier [parser] has no header lines: on a line
    [name = value] of the shape above it converts the value with [float]
    and assigns it to the parameter of that name, whatever the name, [ID]
    and [GEN_NO] included. *)
Theorem legacy_parser_assignment (ws1 k ws2 ws3 v ws4 tail : string)
    (p : gmap string float) :
  Line.blank ws1 → Line.blank ws2 → Line.blank ws3 → Line.blank ws4 →
  k ≠ "" → Line.trimmed k → Line.trimmed v →
  Line.contains "=" k = false → Line.contains "=" v = false →
  tail = "" ∨ (∃ rest, tail = "=" +:+ rest) →
  let line := ws1 +:+ k +:+ ws2 +:+ "=" +:+ ws3 +:+ v +:+ ws4 +:+ tail in
  String.prefix "#" line = false →
  Legacy.parse_line line p = (x ← convert py_float v; mret (<[k := x]> p)).
Proof. apply legacy_parse_line_assignment. Qed.
End ParserClaims.

Section ParserWitnesses.
Local Open Scope float_scope.

Lemma parser_skips_comments_witness :
  @parse_lines conversions_decimal file_ex (Loaded ∅ None None)
  = @parse_lines conversions_decimal (tail file_ex) (Loaded ∅ None None).
Proof.
  destruct (@parser_skips_comments conversions_decimal [] (tail file_ex)
              ("# 4th order machine" +:+ String PyStr.newline "")
              (Loaded ∅ None None) ∅) as [Hnew _].
  - split; [discriminate|]. by left.
  - exact Hnew.
Defined.

Lemma parser_assignment_witness :
  @parse_line conversions_decimal
    (" " +:+ "Xdp" +:+ "" +:+ "=" +:+ "" +:+ "0.25"
     +:+ (" " +:+ String PyStr.newline "") +:+ "")
    (Loaded ∅ None None)
  = inr (Loaded {[ "Xdp" := 0.25 ]} None None).
Proof.
  rewrite (@parser_assignment conversions_decimal " " "Xdp" "" "" "0.25"
             (" " +:+ String PyStr.newline "") "");
    [evaluate | evaluate.. | discriminate | evaluate | evaluate | evaluate
    | evaluate | by left | evaluate].
Defined.

Lemma parser_line_without_equals_witness :
  @parse_lines conversions_decimal
    (["Ra = 0"] ++ "  # armature" :: ["Xd = 2"]) (Loaded ∅ None None)
  = (Some (Base IndexError), Loaded {[ "Ra" := 0 ]} None None).
Proof.
  rewrite (@parser_line_without_equals conversions_decimal);
    [evaluate | evaluate | | evaluate].
  intros Hblank. vm_compute in Hblank. discriminate.
Defined.

Lemma legacy_parser_agrees_witness :
  @parse_lines conversions_decimal ["Ra = 0"; "# no header"; "H = 0.5"]
    (Loaded ∅ None None)
  = ((@Legacy.parse_lines conversions_decimal
        ["Ra = 0"; "# no header"; "H = 0.5"] ∅).1,
     Loaded (@Legacy.parse_lines conversions_decimal
               ["Ra = 0"; "# no header"; "H = 0.5"] ∅).2 None None).
Proof.
  apply (@legacy_parser_agrees conversions_decimal).
  repeat (apply Forall_cons; split;
          [split; vm_compute; discriminate|]).
  by apply Forall_nil.
Defined.

Lemma legacy_parser_assignment_witness :
  @Legacy.parse_line conversions_decimal
    ("" +:+ "ID" +:+ " " +:+ "=" +:+ " " +:+ "7" +:+ "" +:+ "") ∅
  = inr {[ "ID" := 7 ]}.
Proof.
  rewrite (@legacy_parser_assignment conversions_decimal "" "ID" " " " " "7"
             "" "");
    [evaluate | evaluate.. | discriminate | evaluate | evaluate | evaluate
    | evaluate | by left | evaluate].
Defined.
End ParserWitnesses.

(** ** When the parser raises [IndexError] *)

Section IndexErrors.
Context `{Conversions}.
Import PyStr.
#[local] Arguments isspace : simpl never.
#[local] Arguments rstrip_chars : simpl never.
#[local] Arguments strip : simpl never.
#[local] Arguments split : simpl never.

Local Abbreviation chars := String.list_ascii_of_string.
Local Abbreviation str := String.string_of_list_ascii.

Lemma split_chars_two sep (l : list Ascii.ascii) :
  existsb (Ascii.eqb sep) l = true →
  ∃ t0 t1 more, split_chars sep l = t0 :: t1 :: more.
Proof.
  induction l as [|c l IH]; cbn; [done|].
  rewrite (Ascii.eqb_sym sep c).
  destruct (Ascii.eqb c sep); cbn.
  - intros _. destruct (split_chars sep l) as [|t ts] eqn:E; [|by eauto].
    by destruct (split_chars_nonempty sep l).
  - intros (t0 & t1 & more & ->)%IH. by eauto.
Qed.

Lemma lstrip_chars_keeps (l : list Ascii.ascii) (c : Ascii.ascii) :
  isspace c = false → In c l → In c (lstrip_chars l).
Proof.
  intros Hc. induction l as [|d l IH]; cbn; [done|].
  destruct (isspace d) eqn:Ed; [|done].
  intros [->|Hin]; [congruence|by apply IH].
Qed.

Lemma contains_strip_keeps (s : string) :
  Line.contains "=" s = true → Line.contains "=" (strip s) = true.
Proof.
  unfold Line.contains, strip. rewrite chars_str.
  intros (c & Hin & Hc)%existsb_exists. apply existsb_exists.
  exists c. split; [|done].
  apply Ascii.eqb_eq in Hc. subst c.
  unfold rstrip_chars. rewrite <- in_rev.
  apply lstrip_chars_keeps; [done|]. rewrite <- in_rev.
  by apply lstrip_chars_keeps.
Qed.

(** A line raises [IndexError] only if it is empty or has no [=]. *)
Lemma parse_line_index_error (line : string) (self : loaded) :
  parse_line line self = inl (Base IndexError) →
  line = "" ∨
  (String.prefix "#" line = false ∧ ¬ Line.blank line ∧
   Line.contains "=" line = false).
Proof.
  intros Hraise.
  destruct (decide (line = "")) as [->|Hne]; [by left|right].
  revert Hraise. unfold parse_line.
  destruct (first_char line Hne) as (c & -> & Ec). cbn. rewrite Ec.
  destruct (String.prefix "#" line); cbn; [done|].
  destruct (String.eqb (strip line) "") eqn:Eb; cbn; [done|].
  apply String.eqb_neq in Eb. intros Hraise. split_and!; [done|done|].
  apply not_true_is_false. intros Hc%contains_strip_keeps.
  unfold Line.contains in Hc.
  destruct (split_chars_two _ _ Hc) as (t0 & t1 & more & Es).
  unfold split in Hraise. rewrite Es in Hraise. cbn in Hraise.
  unfold convert in Hraise. by repeat case_match.
Qed.

Lemma parse_lines_raised (lines : list string) (self self' : loaded)
    (e : file_exn) :
  parse_lines lines self = (Some e, self') →
  ∃ l1 line l2, lines = l1 ++ line :: l2 ∧
    parse_lines l1 self = (None, self') ∧ parse_line line self' = inl e.
Proof.
  revert self. induction lines as [|line lines IH]; intros self; cbn; [done|].
  destruct (parse_line line self) as [e'|self1] eqn:El.
  - intros [= -> ->]. by exists [], line, lines.
  - intros (l1 & line' & l2 & -> & E1 & E2)%IH.
    exists (line :: l1), line', l2. cbn. by rewrite El.
Qed.

Lemma lines_chars_nonempty (l : list Ascii.ascii) :
  Forall (λ ln, ln ≠ []) (lines_chars l).
Proof.
  induction l as [|c l IH]; cbn; [by apply Forall_nil|].
  destruct (Ascii.eqb c newline).
  - by apply Forall_cons.
  - destruct (lines_chars l) as [|ln lns]; [by repeat apply Forall_cons|].
    apply Forall_cons in IH as [_ IH]. by apply Forall_cons.
Qed.

Lemma readlines_nonempty (text : string) :
  Forall (λ line, line ≠ "") (readlines text).
Proof.
  unfold readlines. apply Forall_fmap.
  eapply Forall_impl; [apply lines_chars_nonempty|].
  intros ln Hln. cbn. by rewrite str_nil.
Qed.

(** X29.  [parser] on a file raises [IndexError] only at a line without
    [=].  When the file can be opened and the call ends on [IndexError],
    some line of the file that does not start with [#], is not blank and
    holds no [=] was reached, and the object holds what the lines before
    it assigned. *)
Theorem parser_index_error (fs : gmap string string) (filename text : string)
    (self self' : loaded) :
  fs !! filename = Some text →
  parser fs filename self = (Some (Base IndexError), self') →
  ∃ l1 line l2,
    readlines text = l1 ++ line :: l2 ∧
    parse_lines l1 self = (None, self') ∧
    String.prefix "#" line = false ∧ ¬ Line.blank line ∧
    Line.contains "=" line = false.
Proof.
  intros Hf. unfold parser. rewrite Hf.
  intros (l1 & line & l2 & El & E1 & E2)%parse_lines_raised.
  exists l1, line, l2. split_and!; [done|done|..].
  all: destruct (parse_line_index_error line self' E2) as [->|(?&?&?)];
    [|done].
  all: pose proof (readlines_nonempty text) as Hne; rewrite El in Hne.
  all: apply Forall_app in Hne as [_ Hne].
  all: by apply Forall_cons in Hne as [? _].
Qed.
End IndexErrors.

Lemma parser_index_error_witness :
  ∃ l1 line l2,
    PyStr.readlines ("Ra = 0" +:+ String PyStr.newline "  # armature")
    = l1 ++ line :: l2 ∧
    @parse_lines conversions_decimal l1 (Loaded ∅ None None)
    = (None, Loaded {[ "Ra" := 0%float ]} None None) ∧
    String.prefix "#" line = false ∧ ¬ Line.blank line ∧
    Line.contains "=" line = false.
Proof.
  apply (@parser_index_error conversions_decimal
           {[ "bad.mach" := "Ra = 0" +:+ String PyStr.newline "  # armature" ]}
           "bad.mach").
  - reflexivity.
  - evaluate.
Defined.
